(** * AgnosticPhylogeneticTree: the species tree of [phylogenictree.hpp]

    A shallow embedding of [phylogeny::PhylogenicTree<GENOME>] and of the
    friend functions [matchesSpecies] and [insertInto], followed by the
    properties of the admission, envelope, persistence and text output
    code.

    Modelling conventions.
    - [uint] values (ids, steps, counters) are [N]; every increment and every
      conversion from a document number is reduced modulo [2^32].  [int]
      coordinates are [Z].  Container sizes and slot indices are [nat].
    - A finite [float] or [double] is the rational [Q] it denotes, and an
      operation on floating-point numbers is the exact operation followed by
      [round], the rounding to the nearest number of the format, ties to the
      even significand.  A [double] score is narrowed when it is pushed onto
      the [std::vector<float>].  There is no NaN and no infinity: a result
      beyond the largest finite number of its format stays finite.
    - A [Node_ptr] is the position of the node in [_nodes]: [makeNode] is the
      only allocation site and it pushes every node it allocates onto that
      vector, nothing is ever removed from it.
    - [std::map] is [gmap]; [operator[]] on a missing key inserts the default
      value, which is written out where the source reads through it.
    - Assertions are enabled.  A failed assertion, a thrown exception and
      undefined behaviour (an index out of range through [operator[]]) are
      three distinct outcomes; the state reached when an exception is thrown
      is kept. *)

From Stdlib Require Import ZArith NArith QArith Qminmax Lia DecimalString.
From stdpp Require Import base option list strings gmap sorting.

Local Open Scope Q_scope.

(** ** Numeric helpers *)

Definition wrap32 (n : N) : N := (n mod 2 ^ 32)%N.

Definition Qltb (a b : Q) : bool := negb (Qle_bool b a).

(** [std::min] on scores: the second argument only when it is strictly
    smaller. *)
Definition std_min (a b : Q) : Q := if Qltb b a then b else a.

Definition Q_of_nat (n : nat) : Q := inject_Z (Z.of_nat n).

(** [k - 1] computed in [uint]. *)
Definition uint_pred (k : nat) : N :=
  Z.to_N ((Z.of_nat k - 1) mod 2 ^ 32).

(** ** Floating-point numbers

    The two formats of IEEE 754 the code computes in: [float] is binary32,
    [double] is binary64. *)

Inductive format := binary32 | binary64.

(** The number of bits of the significand, the hidden one included. *)
Definition precision (f : format) : Z :=
  match f with binary32 => 24 | binary64 => 53 end.

(** The exponent of the last bit of a subnormal number. *)
Definition emin (f : format) : Z :=
  match f with binary32 => -149 | binary64 => -1074 end.

Definition pow2 (e : Z) : Q :=
  if (0 <=? e)%Z then inject_Z (2 ^ e) else 1 # Z.to_pos (2 ^ (- e)).

(** The [e] with [2 ^ (e - 1) <= n / d < 2 ^ e]. *)
Definition magnitude (n d : positive) : Z :=
  let a := (Z.log2 (Zpos n) - Z.log2 (Zpos d))%Z in
  if (Zpos d * 2 ^ Z.max a 0 <=? Zpos n * 2 ^ Z.max (- a) 0)%Z
  then (a + 1)%Z else a.

(** The integer nearest to [n / d], the even one of the two when [n / d] is
    half way between them. *)
Definition nearest_even (n d : Z) : Z :=
  let q := (n / d)%Z in
  match (2 * (n mod d) ?= d)%Z with
  | Lt => q
  | Gt => (q + 1)%Z
  | Eq => if Z.even q then q else (q + 1)%Z
  end.

(** [n / d] rounded to a multiple of [2 ^ e], where [e] is the exponent of
    the last bit of the significand of a number of the magnitude of
    [n / d]. *)
Definition round_pos (f : format) (n d : positive) : Q :=
  let e := Z.max (magnitude n d - precision f) (emin f) in
  let m := nearest_even (Zpos n * 2 ^ Z.max (- e) 0)
                        (Zpos d * 2 ^ Z.max e 0) in
  Qred (inject_Z m * pow2 e).

Definition round (f : format) (q : Q) : Q :=
  match Qnum q with
  | Z0 => 0
  | Zpos n => round_pos f n (Qden q)
  | Zneg n => - round_pos f n (Qden q)
  end.

(** The conversion of a [double] to [float]. *)
Definition narrow (c : Q) : Q := round binary32 c.

(** The conversion of a [uint] to a floating-point number. *)
Definition of_uint (f : format) (n : N) : Q := round f (inject_Z (Z.of_N n)).

(** ** The genome capabilities required of the template parameter *)

Inductive Parent := MOTHER | FATHER.

Class Genome (G : Type) := {
  genome_id : G -> N;            (* g.id() *)
  hasParent : G -> Parent -> bool;
  parent : G -> Parent -> N;
  distance : G -> G -> Q;
  const_cdata : G -> Q -> Q      (* g.const_cdata()(d) *)
}.

(** ** Configuration: the [PTreeConfig] accessors the tree reads

    [ptreeconfig.h] declares the two thresholds of the membership test, both
    [double], and [simpleNewSpecies]; [enveloppeSize],
    [outperformanceThreshold] and [ignoreHybrids] are read by the tree and
    declared in none of the sources at hand: all six are fields of a record
    the model is parametrised by.  The floating-point type of
    [outperformanceThreshold], which is the format the test of the eviction
    vote is computed in, is a seventh field. *)

Record PTreeConfig := {
  compatibilityThreshold : Q;
  similarityThreshold : Q;
  enveloppeSize : nat;
  outperformanceThreshold : Q;
  ignoreHybrids : bool;
  simpleNewSpecies : bool;
  outperformanceFormat : format
}.

(** ** Outcomes *)

Inductive exn := OutOfRange | TypeError.

Inductive outcome (A : Type) :=
| Ok (a : A)
| Throw (e : exn)
| Abort
| Undefined.
Arguments Ok {A} a.
Arguments Throw {A} e.
Arguments Abort {A}.
Arguments Undefined {A}.

Definition obind {A B} (o : outcome A) (f : A -> outcome B) : outcome B :=
  match o with
  | Ok a => f a
  | Throw e => Throw e
  | Abort => Abort
  | Undefined => Undefined
  end.

(** [v[i]] on a vector: out of range is undefined behaviour. *)
Definition vec_get {A} (v : list A) (i : nat) : outcome A :=
  match v !! i with Some a => Ok a | None => Undefined end.

Fixpoint for_each {A S} (body : A -> S -> outcome S) (l : list A) (s : S)
  : outcome S :=
  match l with
  | [] => Ok s
  | a :: l' => obind (body a s) (for_each body l')
  end.

(** ** Nodes *)

Abbreviation Node_ptr := nat (only parsing).

Record Data := mkData {
  firstAppearance : N;
  lastAppearance : N;
  count : N;
  xmin : Z;
  xmax : Z
}.

Definition ordered_pair (a b : nat) : nat * nat := (Nat.min a b, Nat.max a b).

Inductive Notification :=
| onNewSpecies (sid : N)
| onGenomeEntersEnveloppe (sid gid : N)
| onGenomeLeavesEnveloppe (sid gid : N).

Record Node (G : Type) := mkNode {
  node_id : N;
  data : Data;
  node_parent : option Node_ptr;
  children : list Node_ptr;
  enveloppe : list G;
  distances : gmap (nat * nat) Q
}.
Arguments mkNode {G}.
Arguments node_id {G}.
Arguments data {G}.
Arguments node_parent {G}.
Arguments children {G}.
Arguments enveloppe {G}.
Arguments distances {G}.

Definition set_data {G} (n : Node G) (d : Data) : Node G :=
  mkNode (node_id n) d (node_parent n) (children n) (enveloppe n) (distances n).

Definition set_lastAppearance {G} (step : N) (n : Node G) : Node G :=
  set_data n (mkData (firstAppearance (data n)) step (count (data n))
                     (xmin (data n)) (xmax (data n))).

Definition push_child {G} (c : Node_ptr) (n : Node G) : Node G :=
  mkNode (node_id n) (data n) (node_parent n) (children n ++ [c])
         (enveloppe n) (distances n).

(** [dist[key]] read through [operator[]]: a missing key is created with the
    value [0.0f]. *)
Definition dist_read (dist : gmap (nat * nat) Q) (key : nat * nat)
  : Q * gmap (nat * nat) Q :=
  match dist !! key with
  | Some v => (v, dist)
  | None => (0, <[key := 0]> dist)
  end.

Section Engine.
Context {G : Type} `{Genome G}.
Variable cfg : PTreeConfig.

(** *** matchesSpecies *)

Definition compatibility (g e : G) : Q :=
  let d := distance g e in
  std_min (const_cdata g d) (const_cdata e d).

(** The loop of [matchesSpecies]: [compatibilities] is the caller's vector
    and is only ever pushed onto.  The [double] score [c] is compared with
    the threshold as it is, and narrowed to [float] by the push; [matable] is
    a [uint]. *)
Fixpoint matches_loop (g : G) (env : list G) (matable : N)
    (compatibilities : list Q) : N * list Q :=
  match env with
  | [] => (matable, compatibilities)
  | e :: env' =>
      let c := compatibility g e in
      matches_loop g env'
        (if Qle_bool (compatibilityThreshold cfg) c then wrap32 (matable + 1)
         else matable)
        (compatibilities ++ [narrow c])
  end.

(** [matable >= similarityThreshold() * k]: both [uint]s are converted to
    [double] and the product is a [double]. *)
Definition matchesSpecies (g : G) (species : Node G)
    (compatibilities : list Q) : bool * list Q :=
  let k := wrap32 (N.of_nat (length (enveloppe species))) in
  let '(matable, compatibilities') :=
    matches_loop g (enveloppe species) 0 compatibilities in
  (Qle_bool (round binary64 (similarityThreshold cfg * of_uint binary64 k))
            (of_uint binary64 matable),
   compatibilities').

(** *** insertInto *)

(** Append branch: [for (i < k) dist[{i, k}] = compatibilities[i]]. *)
Definition record_new_slot (compatibilities : list Q) (k : nat)
    (i : nat) (dist : gmap (nat * nat) Q) : outcome (gmap (nat * nat) Q) :=
  obind (vec_get compatibilities i) (fun c =>
  Ok (<[ordered_pair i k := c]> dist)).

(** Search of the most similar envelope point, from index 1 on. *)
Definition most_similar_step (compatibilities : list Q) (i : nat)
    (s : Q * nat) : outcome (Q * nat) :=
  obind (vec_get compatibilities i) (fun c =>
  Ok (if Qltb (fst s) c then (c, i) else s)).

(** The vote: [newIsBest += (compatibilities[i] < dist[{i, m}])]. *)
Definition vote_step (compatibilities : list Q) (m : nat) (i : nat)
    (s : nat * gmap (nat * nat) Q) : outcome (nat * gmap (nat * nat) Q) :=
  if decide (i = m) then Ok s
  else
    obind (vec_get compatibilities i) (fun c =>
    let '(d, dist') := dist_read (snd s) (ordered_pair i m) in
    Ok ((if Qltb c d then S (fst s) else fst s), dist')).

(** Replacement branch: [if (i != m) dist[{i, m}] = compatibilities[i]]. *)
Definition overwrite_step (compatibilities : list Q) (m : nat) (i : nat)
    (dist : gmap (nat * nat) Q) : outcome (gmap (nat * nat) Q) :=
  if decide (i = m) then Ok dist
  else
    obind (vec_get compatibilities i) (fun c =>
    Ok (<[ordered_pair i m := c]> dist)).

Definition bump (step : N) (x : Z) (d : Data) : Data :=
  mkData (firstAppearance d) step (wrap32 (count d + 1))
         (Z.min (xmin d) x) (Z.max (xmax d) x).

(** The envelope part of [insertInto]: the new envelope, the new distance
    table and the notifications sent, in order.  In the test
    [newIsBest < outperformanceThreshold() * (k-1)] the two [uint]s, the
    count and [k-1], are converted to the type of the threshold and the
    product is of that type. *)
Definition update_enveloppe (g : G) (species : Node G)
    (compatibilities : list Q) (callbacks : bool)
  : outcome (list G * gmap (nat * nat) Q * list Notification) :=
  let k := length (enveloppe species) in
  let dist := distances species in
  if (k <? enveloppeSize cfg)%nat then
    obind (for_each (record_new_slot compatibilities k) (seq 0 k) dist)
      (fun dist' =>
    Ok (enveloppe species ++ [g], dist',
        if callbacks
        then [onGenomeEntersEnveloppe (node_id species) (genome_id g)]
        else []))
  else if negb (k =? enveloppeSize cfg)%nat then Abort
  else
    obind (vec_get compatibilities 0) (fun c0 =>
    obind (for_each (most_similar_step compatibilities) (seq 1 (k - 1))
             (c0, 0%nat)) (fun best =>
    let mostCompatible := snd best in
    obind (for_each (vote_step compatibilities mostCompatible) (seq 0 k)
             (0%nat, dist)) (fun '(newIsBest, dist1) =>
    let f := outperformanceFormat cfg in
    if Qltb (of_uint f (wrap32 (N.of_nat newIsBest)))
            (round f (outperformanceThreshold cfg * of_uint f (uint_pred k)))
    then Ok (enveloppe species, dist1, [])
    else
      obind (vec_get (enveloppe species) mostCompatible) (fun old =>
      obind (for_each (overwrite_step compatibilities mostCompatible)
               (seq 0 k) dist1) (fun dist2 =>
      Ok (<[mostCompatible := g]> (enveloppe species), dist2,
          if callbacks
          then [onGenomeLeavesEnveloppe (node_id species) (genome_id old);
                onGenomeEntersEnveloppe (node_id species) (genome_id g)]
          else [])))))).

Definition insertInto (step : N) (x : Z) (g : G) (species : Node G)
    (compatibilities : list Q) (callbacks : bool)
  : outcome (Node G * list Notification) :=
  obind (update_enveloppe g species compatibilities callbacks)
    (fun '(env', dist', sent) =>
  Ok (mkNode (node_id species) (bump step x (data species))
             (node_parent species) (children species) env' dist',
      sent)).

End Engine.

(** ** The tree *)

Record PhylogenicTree (G : Type) := mkTree {
  _nextNodeID : N;
  _idToSpecies : gmap N N;
  _root : Node_ptr;
  _nodes : list (Node G);
  _callbacks : bool;              (* is an observer installed? *)
  _hybrids : N;
  _step : N;
  notified : list Notification    (* the calls the observer received *)
}.
Arguments mkTree {G}.
Arguments _nextNodeID {G}.
Arguments _idToSpecies {G}.
Arguments _root {G}.
Arguments _nodes {G}.
Arguments _callbacks {G}.
Arguments _hybrids {G}.
Arguments _step {G}.
Arguments notified {G}.

Definition NoID : N := (2 ^ 32 - 1)%N.

(** *** A state monad in which the state survives a failure *)

Definition M (G A : Type) : Type :=
  PhylogenicTree G -> outcome A * PhylogenicTree G.

Definition mret {G A} (a : A) : M G A := fun pt => (Ok a, pt).

Definition mbind {G A B} (c : M G A) (f : A -> M G B) : M G B :=
  fun pt =>
    match c pt with
    | (Ok a, pt') => f a pt'
    | (Throw e, pt') => (Throw e, pt')
    | (Abort, pt') => (Abort, pt')
    | (Undefined, pt') => (Undefined, pt')
    end.

Definition mfail {G A} (o : outcome A) : M G A := fun pt => (o, pt).

Definition get {G} : M G (PhylogenicTree G) := fun pt => (Ok pt, pt).

Definition modify {G} (f : PhylogenicTree G -> PhylogenicTree G) : M G unit :=
  fun pt => (Ok tt, f pt).

Definition lift {G A} (o : outcome A) : M G A := fun pt => (o, pt).

Notation "'let!' x ':=' c 'in' k" := (mbind c (fun x => k))
  (at level 10, x name, c at level 100, k at level 200, only parsing).
Notation "'do!' c 'then' k" := (mbind c (fun _ => k))
  (at level 10, c at level 100, k at level 200, only parsing).

Fixpoint mfor {G A} (body : A -> M G unit) (l : list A) : M G unit :=
  match l with
  | [] => mret tt
  | a :: l' => do! body a then mfor body l'
  end.

(** *** Field updates *)

Definition with_nodes {G} (f : list (Node G) -> list (Node G))
    (pt : PhylogenicTree G) : PhylogenicTree G :=
  mkTree (_nextNodeID pt) (_idToSpecies pt) (_root pt) (f (_nodes pt))
         (_callbacks pt) (_hybrids pt) (_step pt) (notified pt).

Definition with_index {G} (f : gmap N N -> gmap N N)
    (pt : PhylogenicTree G) : PhylogenicTree G :=
  mkTree (_nextNodeID pt) (f (_idToSpecies pt)) (_root pt) (_nodes pt)
         (_callbacks pt) (_hybrids pt) (_step pt) (notified pt).

Definition with_step {G} (s : N) (pt : PhylogenicTree G) : PhylogenicTree G :=
  mkTree (_nextNodeID pt) (_idToSpecies pt) (_root pt) (_nodes pt)
         (_callbacks pt) (_hybrids pt) s (notified pt).

Definition with_root {G} (r : Node_ptr) (pt : PhylogenicTree G)
  : PhylogenicTree G :=
  mkTree (_nextNodeID pt) (_idToSpecies pt) r (_nodes pt)
         (_callbacks pt) (_hybrids pt) (_step pt) (notified pt).

Definition with_hybrids {G} (h : N) (pt : PhylogenicTree G)
  : PhylogenicTree G :=
  mkTree (_nextNodeID pt) (_idToSpecies pt) (_root pt) (_nodes pt)
         (_callbacks pt) h (_step pt) (notified pt).

Definition with_nextNodeID {G} (n : N) (pt : PhylogenicTree G)
  : PhylogenicTree G :=
  mkTree n (_idToSpecies pt) (_root pt) (_nodes pt)
         (_callbacks pt) (_hybrids pt) (_step pt) (notified pt).

Definition with_notified {G} (sent : list Notification)
    (pt : PhylogenicTree G) : PhylogenicTree G :=
  mkTree (_nextNodeID pt) (_idToSpecies pt) (_root pt) (_nodes pt)
         (_callbacks pt) (_hybrids pt) (_step pt) (notified pt ++ sent).

(** [setCallbacks]. *)
Definition setCallbacks {G} (c : bool) (pt : PhylogenicTree G)
  : PhylogenicTree G :=
  mkTree (_nextNodeID pt) (_idToSpecies pt) (_root pt) (_nodes pt)
         c (_hybrids pt) (_step pt) (notified pt).

(** *** Pointers into the registry *)

(** Dereference of a [Node_ptr] handed out by [makeNode]. *)
Definition deref {G} (p : Node_ptr) : M G (Node G) :=
  let! pt := get in lift (vec_get (_nodes pt) p).

(** Mutation of the node behind a pointer that [makeNode] handed out. *)
Definition update_node {G} (p : Node_ptr) (f : Node G -> Node G) : M G unit :=
  modify (with_nodes (alter f p)).

(** [_nodes[id]]: no bounds check. *)
Definition nodes_index {G} (id : N) : M G Node_ptr :=
  let! pt := get in
  if (N.to_nat id <? length (_nodes pt))%nat then mret (N.to_nat id)
  else mfail Undefined.

(** [_nodes.at(id)]: throws [std::out_of_range]. *)
Definition nodes_at {G} (id : N) : M G Node_ptr :=
  let! pt := get in
  if (N.to_nat id <? length (_nodes pt))%nat then mret (N.to_nat id)
  else mfail (Throw OutOfRange).

(** [_idToSpecies.at(id)]: throws [std::out_of_range]. *)
Definition idToSpecies_at {G} (id : N) : M G N :=
  let! pt := get in
  match _idToSpecies pt !! id with
  | Some sid => mret sid
  | None => mfail (Throw OutOfRange)
  end.

(** The calls made on the observer, appended to what it has received. *)
Definition notify {G} (sent : list Notification) : M G unit :=
  modify (with_notified sent).

Section Tree.
Context {G : Type} `{Genome G}.
Variable cfg : PTreeConfig.

(** What the allocator left in the fields of [Node::data] that neither the
    constructor of [Node] nor [makeNode] writes. *)
Variable indeterminate : Data.

(** *** makeNode and the constructor *)

Definition makeNode (parent : option Node_ptr) : M G Node_ptr :=
  let! pt := get in
  let p := length (_nodes pt) in
  let n := mkNode (_nextNodeID pt)
             (mkData 0 (lastAppearance indeterminate) 0
                     (xmin indeterminate) (xmax indeterminate))
             parent [] [] ∅ in
  do! modify (with_nextNodeID (wrap32 (_nextNodeID pt + 1))) then
  do! modify (with_nodes (fun ns => ns ++ [n])) then
  mret p.

(** The state before the body of the constructor runs [makeNode]. *)
Definition blank : PhylogenicTree G :=
  mkTree 0 ∅ 0%nat [] false 0 0 [].

Definition PhylogenicTree_new : PhylogenicTree G :=
  match makeNode None blank with
  | (Ok p, pt) => with_root p pt
  | (_, pt) => pt
  end.

(** *** The private addGenome (x, g, species) *)

(** A successful match: [insertInto], then the index. *)
Definition place (x : Z) (g : G) (species : Node_ptr)
    (compatibilities : list Q) : M G N :=
  let! pt := get in
  let! n := deref species in
  let! r := lift (insertInto cfg (_step pt) x g n compatibilities
                    (_callbacks pt)) in
  do! update_node species (fun _ => fst r) then
  do! notify (snd r) then
  do! modify (with_index (<[genome_id g := node_id (fst r)]>)) then
  mret (node_id (fst r)).

(** "Need to create new species". *)
Definition newSpecies (x : Z) (g : G) (species : Node_ptr)
    (compatibilities : list Q) : M G N :=
  if simpleNewSpecies cfg then
    let! subspecies := makeNode (Some species) in
    let! pt := get in
    do! update_node subspecies (fun n =>
          set_data n (mkData (_step pt) (lastAppearance (data n))
                             (count (data n)) x x)) then
    do! update_node species (push_child subspecies) then
    let! sid := place x g subspecies compatibilities in
    do! (if _callbacks pt then notify [onNewSpecies sid] else mret tt) then
    mret sid
  else mfail Abort.

(** "Belongs to subspecies ?": the children in order, every test pushing
    onto the same vector. *)
Fixpoint trySubspecies (x : Z) (g : G) (species : Node_ptr)
    (subs : list Node_ptr) (compatibilities : list Q) : M G N :=
  match subs with
  | [] => newSpecies x g species compatibilities
  | subspecies :: subs' =>
      let! n := deref subspecies in
      let '(ok, compatibilities') :=
        matchesSpecies cfg g n compatibilities in
      if ok then place x g subspecies compatibilities'
      else trySubspecies x g species subs' compatibilities'
  end.

(** The private overload [addGenome (x, g, species)]. *)
Definition addGenome_at (x : Z) (g : G) (species : Node_ptr) : M G N :=
  let! n := deref species in
  let '(ok, compatibilities) := matchesSpecies cfg g n [] in
  if ok then place x g species compatibilities
  else trySubspecies x g species (children n) compatibilities.

(** *** The public interface *)

(** [addGenome (x, g)]: the starting node from the parents' species. *)
Definition addGenome (x : Z) (g : G) : M G N :=
  if negb (hasParent g FATHER) || negb (hasParent g MOTHER) then
    let! pt := get in addGenome_at x g (_root pt)
  else
    let! mID := idToSpecies_at (parent g MOTHER) in
    let! pID := idToSpecies_at (parent g FATHER) in
    if negb (ignoreHybrids cfg || (mID =? pID)%N) then mfail Abort
    else
      do! (if negb (mID =? pID)%N
           then let! pt := get in
                modify (with_hybrids (wrap32 (_hybrids pt + 1)))
           else mret tt) then
      let! species := nodes_index mID in
      addGenome_at x g species.

(** The first loop of [step]: [aliveSpecies.insert(_idToSpecies.at(pid))]. *)
Fixpoint resolve_alive (pids : list N) (aliveSpecies : gset N)
  : M G (gset N) :=
  match pids with
  | [] => mret aliveSpecies
  | pid :: pids' =>
      let! sid := idToSpecies_at pid in
      resolve_alive pids' ({[sid]} ∪ aliveSpecies)
  end.

(** A [std::set<uint>] is visited in ascending order. *)
Definition ascending (s : gset N) : list N := merge_sort N.le (elements s).

Definition step (s : N) (alivePlants : gset N) : M G unit :=
  let! aliveSpecies := resolve_alive (ascending alivePlants) ∅ in
  do! mfor (fun sid =>
        let! p := nodes_at sid in
        update_node p (set_lastAppearance s))
      (ascending aliveSpecies) then
  modify (with_step s).

Definition delGenome (s : N) (id : N) : M G unit :=
  let! pt := get in
  match _idToSpecies pt !! id with
  | Some sid =>
      let! p := nodes_index sid in
      update_node p (set_lastAppearance s)
  | None => mret tt
  end.

Definition speciesID (id : N) (pt : PhylogenicTree G) : N :=
  match _idToSpecies pt !! id with
  | Some sid => sid
  | None => NoID
  end.

End Tree.

(** ** Persistence *)

(** [nlohmann::json] comes from [kgd/external/json.hpp], outside the sources
    at hand.  This is the part of it the codec goes through: null, booleans,
    the three number kinds, strings and arrays; [operator[]] on a [const]
    document, the range-for, [push_back] on a default value and the
    conversions to [uint], [int] and [float]. *)
Inductive json :=
| JNull
| JBool (b : bool)
| JUnsigned (n : N)
| JInteger (z : Z)
| JFloat (q : Q)
| JString (s : string)
| JArray (l : list json).

(** The serialisation the genome type brings with it. *)
Class GenomeCodec (G : Type) := {
  genome_to_json : G -> json;
  genome_from_json : json -> outcome G
}.

(** [j[i]] on a [const] document. *)
Definition json_at (j : json) (i : nat) : outcome json :=
  match j with
  | JArray l => vec_get l i
  | _ => Throw TypeError
  end.

(** What a range-for visits: nothing for null, the elements of an array, a
    scalar itself. *)
Definition json_items (j : json) : list json :=
  match j with
  | JNull => []
  | JArray l => l
  | _ => [j]
  end.

(** A document grown by [push_back] from the default (null) value. *)
Definition json_pushed (l : list json) : json :=
  match l with
  | [] => JNull
  | _ => JArray l
  end.

Fixpoint json_size (j : json) : nat :=
  match j with
  | JArray l =>
      S ((fix sum (l : list json) : nat :=
            match l with
            | [] => O
            | c :: l' => (json_size c + sum l')%nat
            end) l)
  | _ => 1%nat
  end.

Definition Qtrunc (q : Q) : Z := Z.quot (Qnum q) (Z.pos (Qden q)).

Definition wrap_int (z : Z) : Z := ((z + 2 ^ 31) mod 2 ^ 32 - 2 ^ 31)%Z.

Definition get_uint (j : json) : outcome N :=
  match j with
  | JBool b => Ok (if b then 1 else 0)%N
  | JUnsigned n => Ok (wrap32 n)
  | JInteger z => Ok (Z.to_N (z mod 2 ^ 32))
  | JFloat q =>
      let t := Qtrunc q in
      if decide (0 <= t < 2 ^ 32)%Z then Ok (Z.to_N t) else Undefined
  | _ => Throw TypeError
  end.

Definition get_int (j : json) : outcome Z :=
  match j with
  | JBool b => Ok (if b then 1 else 0)%Z
  | JUnsigned n => Ok (wrap_int (Z.of_N n))
  | JInteger z => Ok (wrap_int z)
  | JFloat q =>
      let t := Qtrunc q in
      if decide (- 2 ^ 31 <= t < 2 ^ 31)%Z then Ok t else Undefined
  | _ => Throw TypeError
  end.

Definition get_float (j : json) : outcome Q :=
  match j with
  | JBool b => Ok (if b then 1 else 0)
  | JUnsigned n => Ok (inject_Z (Z.of_N n))
  | JInteger z => Ok (inject_Z z)
  | JFloat q => Ok q
  | _ => Throw TypeError
  end.

Definition Data_to_json (d : Data) : json :=
  JArray [JUnsigned (firstAppearance d); JUnsigned (lastAppearance d);
          JUnsigned (count d); JInteger (xmin d); JInteger (xmax d)].

Definition Data_from_json (j : json) : outcome Data :=
  obind (obind (json_at j 0) get_uint) (fun fa =>
  obind (obind (json_at j 1) get_uint) (fun la =>
  obind (obind (json_at j 2) get_uint) (fun c =>
  obind (obind (json_at j 3) get_int) (fun lo =>
  obind (obind (json_at j 4) get_int) (fun hi =>
  Ok (mkData fa la c lo hi)))))).

(** [operator<] of [ordered_pair], made reflexive: the order in which a
    range-for visits the entries of [distances]. *)
Definition key_le (e1 e2 : nat * nat * Q) : Prop :=
  (e1.1.1 < e2.1.1)%nat \/ (e1.1.1 = e2.1.1 /\ (e1.1.2 <= e2.1.2)%nat).

#[global] Instance key_le_dec (e1 e2 : nat * nat * Q) : Decision (key_le e1 e2).
Proof. unfold key_le. apply _. Defined.

Definition entries (dist : gmap (nat * nat) Q) : list (nat * nat * Q) :=
  merge_sort key_le (map_to_list dist).

Definition triple_to_json (e : nat * nat * Q) : json :=
  JArray [JUnsigned (N.of_nat (fst (fst e)));
          JUnsigned (N.of_nat (snd (fst e))); JFloat (snd e)].

Definition set_id {G} (i : N) (n : Node G) : Node G :=
  mkNode i (data n) (node_parent n) (children n) (enveloppe n) (distances n).

Definition set_enveloppe {G} (env : list G) (n : Node G) : Node G :=
  mkNode (node_id n) (data n) (node_parent n) (children n) env (distances n).

Definition set_distance {G} (key : nat * nat) (c : Q) (n : Node G) : Node G :=
  mkNode (node_id n) (data n) (node_parent n) (children n) (enveloppe n)
         (<[key := c]> (distances n)).

Section Codec.
Context {G : Type} `{Genome G} `{GenomeCodec G}.
Variable indeterminate : Data.

(** *** to_json *)

(** The recursion of [to_json (json&, const Node&)] follows the child
    pointers; [fuel] bounds its depth. *)
Fixpoint Node_to_json (fuel : nat) (nodes : list (Node G)) (p : Node_ptr)
  : option json :=
  match fuel with
  | O => None
  | S fuel' =>
      n ← nodes !! p;
      jc ← mapM (Node_to_json fuel' nodes) (children n);
      Some (JArray
              [JUnsigned (node_id n);
               Data_to_json (data n);
               JArray (map genome_to_json (enveloppe n));
               json_pushed (map triple_to_json (entries (distances n)));
               json_pushed jc])
  end.

Definition to_json (pt : PhylogenicTree G) : option json :=
  jroot ← Node_to_json (length (_nodes pt)) (_nodes pt) (_root pt);
  Some (JArray [JUnsigned (_step pt); jroot]).

(** *** from_json *)

Definition enveloppe_from_json (j : json) : outcome (list G) :=
  match j with
  | JArray l =>
      for_each (fun e acc =>
                  obind (genome_from_json e) (fun g => Ok (acc ++ [g])))
               l []
  | _ => Throw TypeError
  end.

(** [n->distances[{d[0], d[1]}] = d[2]]. *)
Definition read_distance (n : Node_ptr) (d : json) : M G unit :=
  let! c := lift (obind (json_at d 2) get_float) in
  let! a := lift (obind (json_at d 0) get_uint) in
  let! b := lift (obind (json_at d 1) get_uint) in
  update_node n (set_distance (ordered_pair (N.to_nat a) (N.to_nat b)) c).

(** [rebuildHierarchy] up to and including the loop over the distances. *)
Definition rebuild_fields (n : Node_ptr) (j : json) : M G unit :=
  let! i := lift (obind (json_at j 0) get_uint) in
  do! update_node n (set_id i) then
  let! d := lift (obind (json_at j 1) Data_from_json) in
  do! update_node n (fun node => set_data node d) then
  let! env := lift (obind (json_at j 2) enveloppe_from_json) in
  do! update_node n (set_enveloppe env) then
  let! jd := lift (json_at j 3) in
  let! jc := lift (json_at j 4) in
  mfor (read_distance n) (json_items jd).

(** [for (const auto &c: jc) rebuildHierarchy(n, c)]. *)
Fixpoint each_child (rebuild : json -> M G Node_ptr) (cs : list json)
  : M G unit :=
  match cs with
  | [] => mret tt
  | c :: cs' => do! rebuild c then each_child rebuild cs'
  end.

Fixpoint rebuildHierarchy (parent : option Node_ptr) (j : json) {struct j}
  : M G Node_ptr :=
  let! n := makeNode indeterminate parent in
  do! match parent with
      | Some p => update_node p (push_child n)
      | None => mret tt
      end then
  do! rebuild_fields n j then
  do! match j with
      | JArray (_ :: _ :: _ :: _ :: jc :: _) =>
          match jc with
          | JNull => mret tt
          | JArray cs =>
              each_child (fun c => rebuildHierarchy (Some n) c) cs
          | _ => do! rebuildHierarchy (Some n) jc then mret tt
          end
      | _ => mfail Undefined
      end then
  mret n.

Definition from_json (j : json) : M G unit :=
  let! s := lift (obind (json_at j 0) get_uint) in
  do! modify (with_step s) then
  let! jroot := lift (json_at j 1) in
  let! r := rebuildHierarchy None jroot in
  modify (with_root r).

End Codec.

(** ** Events and the trees they build *)

Inductive Event (G : Type) :=
| Admit (x : Z) (g : G)
| Death (s id : N)
| Advance (s : N) (alivePlants : gset N).
Arguments Admit {G}.
Arguments Death {G}.
Arguments Advance {G}.

Definition continues {A} (o : outcome A) : Prop :=
  match o with
  | Ok _ | Throw _ => True
  | Abort | Undefined => False
  end.

Section Reachable.
Context {G : Type} `{Genome G}.
Variable cfg : PTreeConfig.
Variable indeterminate : Data.

Definition run (e : Event G) : M G unit :=
  match e with
  | Admit x g => do! addGenome cfg indeterminate x g then mret tt
  | Death s id => delGenome s id
  | Advance s alive => step s alive
  end.

(** The trees a client can hold: a fresh one, with or without an observer,
    driven by events; the process is gone after a failed assertion. *)
Inductive reachable : PhylogenicTree G -> Prop :=
| reachable_new : reachable (PhylogenicTree_new indeterminate)
| reachable_callbacks c pt :
    reachable pt -> reachable (setCallbacks c pt)
| reachable_event e pt :
    reachable pt -> continues (fst (run e pt)) ->
    reachable (snd (run e pt)).

End Reachable.

(** ** Views used to state the properties *)

(** The number of representatives [r] of [n] that vote for [g]: those for
    which the smaller of the two ratings [g] and [r] give of the distance
    between them reaches the compatibility threshold. *)
Definition votes_yes {G} `{Genome G} (cfg : PTreeConfig) (g : G) (n : Node G)
  : nat :=
  length (List.filter
            (fun r => Qle_bool (compatibilityThreshold cfg)
                        (Qmin (const_cdata g (distance g r))
                              (const_cdata r (distance g r))))
            (enveloppe n)).

(** The score of [g] against [e] as the vector of [float]s holds it. *)
Definition pushed_score {G} `{Genome G} (g e : G) : Q :=
  narrow (compatibility g e).

(** The hierarchy hanging from a node, without the pointers. *)
Inductive Species (G : Type) :=
| species (sid : N) (d : Data) (env : list G) (dist : gmap (nat * nat) Q)
          (subs : list (Species G)).
Arguments species {G}.

Fixpoint view {G} (fuel : nat) (nodes : list (Node G)) (p : Node_ptr)
  : option (Species G) :=
  match fuel with
  | O => None
  | S fuel' =>
      n ← nodes !! p;
      subs ← mapM (view fuel' nodes) (children n);
      Some (species (node_id n) (data n) (enveloppe n) (distances n) subs)
  end.

Definition hierarchy {G} (pt : PhylogenicTree G) : option (Species G) :=
  view (length (_nodes pt)) (_nodes pt) (_root pt).

(** Every node of the registry satisfies [P]. *)
Definition every_node {G} (P : Node G -> Prop) (pt : PhylogenicTree G)
  : Prop :=
  Forall P (_nodes pt).

(** The registry is at least as long as the ids handed out, and every id
    a node carries or the index records is a position of the registry. *)
Definition registry_ok {G} (pt : PhylogenicTree G) : Prop :=
  (N.to_nat (_nextNodeID pt) <= length (_nodes pt))%nat /\
  Forall (fun n => (N.to_nat (node_id n) < length (_nodes pt))%nat)
         (_nodes pt) /\
  map_Forall (fun (_ sid : N) => (N.to_nat sid < length (_nodes pt))%nat)
             (_idToSpecies pt).

(** The shape of the pointers: the root is a node, and the children of a
    node are nodes allocated after it. *)
Definition heap_ordered {G} (pt : PhylogenicTree G) : Prop :=
  (_root pt < length (_nodes pt))%nat /\
  forall p n, _nodes pt !! p = Some n ->
    Forall (fun c => (p < c < length (_nodes pt))%nat) (children n).

(** The second cache has every key of the first. *)
Definition grows (d d' : gmap (nat * nat) Q) : Prop :=
  forall key, is_Some (d !! key) -> is_Some (d' !! key).

(** [c] keeps [P], whatever its outcome. *)
Definition preserves {G A} (P : PhylogenicTree G -> Prop) (c : M G A) : Prop :=
  forall pt, P pt -> P (snd (c pt)).

(** [m] holds the highest of the first [bound] scores, and no earlier index
    reaches it. *)
Definition is_best (compatibilities : list Q) (bound : nat) (cm : Q) (m : nat)
  : Prop :=
  (m < bound)%nat /\ compatibilities !! m = Some cm /\
  forall i c, (i < bound)%nat -> compatibilities !! i = Some c ->
    c <= cm /\ ((i < m)%nat -> c < cm).

(** Does slot [i] vote for replacing slot [m]? *)
Definition vote (compatibilities : list Q) (dist : gmap (nat * nat) Q)
    (m i : nat) : bool :=
  if decide (i = m) then false
  else match compatibilities !! i, dist !! ordered_pair i m with
       | Some c, Some d => Qltb c d
       | _, _ => false
       end.

Definition replacement_votes (compatibilities : list Q)
    (dist : gmap (nat * nat) Q) (m k : nat) : nat :=
  length (List.filter (vote compatibilities dist m) (seq 0 k)).

(** Every pair of slots below [k] has a cached score. *)
Definition cache_complete (k : nat) (dist : gmap (nat * nat) Q) : Prop :=
  forall i j, (i < j < k)%nat -> is_Some (dist !! (i, j)).

Definition is_uint (n : N) : Prop := (n < 2 ^ 32)%N.
Definition is_int (z : Z) : Prop := (- 2 ^ 31 <= z < 2 ^ 31)%Z.

Definition Data_typed (d : Data) : Prop :=
  is_uint (firstAppearance d) /\ is_uint (lastAppearance d) /\
  is_uint (count d) /\ is_int (xmin d) /\ is_int (xmax d).

(** The keys a [std::map<ordered_pair<uint>, float>] can hold. *)
Definition keys_typed (dist : gmap (nat * nat) Q) : Prop :=
  map_Forall (fun (key : nat * nat) (_ : Q) =>
                (key.1 <= key.2)%nat /\ (Z.of_nat key.2 < 2 ^ 32)%Z) dist.

Fixpoint Species_typed {G} (s : Species G) : Prop :=
  match s with
  | species sid d env dist subs =>
      is_uint sid /\ Data_typed d /\ keys_typed dist /\
      (fix all (l : list (Species G)) : Prop :=
         match l with
         | [] => True
         | c :: l' => Species_typed c /\ all l'
         end) subs
  end.

Definition node_typed {G} (n : Node G) : Prop :=
  is_uint (node_id n) /\ Data_typed (data n) /\ keys_typed (distances n).

(** Every [uint] and [int] field of the tree is within its type. *)
Definition tree_typed {G} (pt : PhylogenicTree G) : Prop :=
  is_uint (_step pt) /\ Forall node_typed (_nodes pt).

Fixpoint species_size {G} (s : Species G) : nat :=
  match s with
  | species _ _ _ _ subs =>
      S ((fix sum (l : list (Species G)) : nat :=
            match l with
            | [] => O
            | c :: l' => (species_size c + sum l')%nat
            end) subs)
  end.

Definition sizes {G} (l : list (Species G)) : nat :=
  foldr (fun c acc => (species_size c + acc)%nat) O l.

(** The pointers [rebuildHierarchy] hands to the children of a node whose
    first child lands at [b]. *)
Fixpoint child_ptrs {G} (b : nat) (subs : list (Species G)) : list nat :=
  match subs with
  | [] => []
  | c :: subs' => b :: child_ptrs (b + species_size c)%nat subs'
  end.

(** The nodes [rebuildHierarchy] appends for a hierarchy, in the order it
    allocates them. *)
Fixpoint layout {G} (base : nat) (parent : option nat) (s : Species G)
  : list (Node G) :=
  match s with
  | species sid d env dist subs =>
      mkNode sid d parent (child_ptrs (S base) subs) env dist ::
      (fix go (b : nat) (l : list (Species G)) : list (Node G) :=
         match l with
         | [] => []
         | c :: l' => layout b (Some base) c ++ go (b + species_size c)%nat l'
         end) (S base) subs
  end.

Fixpoint layouts {G} (b : nat) (parent : option nat) (l : list (Species G))
  : list (Node G) :=
  match l with
  | [] => []
  | c :: l' =>
      layout b parent c ++ layouts (b + species_size c)%nat parent l'
  end.

(** [_nextNodeID] after [k] allocations. *)
Definition advance_id (k : nat) (i : N) : N :=
  Nat.iter k (fun i => wrap32 (i + 1)) i.

Definition link {G} (parent : option nat) (child : nat)
    (nodes : list (Node G)) : list (Node G) :=
  match parent with
  | Some p => alter (push_child child) p nodes
  | None => nodes
  end.

Section SpeciesDocument.
Context {G : Type} `{GenomeCodec G}.

Fixpoint Species_to_json (s : Species G) : json :=
  match s with
  | species sid d env dist subs =>
      JArray [JUnsigned sid;
              Data_to_json d;
              JArray (map genome_to_json env);
              json_pushed (map triple_to_json (entries dist));
              json_pushed (map Species_to_json subs)]
  end.
End SpeciesDocument.

Definition with_distances {G : Type} (dist : gmap (nat * nat) Q) (n : Node G)
  : Node G :=
  mkNode (node_id n) (data n) (node_parent n) (children n) (enveloppe n) dist.

Definition adopt {G : Type} (ptrs : list nat) (n : Node G) : Node G :=
  mkNode (node_id n) (data n) (node_parent n) (children n ++ ptrs)
         (enveloppe n) (distances n).

(** The tree after [rebuildHierarchy] has laid [s] out under [parent]. *)
Definition rebuilt {G : Type} (parent : option nat) (s : Species G)
    (st : PhylogenicTree G) : PhylogenicTree G :=
  mkTree (advance_id (species_size s) (_nextNodeID st)) (_idToSpecies st)
         (_root st)
         (link parent (length (_nodes st)) (_nodes st)
            ++ layout (length (_nodes st)) parent s)
         (_callbacks st) (_hybrids st) (_step st) (notified st).

Definition parent_valid {G : Type} (parent : option nat) (st : PhylogenicTree G)
  : Prop :=
  match parent with
  | Some p => (p < length (_nodes st))%nat
  | None => True
  end.

Definition rebuilds {G : Type} `{Genome G} `{GenomeCodec G} (indeterminate : Data)
    (s : Species G) : Prop :=
  forall parent st, parent_valid parent st ->
    rebuildHierarchy indeterminate parent (Species_to_json s) st =
      (Ok (length (_nodes st)), rebuilt parent s st).

(** ** The rest of the interface *)

(** [operator<] of [ordered_pair]. *)
Definition ordered_pair_less (lhs rhs : nat * nat) : bool :=
  if negb (lhs.1 =? rhs.1)%nat then (lhs.1 <? rhs.1)%nat
  else (lhs.2 <? rhs.2)%nat.

(** [callbacks ()]: the observer installed, if any. *)
Definition callbacks {G} (pt : PhylogenicTree G) : bool := _callbacks pt.

(** ** Text output

    What [operator<<] and [logTo] write to their stream, as the list of the
    lines written, in order; the stream holds their concatenation.  A walk
    that follows the pointers is bounded by [fuel], and gives nothing when
    it does not end. *)

Definition endl : string := String (Ascii.ascii_of_nat 10) "".
Definition tab : string := String (Ascii.ascii_of_nat 9) "".

(** [os << n] for a [uint]: its decimal digits. *)
Definition show_uint (n : N) : string := NilZero.string_of_uint (N.to_uint n).

Definition join (l : list string) : string := foldr String.append "" l.

(** [os << "\t" << id << ";\n"]. *)
Definition declaration (id : N) : string :=
  tab +:+ show_uint id +:+ ";" +:+ endl.

(** [os << "\t" << id << " -> " << n->id << ";\n"]. *)
Definition edge (id child : N) : string :=
  tab +:+ show_uint id +:+ " -> " +:+ show_uint child +:+ ";" +:+ endl.

(** [Node::logTo (std::ostream&)]. *)
Fixpoint Node_logTo {G} (fuel : nat) (nodes : list (Node G)) (p : Node_ptr)
  : option (list string) :=
  match fuel with
  | O => None
  | S fuel' =>
      n ← nodes !! p;
      subs ← mapM (fun c =>
                     nc ← nodes !! c;
                     sub ← Node_logTo fuel' nodes c;
                     Some (edge (node_id n) (node_id nc) :: sub))
                  (children n);
      Some (declaration (node_id n) :: concat subs)
  end.

(** [logTo (filename)]: the text of the file. *)
Definition logTo {G} (pt : PhylogenicTree G) : option string :=
  body ← Node_logTo (length (_nodes pt)) (_nodes pt) (_root pt);
  Some (("digraph {" +:+ endl) +:+ join body +:+ "}" +:+ endl).

(** [spacing += "  "]. *)
Definition deeper (spacing : string) : string := spacing +:+ "  ".

(** [while ((p = p->parent)) spacing += "  "]. *)
Fixpoint climb {G} (fuel : nat) (nodes : list (Node G)) (p : Node_ptr)
    (spacing : string) : option string :=
  match fuel with
  | O => None
  | S fuel' =>
      n ← nodes !! p;
      match node_parent n with
      | None => Some spacing
      | Some q => climb fuel' nodes q (deeper spacing)
      end
  end.

(** The first three statements of [operator<<] on a node: one line. *)
Definition heading {G} `{Genome G} (spacing : string) (id : N) (env : list G)
  : string :=
  spacing +:+ "[" +:+ show_uint id +:+ "] ( " +:+
  foldr (fun g rest => show_uint (genome_id g) +:+ " " +:+ rest) "" env +:+
  ")" +:+ endl.

(** [operator<< (std::ostream&, const Node&)]. *)
Fixpoint Node_print {G} `{Genome G} (fuel : nat) (nodes : list (Node G))
    (p : Node_ptr) : option (list string) :=
  match fuel with
  | O => None
  | S fuel' =>
      n ← nodes !! p;
      spacing ← climb (length nodes) nodes p "> ";
      subs ← mapM (Node_print fuel' nodes) (children n);
      Some (heading spacing (node_id n) (enveloppe n) :: concat subs)
  end.

(** [operator<< (std::ostream&, const PhylogenicTree&)]. *)
Definition print {G} `{Genome G} (pt : PhylogenicTree G) : option string :=
  body ← Node_print (length (_nodes pt)) (_nodes pt) (_root pt);
  Some (show_uint (_hybrids pt) +:+ " Hybrids;" +:+ endl +:+ join body).

(** The same texts, read off a hierarchy. *)

Definition species_id {G} (s : Species G) : N :=
  match s with species sid _ _ _ _ => sid end.

Fixpoint Species_logTo {G} (s : Species G) : list string :=
  match s with
  | species sid _ _ _ subs =>
      declaration sid ::
      concat (map (fun c => edge sid (species_id c) :: Species_logTo c) subs)
  end.

Fixpoint Species_print {G} `{Genome G} (depth : nat) (s : Species G)
  : list string :=
  match s with
  | species sid _ env _ subs =>
      heading (Nat.iter depth deeper "> ") sid env ::
      concat (map (Species_print (S depth)) subs)
  end.

(** ** More views used to state the properties *)

(** The observer and the root are [cb] and [root], and the observer has
    heard [heard] and then, if there is one, some more. *)
Definition observed {G} (cb : bool) (root : nat) (heard : list Notification)
    (pt : PhylogenicTree G) : Prop :=
  _callbacks pt = cb /\ _root pt = root /\
  exists sent, notified pt = heard ++ sent /\ (cb = false -> sent = []).

(** The state in which "Need to create new species" calls [insertInto]: the
    node is allocated, first appearance and bounds are written, and the
    node is a child of [species]. *)
Definition adopted {G} (indeterminate : Data) (x : Z) (species : Node_ptr)
    (pt : PhylogenicTree G) : PhylogenicTree G :=
  with_nodes (alter (push_child (length (_nodes pt))) species)
    (with_nodes
       (alter (fun n => set_data n (mkData (_step pt) (lastAppearance (data n))
                                           (count (data n)) x x))
              (length (_nodes pt)))
       (snd (makeNode indeterminate (Some species) pt))).

(** What an admission of [g] at [x] that returned [sid] has written: the
    index maps the genome to [sid], and a node with that id was last seen
    at the current step and has [x] within its bounds. *)
Definition recorded {G} `{Genome G} (x : Z) (g : G) (sid : N)
    (pt : PhylogenicTree G) : Prop :=
  _idToSpecies pt !! genome_id g = Some sid /\
  exists p n, _nodes pt !! p = Some n /\ node_id n = sid /\
    lastAppearance (data n) = _step pt /\
    (xmin (data n) <= x <= xmax (data n))%Z.

(** The registry is indexed by node id: the next id is the length of the
    registry and the node at a position carries the position as its id,
    both modulo [2^32]. *)
Definition ids_aligned {G} (pt : PhylogenicTree G) : Prop :=
  _nextNodeID pt = wrap32 (N.of_nat (length (_nodes pt))) /\
  forall p n, _nodes pt !! p = Some n -> node_id n = wrap32 (N.of_nat p).

(** Two nodes with the same links. *)
Definition same_links {G} (n n' : Node G) : Prop :=
  children n' = children n /\ node_parent n' = node_parent n.

(** The back-references agree with the lists of children: the root has no
    parent, and every child of a node points back at it. *)
Definition parents_ok {G} (pt : PhylogenicTree G) : Prop :=
  (exists r, _nodes pt !! _root pt = Some r /\ node_parent r = None) /\
  forall p n, _nodes pt !! p = Some n ->
    Forall (fun c => exists nc, _nodes pt !! c = Some nc /\
                       node_parent nc = Some p) (children n).

(** The bounds of a species that holds a representative are in order. *)
Definition bounds_ordered {G} (n : Node G) : Prop :=
  enveloppe n <> [] -> (xmin (data n) <= xmax (data n))%Z.

(** The fields the codec has no business with are those of [pt0]. *)
Definition session_of {G} (pt0 pt : PhylogenicTree G) : Prop :=
  _idToSpecies pt = _idToSpecies pt0 /\ _callbacks pt = _callbacks pt0 /\
  _hybrids pt = _hybrids pt0 /\ notified pt = notified pt0.

(** The tree [from_json] makes of [pt0] and a document that holds the step
    [stp] and the hierarchy [s]. *)
Definition restored {G} (stp : N) (s : Species G) (pt0 : PhylogenicTree G)
  : PhylogenicTree G :=
  mkTree (advance_id (species_size s) (_nextNodeID pt0)) (_idToSpecies pt0)
         (length (_nodes pt0))
         (_nodes pt0 ++ layout (length (_nodes pt0)) None s)
         (_callbacks pt0) (_hybrids pt0) stp (notified pt0).

(** The scores of [g] against the representatives of the nodes of a list,
    one node after the other. *)
Definition scores_against {G} `{Genome G} (g : G) (ns : list (Node G))
  : list Q :=
  concat (map (fun n => map (pushed_score g) (enveloppe n)) ns).

(** Every key of the cache is a pair of distinct slots below [k], the
    smaller first. *)
Definition keys_below (k : nat) (dist : gmap (nat * nat) Q) : Prop :=
  map_Forall (fun (key : nat * nat) (_ : Q) => (key.1 < key.2 < k)%nat) dist.

(** [n'] is a later state of the node [n]: same id, same parent, same
    first appearance, and the children of [n] followed by new ones. *)
Definition later_node {G} (n n' : Node G) : Prop :=
  node_id n' = node_id n /\ node_parent n' = node_parent n /\
  firstAppearance (data n') = firstAppearance (data n) /\
  children n `prefix_of` children n'.

(** [pt'] has every node of [pt], at its position and in a later state. *)
Definition later_tree {G} (pt pt' : PhylogenicTree G) : Prop :=
  forall p n, _nodes pt !! p = Some n ->
    exists n', _nodes pt' !! p = Some n' /\ later_node n n'.

(** [n'] is [n] in every field but [lastAppearance]. *)
Definition same_but_lastAppearance {G} (n n' : Node G) : Prop :=
  node_id n' = node_id n /\ node_parent n' = node_parent n /\
  children n' = children n /\ enveloppe n' = enveloppe n /\
  distances n' = distances n /\
  firstAppearance (data n') = firstAppearance (data n) /\
  count (data n') = count (data n) /\
  xmin (data n') = xmin (data n) /\ xmax (data n') = xmax (data n).

(** [pt'] is [pt] in every field but the step and the contents of the nodes
    of the registry. *)
Definition same_frame {G} (pt pt' : PhylogenicTree G) : Prop :=
  _nextNodeID pt' = _nextNodeID pt /\ _idToSpecies pt' = _idToSpecies pt /\
  _root pt' = _root pt /\ _callbacks pt' = _callbacks pt /\
  _hybrids pt' = _hybrids pt /\ notified pt' = notified pt /\
  length (_nodes pt') = length (_nodes pt).

(** ** A concrete genome type for the worked examples *)

Record Plant := mkPlant {
  plant_id : N;
  mother : option N;
  father : option N;
  trait : Z
}.

#[global] Instance Plant_genome : Genome Plant := {|
  genome_id := plant_id;
  hasParent g p :=
    match p with
    | MOTHER => bool_decide (is_Some (mother g))
    | FATHER => bool_decide (is_Some (father g))
    end;
  parent g p :=
    match p with
    | MOTHER => default 0%N (mother g)
    | FATHER => default 0%N (father g)
    end;
  distance a b := inject_Z (Z.abs (trait a - trait b));
  const_cdata _ d := round binary64 (/ (1 + d))
|}.

Definition option_to_json (o : option N) : json :=
  match o with Some n => JUnsigned n | None => JNull end.

Definition option_from_json (j : json) : outcome (option N) :=
  match j with
  | JNull => Ok None
  | JUnsigned n => Ok (Some n)
  | _ => Throw TypeError
  end.

#[global] Instance Plant_codec : GenomeCodec Plant := {|
  genome_to_json g :=
    JArray [JUnsigned (plant_id g); option_to_json (mother g);
            option_to_json (father g); JInteger (trait g)];
  genome_from_json j :=
    match j with
    | JArray [JUnsigned i; jm; jf; JInteger t] =>
        obind (option_from_json jm) (fun m =>
        obind (option_from_json jf) (fun f =>
        Ok (mkPlant i m f t)))
    | _ => Throw TypeError
    end
|}.

Definition cfg0 : PTreeConfig :=
  Build_PTreeConfig (1 # 2) (1 # 2) 3 (1 # 2) true true binary64.

Definition junk : Data := mkData 7 8 9 (-5) 5.

Definition founder : Plant := mkPlant 1 None None 0.
Definition mutant : Plant := mkPlant 2 (Some 1%N) (Some 1%N) 15.
Definition sibling : Plant := mkPlant 3 (Some 1%N) (Some 1%N) 15.
Definition orphan : Plant := mkPlant 4 (Some 1%N) (Some 99%N) 0.

(** The state after a computation, whatever its outcome. *)
Definition after {G A} (c : M G A) (pt : PhylogenicTree G)
  : PhylogenicTree G := snd (c pt).

(** Root species holding [founder], one child species holding [mutant]. *)
Definition two_species : PhylogenicTree Plant :=
  after (addGenome cfg0 junk 4 mutant)
    (after (addGenome cfg0 junk 3 founder)
       (setCallbacks true (PhylogenicTree_new junk))).

(** [two_species] after [sibling] has joined the child species. *)
Definition family : PhylogenicTree Plant :=
  after (addGenome cfg0 junk 4 sibling) two_species.

(** A species at capacity three with its three cached scores, and the scores
    of a newcomer against its representatives. *)
Definition full_node : Node Plant :=
  mkNode 1 (mkData 0 0 3 4 4) (Some 0%nat) [] [founder; mutant; sibling]
    (<[(0, 1)%nat := 1 # 16]>
       (<[(0, 2)%nat := 1 # 16]> (<[(1, 2)%nat := 1]> ∅))).

Definition newcomer : Plant := mkPlant 5 (Some 2%N) (Some 2%N) 9.

Definition newcomer_scores : list Q := [1 # 8; 1 # 2; 1 # 16].

(** More worked examples: a capacity of one, a capacity of zero, and no
    creation of species. *)
Definition cfg_one : PTreeConfig :=
  Build_PTreeConfig (1 # 2) (1 # 2) 1 (1 # 2) true true binary64.

Definition cfg_zero : PTreeConfig :=
  Build_PTreeConfig (1 # 2) (1 # 2) 0 (1 # 2) true true binary64.

Definition cfg_strict : PTreeConfig :=
  Build_PTreeConfig (1 # 2) (1 # 2) 3 (1 # 2) true false binary64.

(** The root species holding [founder], before [mutant] arrives. *)
Definition one_species : PhylogenicTree Plant :=
  after (addGenome cfg0 junk 3 founder)
    (setCallbacks true (PhylogenicTree_new junk)).

(** A species with one representative. *)
Definition lone_node : Node Plant :=
  mkNode 1 (mkData 0 0 1 4 4) (Some 0%nat) [] [mutant] ∅.

(** A genome whose mother is in the child species and whose father is in
    the root species of [two_species]. *)
Definition hybrid : Plant := mkPlant 6 (Some 2%N) (Some 1%N) 15.

(** The hierarchy of a tree that holds [founder] in its root. *)
Definition lone_species : Species Plant :=
  species 0 (mkData 0 0 1 (-5) 5) [founder] ∅ [].

(** The [double] nearest to one tenth, [0x1.999999999999ap-4]. *)
Definition tenth : Q := 3602879701896397 # 36028797018963968.

(** One tenth of the votes is asked for. *)
Definition cfg_tenth : PTreeConfig :=
  Build_PTreeConfig (1 # 2) tenth 10 tenth true true binary64.

(** A species of ten representatives: [founder] scores 1 against the first
    and 1/16 against the nine others. *)
Definition crowd : Node Plant :=
  mkNode 1 (mkData 0 0 10 0 15) (Some 0%nat) []
    (mkPlant 11 None None 0 ::
     map (fun i => mkPlant i None None 15)
         [12; 13; 14; 15; 16; 17; 18; 19; 20]%N)
    ∅.

(** A capacity of two. *)
Definition cfg_two : PTreeConfig :=
  Build_PTreeConfig (1 # 2) (1 # 2) 2 (1 # 2) true true binary64.

(** A genome whose parents are both in the child species of
    [two_species]. *)
Definition cousin : Plant := mkPlant 7 (Some 2%N) (Some 2%N) 15.

(** [two_species] after [cousin] has joined the child species, which then
    holds [mutant] and [cousin] and is at the capacity of [cfg_two]. *)
Definition pair_tree : PhylogenicTree Plant :=
  after (addGenome cfg_two junk 4 cousin) two_species.

(** A genome without parents. *)
Definition late : Plant := mkPlant 10 None None 0.

(** [family] written to a document, the document read into a freshly
    constructed tree, and [late] admitted into that tree. *)
Definition revived : PhylogenicTree Plant :=
  after (addGenome cfg0 junk 6 late)
    (after (from_json junk (default JNull (to_json family)))
       (PhylogenicTree_new junk)).

(** A capacity of eleven and an outperformance threshold of one tenth. *)
Definition cfg_eleven : PTreeConfig :=
  Build_PTreeConfig (1 # 2) (1 # 2) 11 tenth true true binary64.

(** A species at capacity eleven.  Its cache holds 1 between slots 0 and 1
    and 1/4 between slot 0 and each of the other nine. *)
Definition eleven : Node Plant :=
  mkNode 1 (mkData 0 0 11 0 15) (Some 0%nat) []
    (map (fun i => mkPlant i None None 15)
         [30; 31; 32; 33; 34; 35; 36; 37; 38; 39; 40]%N)
    (<[(0, 1)%nat := 1]>
       (foldr (fun i dist => <[(0, i)%nat := 1 # 4]> dist) ∅
              [2; 3; 4; 5; 6; 7; 8; 9; 10]%nat)).

(** The scores of a newcomer against the eleven: slot 0 is the most
    similar, and of the ten others only slot 1 scores below its cached
    score against slot 0. *)
Definition eleven_scores : list Q :=
  1 :: replicate 10 (1 # 2).

(** * Properties *)

(** ** Floating-point conversions *)

Lemma std_min_Qmin (a b : Q) : std_min a b = Qmin a b.
Proof.
  unfold std_min, Qltb, Qmin, GenericMinMax.gmin.
  destruct (a ?= b) eqn:C.
  - assert (Qle_bool a b = true) as ->; [|done].
    apply Qle_bool_iff, Qle_alt. by rewrite C.
  - assert (Qle_bool a b = true) as ->; [|done].
    apply Qle_bool_iff, Qle_alt. by rewrite C.
  - assert (Qle_bool a b = false) as ->; [|done].
    apply not_true_iff_false. rewrite Qle_bool_iff, Qle_alt, C.
    intros E. by apply E.
Qed.

Lemma round_zero (f : format) (q : Q) : Qnum q = 0%Z -> round f q = 0.
Proof. unfold round. by intros ->. Qed.

Lemma pow2_opp (e : Z) : (0 <= e)%Z -> inject_Z (2 ^ e) * pow2 (- e) == 1.
Proof.
  intros He. unfold pow2.
  destruct (Z.leb_spec 0 (- e)) as [Hle|Hlt].
  - assert (e = 0%Z) as -> by lia. done.
  - rewrite Z.opp_involutive.
    assert (0 < 2 ^ e)%Z as Hpos by (apply Z.pow_pos_nonneg; lia).
    unfold Qeq, Qmult, inject_Z. cbn [Qnum Qden].
    rewrite Pos.mul_1_l, Z2Pos.id by done. lia.
Qed.

Lemma Qred_inject_Z (z : Z) : Qred (inject_Z z) = inject_Z z.
Proof.
  unfold Qred, inject_Z. cbn [Qnum Qden].
  pose proof (Z.ggcd_gcd z 1) as Hg.
  pose proof (Z.ggcd_correct_divisors z 1) as Hd.
  destruct (Z.ggcd z 1) as [g [aa bb]]. cbn [fst snd] in *.
  rewrite Z.gcd_1_r in Hg. subst g.
  destruct Hd as [Ha Hb]. f_equal; [lia|].
  assert (bb = 1%Z) as -> by lia. done.
Qed.

Lemma Qred_integer (q : Q) (z : Z) : q == inject_Z z -> Qred q = inject_Z z.
Proof.
  intros E. rewrite (Qred_complete _ _ E). apply Qred_inject_Z.
Qed.

Lemma round_integer (f : format) (z : Z) :
  (0 <= z < 2 ^ precision f)%Z -> round f (inject_Z z) = inject_Z z.
Proof.
  intros [H0 Hz]. destruct z as [|n|n]; [done| |lia].
  unfold round. simpl. unfold round_pos.
  assert (magnitude n 1 = Z.log2 (Zpos n) + 1)%Z as ->.
  { unfold magnitude. change (Z.log2 1) with 0%Z. rewrite Z.sub_0_r.
    pose proof (Z.log2_nonneg (Zpos n)) as Hn.
    pose proof (Z.log2_spec (Zpos n) ltac:(lia)) as [Hlo _].
    rewrite Z.max_l by lia. rewrite Z.max_r by lia.
    destruct (Z.leb_spec (1 * 2 ^ Z.log2 (Z.pos n)) (Z.pos n * 2 ^ 0)); lia. }
  set (e := Z.max (_ - precision f) (emin f)).
  assert (e <= 0)%Z as He.
  { subst e.
    assert (Z.log2 (Zpos n) < precision f)%Z
      by (apply Z.log2_lt_pow2; [lia|done]).
    destruct f; cbn [precision emin] in *; lia. }
  clearbody e.
  assert (exists ne, (0 <= ne)%Z /\ e = (- ne)%Z) as (ne & Hne & ->)
    by (exists (- e)%Z; lia).
  rewrite Z.opp_involutive, (Z.max_l ne 0), (Z.max_r (- ne) 0) by lia.
  unfold nearest_even. change (1 * 2 ^ 0)%Z with 1%Z.
  rewrite Z.mod_1_r, Z.div_1_r. change (2 * 0 ?= 1)%Z with Lt. cbv iota.
  apply Qred_integer.
  rewrite inject_Z_mult, <- Qmult_assoc, pow2_opp by lia.
  apply Qmult_1_r.
Qed.

Lemma of_uint_exact (f : format) (n : N) :
  (Z.of_N n < 2 ^ precision f)%Z -> of_uint f n = inject_Z (Z.of_N n).
Proof. intros Hn. apply round_integer. lia. Qed.

(** A threshold of one tenth and ten voters: ten times the [double]
    nearest to 0.1 is, rounded, the [double] 1; and so for [float]. *)
Lemma round_tenth :
  round binary64 (1 # 10) = (3602879701896397 # 36028797018963968) /\
  round binary64 (round binary64 (1 # 10) * 10) = 1 /\
  round binary32 (1 # 10) = (13421773 # 134217728) /\
  round binary32 (round binary32 (1 # 10) * 10) = 1.
Proof. by vm_compute. Qed.

(** ** The membership test *)

Section MatchProperties.
Context {G : Type} `{Genome G}.
Variable cfg : PTreeConfig.

Lemma matches_loop_scores (g : G) env : forall matable compatibilities,
  snd (matches_loop cfg g env matable compatibilities) =
    compatibilities ++ map (pushed_score g) env.
Proof.
  induction env as [|e env IH]; intros matable compatibilities; simpl.
  - by rewrite app_nil_r.
  - by rewrite IH, <- app_assoc.
Qed.

Lemma matches_loop_count (g : G) env : forall matable compatibilities,
  (matable + N.of_nat (length env) < 2 ^ 32)%N ->
  fst (matches_loop cfg g env matable compatibilities) =
    (matable + N.of_nat (length (List.filter
       (fun r => Qle_bool (compatibilityThreshold cfg) (compatibility g r))
       env)))%N.
Proof.
  induction env as [|e env IH]; intros matable compatibilities Hlt; simpl.
  - by rewrite N.add_0_r.
  - simpl in Hlt.
    pose proof (filter_length_le
      (fun r => Qle_bool (compatibilityThreshold cfg) (compatibility g r))
      env) as Hle.
    destruct (Qle_bool _ _); simpl.
    + unfold wrap32. rewrite N.mod_small by lia. rewrite IH by lia. lia.
    + rewrite IH by lia. lia.
Qed.

Lemma matches_loop_any_vector (g : G) env : forall matable c c',
  fst (matches_loop cfg g env matable c) =
    fst (matches_loop cfg g env matable c').
Proof.
  induction env as [|e env IH]; intros matable c c'; simpl; [done|].
  apply IH.
Qed.

Lemma votes_yes_filter (g : G) (n : Node G) :
  votes_yes cfg g n =
    length (List.filter
      (fun r => Qle_bool (compatibilityThreshold cfg) (compatibility g r))
      (enveloppe n)).
Proof.
  unfold votes_yes. f_equal. apply List.filter_ext. intros r.
  unfold compatibility. by rewrite std_min_Qmin.
Qed.

Lemma votes_yes_le (g : G) (n : Node G) :
  (votes_yes cfg g n <= length (enveloppe n))%nat.
Proof. rewrite votes_yes_filter. apply filter_length_le. Qed.

Lemma matchesSpecies_scores (g : G) n compatibilities :
  snd (matchesSpecies cfg g n compatibilities) =
    compatibilities ++ map (pushed_score g) (enveloppe n).
Proof.
  unfold matchesSpecies.
  pose proof (matches_loop_scores g (enveloppe n) 0%N compatibilities) as E.
  by destruct (matches_loop _ _ _ _ _).
Qed.

Lemma matchesSpecies_verdict (g : G) n compatibilities :
  (Z.of_nat (length (enveloppe n)) < 2 ^ 32)%Z ->
  fst (matchesSpecies cfg g n compatibilities) =
    Qle_bool (round binary64
                (similarityThreshold cfg * Q_of_nat (length (enveloppe n))))
             (Q_of_nat (votes_yes cfg g n)).
Proof.
  intros Hk. unfold matchesSpecies.
  pose proof (matches_loop_count g (enveloppe n) 0%N compatibilities
                ltac:(lia)) as E.
  destruct (matches_loop _ _ _ _ _) as [matable scores]. simpl in *.
  subst matable. rewrite <- votes_yes_filter.
  pose proof (votes_yes_le g n) as Hle.
  unfold wrap32. rewrite N.mod_small by lia.
  rewrite !of_uint_exact by (cbn [precision]; lia).
  unfold Q_of_nat. by rewrite N.add_0_l, !nat_N_Z.
Qed.

(** The test on an empty envelope, whatever the threshold. *)
Lemma vacuous_vote (sim : Q) :
  Qle_bool (round binary64 (sim * of_uint binary64 (wrap32 0)))
           (of_uint binary64 0) = true.
Proof.
  rewrite round_zero; [done|]. simpl. apply Z.mul_0_r.
Qed.

Lemma matchesSpecies_empty (g : G) (n : Node G) compatibilities :
  enveloppe n = [] ->
  matchesSpecies cfg g n compatibilities = (true, compatibilities).
Proof.
  intros E. unfold matchesSpecies. rewrite E. simpl. by rewrite vacuous_vote.
Qed.

(** C3. On an envelope of fewer than [2^32] representatives the membership
    test answers true exactly when the number of representatives [r] whose
    combined score [min (g(d), r(d))], [d] the distance between [g] and
    [r], reaches [compatibilityThreshold] is at least the [double] that is
    nearest to [similarityThreshold] times the envelope size, which is the
    product as the code computes it; on a node with an empty envelope it
    answers true, whatever the genome. *)
Theorem matchesSpecies_iff_vote (g : G) (n : Node G) compatibilities :
  (Z.of_nat (length (enveloppe n)) < 2 ^ 32)%Z ->
  (fst (matchesSpecies cfg g n compatibilities) = true <->
   round binary64
     (similarityThreshold cfg * Q_of_nat (length (enveloppe n)))
     <= Q_of_nat
          (length (List.filter
             (fun r => Qle_bool (compatibilityThreshold cfg)
                         (Qmin (const_cdata g (distance g r))
                               (const_cdata r (distance g r))))
             (enveloppe n)))) /\
  fst (matchesSpecies cfg g (set_enveloppe [] n) compatibilities) = true.
Proof.
  intros Hk. split.
  - rewrite matchesSpecies_verdict by done. apply Qle_bool_iff.
  - unfold matchesSpecies. simpl. apply vacuous_vote.
Qed.

End MatchProperties.

(** C3, with the product taken exactly, fails: with a similarity threshold
    of one tenth, the [double] nearest to it, one representative of ten is
    compatible with [founder]; ten times the threshold is more than one,
    and the test answers true, because the product it compares with is
    rounded to the [double] 1. *)
Lemma exact_product_counterexample :
  ~ (fst (matchesSpecies cfg_tenth founder crowd []) = true <->
     similarityThreshold cfg_tenth * Q_of_nat (length (enveloppe crowd))
       <= Q_of_nat (votes_yes cfg_tenth founder crowd)).
Proof.
  intros [Hle _].
  assert (fst (matchesSpecies cfg_tenth founder crowd []) = true) as Hyes
    by (by vm_compute).
  apply Hle, Qle_bool_iff in Hyes. by vm_compute in Hyes.
Qed.


(** ** Reasoning about the monad *)

Section Preserves.
Context {G : Type} (P : PhylogenicTree G -> Prop).

Lemma preserves_mret {A} (a : A) : preserves P (mret a).
Proof. by intros pt HP. Qed.

Lemma preserves_lift {A} (o : outcome A) : preserves P (lift o).
Proof. by intros pt HP. Qed.

Lemma preserves_mfail {A} (o : outcome A) : preserves P (mfail o).
Proof. by intros pt HP. Qed.

Lemma preserves_get : preserves P get.
Proof. by intros pt HP. Qed.

Lemma preserves_modify f :
  (forall pt, P pt -> P (f pt)) -> preserves P (modify f).
Proof. intros Hf pt HP. by apply Hf. Qed.

Lemma preserves_mbind {A B} (c : M G A) (f : A -> M G B) :
  preserves P c -> (forall a, preserves P (f a)) -> preserves P (mbind c f).
Proof.
  intros Hc Hf pt HP. unfold mbind. specialize (Hc pt HP).
  destruct (c pt) as [[a| | |] pt']; simpl in *; try done.
  by apply Hf.
Qed.

Lemma preserves_mfor {A} (body : A -> M G unit) l :
  (forall a, preserves P (body a)) -> preserves P (mfor body l).
Proof.
  intros Hb. induction l as [|a l IH]; simpl.
  - apply preserves_mret.
  - apply preserves_mbind; [apply Hb | by intros _].
Qed.

Lemma preserves_deref p : preserves P (deref p).
Proof.
  apply preserves_mbind; [apply preserves_get | intros; apply preserves_lift].
Qed.

Lemma preserves_idToSpecies_at id : preserves P (idToSpecies_at id).
Proof.
  apply preserves_mbind; [apply preserves_get | intros pt].
  destruct (_ !! _); [apply preserves_mret | apply preserves_mfail].
Qed.

Lemma preserves_nodes_index id : preserves P (nodes_index id).
Proof.
  apply preserves_mbind; [apply preserves_get | intros pt].
  destruct (_ <? _)%nat; [apply preserves_mret | apply preserves_mfail].
Qed.

Lemma preserves_nodes_at id : preserves P (nodes_at id).
Proof.
  apply preserves_mbind; [apply preserves_get | intros pt].
  destruct (_ <? _)%nat; [apply preserves_mret | apply preserves_mfail].
Qed.

End Preserves.

Create HintDb preserves.

#[local] Hint Resolve preserves_mret preserves_lift preserves_mfail
  preserves_get preserves_deref preserves_idToSpecies_at
  preserves_nodes_index preserves_nodes_at : preserves.

Ltac preserves_step :=
  first [ apply preserves_mbind; [|intros ?]
        | apply preserves_mfor; intros ?
        | apply preserves_modify; intros ? ?
        | solve [auto with preserves] ].

Section LookupProperties.
Context {G : Type} `{Genome G}.
Variable cfg : PTreeConfig.
Variable indeterminate : Data.

(** C10. A genome that records both parents is admitted only when both
    parent ids are in the index: if either is missing the admission throws
    the lookup exception and the tree is as it was; the root is not used as
    a fallback. *)
Theorem addGenome_unknown_parent (x : Z) (g : G) (pt : PhylogenicTree G) :
  hasParent g FATHER = true ->
  hasParent g MOTHER = true ->
  _idToSpecies pt !! parent g MOTHER = None \/
  _idToSpecies pt !! parent g FATHER = None ->
  addGenome cfg indeterminate x g pt = (Throw OutOfRange, pt).
Proof.
  intros Hf Hm Hmiss. unfold addGenome. rewrite Hf, Hm. simpl.
  unfold mbind, idToSpecies_at, mbind, get.
  destruct (_idToSpecies pt !! parent g MOTHER) as [mID|] eqn:Em;
    [|reflexivity].
  destruct Hmiss as [|Ef]; [done|]. cbn. by rewrite Ef.
Qed.

(** A death event for a genome id the index knows writes the step into
    [lastAppearance] of the node the registry holds at the position the
    index gives, and changes nothing else, the index entry included; for an
    id the index does not know, the tree is unchanged. *)
Lemma delGenome_effect (s id : N) (pt : PhylogenicTree G) :
  registry_ok pt ->
  (forall sid,
     _idToSpecies pt !! id = Some sid ->
     delGenome s id pt =
       (Ok tt, with_nodes (alter (set_lastAppearance s) (N.to_nat sid)) pt)
     /\ _idToSpecies (after (delGenome s id) pt) !! id = Some sid) /\
  (_idToSpecies pt !! id = None -> delGenome s id pt = (Ok tt, pt)).
Proof.
  intros (_ & _ & Hidx). split.
  - intros sid Hid. pose proof (Hidx id sid Hid) as Hlt. simpl in Hlt.
    assert (delGenome s id pt =
      (Ok tt, with_nodes (alter (set_lastAppearance s) (N.to_nat sid)) pt))
      as E.
    { unfold delGenome, mbind, get. rewrite Hid.
      unfold nodes_index, mbind, get.
      apply Nat.ltb_lt in Hlt. by rewrite Hlt. }
    split; [exact E|]. unfold after. by rewrite E.
  - intros Hid. unfold delGenome, mbind, get. by rewrite Hid.
Qed.

End LookupProperties.

Lemma json_size_elem (c : json) (l : list json) :
  c ∈ l -> (json_size c < json_size (JArray l))%nat.
Proof.
  induction 1 as [c l|c c' l _ IH]; simpl in *; lia.
Qed.

Section CodecProperties.
Context {G : Type} `{Genome G} `{GenomeCodec G}.
Variable indeterminate : Data.

Lemma makeNode_index parent (m : gmap N N) :
  preserves (fun pt : PhylogenicTree G => _idToSpecies pt = m)
            (makeNode indeterminate parent).
Proof. unfold makeNode. repeat preserves_step; done. Qed.

Lemma rebuild_fields_index n j (m : gmap N N) :
  preserves (fun pt : PhylogenicTree G => _idToSpecies pt = m)
            (rebuild_fields n j).
Proof.
  unfold rebuild_fields, read_distance, update_node.
  repeat preserves_step; done.
Qed.

Lemma rebuildHierarchy_index (m : gmap N N) :
  forall j parent,
    preserves (fun pt : PhylogenicTree G => _idToSpecies pt = m)
              (rebuildHierarchy indeterminate parent j).
Proof.
  intros j. remember (S (json_size j)) as bound eqn:Hb.
  assert (json_size j < bound)%nat as Hlt by lia. clear Hb.
  revert j Hlt.
  induction bound as [|bound IH]; intros j Hlt parent; [lia|].
  assert (forall cs n,
    (forall c, c ∈ cs -> (json_size c < bound)%nat) ->
    preserves (fun pt : PhylogenicTree G => _idToSpecies pt = m)
      (each_child (fun c => rebuildHierarchy indeterminate (Some n) c) cs))
    as Heach.
  { induction cs as [|c cs IHcs]; intros n Hcs.
    - apply preserves_mret.
    - apply preserves_mbind.
      + apply IH, Hcs. by left.
      + intros _. apply IHcs. intros c' Hc'. apply Hcs. by right. }
  assert (forall parent (tail : Node_ptr -> M G unit),
    (forall n, preserves (fun pt : PhylogenicTree G => _idToSpecies pt = m)
                         (tail n)) ->
    preserves (fun pt : PhylogenicTree G => _idToSpecies pt = m)
      (let! n := makeNode indeterminate parent in
       do! match parent with
           | Some p => update_node p (push_child n)
           | None => mret tt
           end then
       do! rebuild_fields n j then
       do! tail n then mret n)) as Hshape.
  { intros par tail Htail.
    apply preserves_mbind; [apply makeNode_index | intros p].
    apply preserves_mbind;
      [destruct par; [unfold update_node|]; repeat preserves_step; done
      | intros _].
    apply preserves_mbind; [apply rebuild_fields_index | intros _].
    apply preserves_mbind; [apply Htail | intros _; apply preserves_mret]. }
  destruct j as [| b | n | z | q | s | l]; simpl;
    try (apply (Hshape parent (fun _ => mfail Undefined)); intros;
         apply preserves_mfail).
  apply (Hshape parent (fun n =>
    match l with
    | _ :: _ :: _ :: _ :: jc :: _ =>
        match jc with
        | JNull => mret tt
        | JArray cs =>
            each_child (fun c => rebuildHierarchy indeterminate (Some n) c)
                       cs
        | _ => do! rebuildHierarchy indeterminate (Some n) jc then mret tt
        end
    | _ => mfail Undefined
    end)).
  intros n.
  destruct l as [|j0 [|j1 [|j2 [|j3 [|jc rest]]]]];
    try apply preserves_mfail.
  assert (json_size jc < bound)%nat as Hjc.
  { assert (jc ∈ j0 :: j1 :: j2 :: j3 :: jc :: rest) as E by set_solver.
    apply json_size_elem in E. lia. }
  destruct jc as [| b | k | z | q | s | cs];
    try (apply preserves_mbind; [by apply IH | intros _; apply preserves_mret]).
  - apply preserves_mret.
  - apply Heach. intros c Hc.
    pose proof (json_size_elem c cs Hc). lia.
Qed.

(** C9. Deserialisation never restores the genome-id index: on a tree
    freshly constructed and then filled from a document, whatever the
    document and however far the decoding gets, the species lookup answers
    [NoID] for every genome id. *)
Theorem from_json_forgets_index (j : json) (id : N) :
  speciesID id
    (after (from_json indeterminate j) (PhylogenicTree_new indeterminate))
    = NoID.
Proof.
  assert (preserves (fun pt : PhylogenicTree G => _idToSpecies pt = ∅)
                    (from_json indeterminate j)) as Hp.
  { unfold from_json. apply preserves_mbind; [auto with preserves|intros s].
    apply preserves_mbind; [by apply preserves_modify|intros _].
    apply preserves_mbind; [auto with preserves|intros jroot].
    apply preserves_mbind; [apply rebuildHierarchy_index|intros r].
    by apply preserves_modify. }
  unfold speciesID, after. rewrite (Hp (PhylogenicTree_new indeterminate)).
  - by rewrite lookup_empty.
  - reflexivity.
Qed.

End CodecProperties.

Section FirstAdmission.
Context {G : Type} `{Genome G}.
Variable cfg : PTreeConfig.
Variable indeterminate : Data.

(** C2, as the code has it. On a freshly constructed tree and with a
    capacity of at least one, a genome lacking a recorded parent is
    absorbed by the root: the empty envelope matches, the genome becomes
    the root's only representative, no node is created and the id returned
    is the root's. *)
Theorem first_admission_joins_root (x : Z) (g : G) :
  hasParent g FATHER = false \/ hasParent g MOTHER = false ->
  (1 <= enveloppeSize cfg)%nat ->
  addGenome cfg indeterminate x g (PhylogenicTree_new indeterminate) =
    (Ok 0%N,
     mkTree 1 {[genome_id g := 0%N]} 0%nat
       [mkNode 0
          (mkData 0 0 1 (Z.min (xmin indeterminate) x)
                  (Z.max (xmax indeterminate) x))
          None [] [g] ∅]
       false 0 0 []).
Proof.
  intros Hpar Hcap. unfold addGenome.
  assert (negb (hasParent g FATHER) || negb (hasParent g MOTHER) = true)
    as ->.
  { destruct Hpar as [-> | ->]; [done|]. by rewrite orb_true_r. }
  unfold mbind at 1. unfold get. cbn [PhylogenicTree_new makeNode].
  unfold addGenome_at, mbind at 1. cbn -[matchesSpecies].
  rewrite matchesSpecies_empty by done.
  unfold place. cbn. unfold insertInto, update_enveloppe. cbn.
  destruct (enveloppeSize cfg) as [|cap]; [lia|]. cbn.
  reflexivity.
Qed.

End FirstAdmission.

(** C2, as the spec has it, fails: after the first admission on a fresh tree
    the root has no child, and the id returned is the root's. *)
Lemma scenario_A_counterexample :
  ~ (exists (sid : N) (pt' : PhylogenicTree Plant) (root child : Node Plant)
            (c : Node_ptr),
       addGenome cfg0 junk 3 founder (PhylogenicTree_new junk) = (Ok sid, pt')
       /\ _nodes pt' !! _root pt' = Some root
       /\ children root = [c]
       /\ _nodes pt' !! c = Some child
       /\ firstAppearance (data child) = _step pt'
       /\ xmin (data child) = 3%Z /\ xmax (data child) = 3%Z
       /\ sid = node_id child /\ sid <> node_id root).
Proof.
  intros (sid & pt' & root & child & c & E & Hroot & Hc & _).
  vm_compute in E. injection E as <- <-.
  vm_compute in Hroot. injection Hroot as <-.
  discriminate Hc.
Qed.

(** ** The vector handed to [insertInto] *)

Section ScoreVector.
Context {G : Type} `{Genome G}.
Variable cfg : PTreeConfig.
Variable indeterminate : Data.

(** When the starting node matches, [insertInto] gets the scores against
    its representatives and nothing else. *)
Lemma addGenome_at_start_matches x (g : G) species n (pt : PhylogenicTree G) :
  _nodes pt !! species = Some n ->
  fst (matchesSpecies cfg g n []) = true ->
  addGenome_at cfg indeterminate x g species pt =
    place cfg x g species (map (pushed_score g) (enveloppe n)) pt.
Proof.
  intros Hn Hok. unfold addGenome_at, mbind at 1, deref, mbind, get, lift.
  unfold vec_get. rewrite Hn. simpl.
  pose proof (matchesSpecies_scores cfg g n []) as Hs.
  destruct (matchesSpecies cfg g n []) as [ok c']. simpl in *. by subst.
Qed.

(** When a child matches after the starting node has failed, [insertInto]
    gets the scores against the starting node's representatives first, and
    those against the child's representatives after them. *)
Lemma addGenome_at_child_matches x (g : G) species n sub subs nsub
    (pt : PhylogenicTree G) :
  _nodes pt !! species = Some n ->
  children n = sub :: subs ->
  _nodes pt !! sub = Some nsub ->
  fst (matchesSpecies cfg g n []) = false ->
  fst (matchesSpecies cfg g nsub (map (pushed_score g) (enveloppe n)))
    = true ->
  addGenome_at cfg indeterminate x g species pt =
    place cfg x g sub
      (map (pushed_score g) (enveloppe n) ++
       map (pushed_score g) (enveloppe nsub)) pt.
Proof.
  intros Hn Hch Hsub Hfail Hok.
  unfold addGenome_at, mbind at 1, deref, mbind, get, lift.
  unfold vec_get. rewrite Hn. simpl.
  pose proof (matchesSpecies_scores cfg g n []) as Hs.
  destruct (matchesSpecies cfg g n []) as [ok c']. simpl in *. subst.
  rewrite Hch. simpl.
  unfold mbind at 1, deref, mbind, get, lift, vec_get. rewrite Hsub. simpl.
  pose proof (matchesSpecies_scores cfg g nsub
                (map (pushed_score g) (enveloppe n))) as Hs'.
  destruct (matchesSpecies cfg g nsub _) as [ok' c'']. simpl in *. by subst.
Qed.

End ScoreVector.

(** C1: the failing admission. [sibling] starts at the root, is rejected by
    it with score 1/16 against [founder], and is accepted by the child with
    score 1 against [mutant]; the vector handed to [insertInto] still begins
    with the root's score, so the cache of the child records 1/16 between
    its slot 0 and the new slot 1. *)
Theorem stale_scores_reach_insertInto :
  compatibility sibling founder = (1 # 16) /\
  compatibility sibling mutant = 1 /\
  fst (addGenome cfg0 junk 4 sibling two_species) = Ok 1%N /\
  (n ← _nodes (after (addGenome cfg0 junk 4 sibling) two_species) !! 1%nat;
   Some (enveloppe n, distances n !! (0, 1)%nat))
  = Some ([mutant; sibling], Some (1 # 16)).
Proof. vm_compute. repeat split. Qed.

(** ** The envelope at capacity *)

Lemma Qltb_lt (a b : Q) : Qltb a b = true <-> a < b.
Proof.
  unfold Qltb. rewrite negb_true_iff, <- not_true_iff_false, Qle_bool_iff.
  split; [apply Qnot_le_lt | apply Qlt_not_le].
Qed.

Lemma Qltb_ge (a b : Q) : Qltb a b = false <-> b <= a.
Proof. unfold Qltb. by rewrite negb_false_iff, Qle_bool_iff. Qed.

Lemma uint_pred_spec (k : nat) :
  (1 <= k)%nat -> (Z.of_nat k < 2 ^ 32)%Z -> uint_pred k = N.of_nat (k - 1).
Proof.
  intros H1 H2. unfold uint_pred. rewrite Z.mod_small by lia. lia.
Qed.

Lemma replacement_votes_le (compatibilities : list Q)
    (dist : gmap (nat * nat) Q) (m k : nat) :
  (replacement_votes compatibilities dist m k <= k)%nat.
Proof.
  unfold replacement_votes.
  etrans; [apply filter_length_le|]. by rewrite length_seq.
Qed.

Lemma wrap32_small (n : nat) :
  (Z.of_nat n < 2 ^ 32)%Z -> wrap32 (N.of_nat n) = N.of_nat n.
Proof. intros Hn. unfold wrap32. apply N.mod_small. lia. Qed.

Lemma ordered_pair_inj (i j m : nat) :
  ordered_pair i m = ordered_pair j m -> i = j.
Proof. unfold ordered_pair. intros [= E1 E2]. lia. Qed.

Lemma ordered_pair_lt (i j : nat) :
  (i < j)%nat -> ordered_pair i j = (i, j) /\ ordered_pair j i = (i, j).
Proof. unfold ordered_pair. intros. split; f_equal; lia. Qed.

Section Loops.
Variable compatibilities : list Q.

Lemma most_similar_loop n : forall a cb mb,
  (a + n <= length compatibilities)%nat ->
  is_best compatibilities a cb mb ->
  exists cm m,
    for_each (most_similar_step compatibilities) (seq a n) (cb, mb)
      = Ok (cm, m)
    /\ is_best compatibilities (a + n) cm m.
Proof.
  induction n as [|n IH]; intros a cb mb Hlen Hbest.
  - exists cb, mb. rewrite Nat.add_0_r. by split.
  - destruct (lookup_lt_is_Some_2 compatibilities a) as [c Hc]; [lia|].
    simpl. unfold most_similar_step at 1, vec_get. rewrite Hc. simpl.
    destruct Hbest as (Hmb & Hcb & Hall).
    replace (a + S n)%nat with (S a + n)%nat by lia.
    destruct (Qltb cb c) eqn:Hlt.
    + apply Qltb_lt in Hlt. apply IH; [lia|].
      split; [lia|]. split; [done|]. intros i ci Hi Hci.
      destruct (decide (i = a)) as [->|Hne].
      * rewrite Hc in Hci. injection Hci as <-.
        split; [apply Qle_refl | lia].
      * destruct (Hall i ci) as [Hle _]; [lia|done|].
        split; [|intros _]; eauto using Qle_lt_trans, Qlt_le_weak.
    + apply Qltb_ge in Hlt. apply IH; [lia|].
      split; [lia|]. split; [done|]. intros i ci Hi Hci.
      destruct (decide (i = a)) as [->|Hne].
      * rewrite Hc in Hci. injection Hci as <-. split; [done | lia].
      * apply Hall; [lia|done].
Qed.

Lemma vote_loop dist m l : forall v,
  (forall i, i ∈ l ->
     (i < length compatibilities)%nat /\
     (i <> m -> is_Some (dist !! ordered_pair i m))) ->
  for_each (vote_step compatibilities m) l (v, dist) =
    Ok ((v + length (List.filter (vote compatibilities dist m) l))%nat, dist).
Proof.
  induction l as [|i l IH]; intros v Hl.
  - simpl. by rewrite Nat.add_0_r.
  - destruct (Hl i) as [Hi Hkey]; [by left|].
    destruct (lookup_lt_is_Some_2 compatibilities i Hi) as [c Hc].
    simpl. unfold vote_step at 1, vote at 1, vec_get.
    destruct (decide (i = m)) as [->|Hne]; simpl.
    + apply IH. intros j Hj. apply Hl. by right.
    + destruct (Hkey Hne) as [d Hd]. rewrite Hc. simpl.
      unfold dist_read. rewrite Hd.
      destruct (Qltb c d); simpl; rewrite IH;
        try (intros j Hj; apply Hl; by right); do 2 f_equal; lia.
Qed.

Lemma overwrite_loop m l : forall dist,
  (forall i, i ∈ l -> (i < length compatibilities)%nat) ->
  exists dist',
    for_each (overwrite_step compatibilities m) l dist = Ok dist'
    /\ (forall i c, i ∈ l -> i <> m -> compatibilities !! i = Some c ->
          dist' !! ordered_pair i m = Some c)
    /\ (forall key, (forall i, i ∈ l -> i <> m -> key <> ordered_pair i m) ->
          dist' !! key = dist !! key).
Proof.
  induction l as [|i l IH]; intros dist Hl.
  - exists dist. split; [done|]. split; [|done].
    intros i c Hi. by apply elem_of_nil in Hi.
  - destruct (lookup_lt_is_Some_2 compatibilities i) as [c Hc];
      [apply Hl; by left|].
    simpl. unfold overwrite_step at 1, vec_get.
    destruct (decide (i = m)) as [->|Hne]; simpl.
    + destruct (IH dist) as (dist' & E & Hnew & Hold);
        [intros j Hj; apply Hl; by right|].
      exists dist'. split; [done|]. split.
      * intros j cj Hj Hjm. apply Hnew; [|done].
        apply elem_of_cons in Hj as [->|]; done.
      * intros key Hkey. apply Hold. intros j Hj. apply Hkey. by right.
    + rewrite Hc. simpl.
      destruct (IH (<[ordered_pair i m := c]> dist))
        as (dist' & E & Hnew & Hold); [intros j Hj; apply Hl; by right|].
      exists dist'. split; [done|]. split.
      * intros j cj Hj Hjm Hcj.
        destruct (decide (j ∈ l)) as [Hin|Hnin]; [by apply Hnew|].
        apply elem_of_cons in Hj as [->|]; [|done].
        rewrite Hold.
        -- rewrite Hc in Hcj. injection Hcj as <-. apply lookup_insert_eq.
        -- intros j Hj _ Heq. apply ordered_pair_inj in Heq. by subst.
      * intros key Hkey. rewrite Hold.
        -- apply lookup_insert_ne. intros Heq. by apply (Hkey i); [left| |].
        -- intros j Hj. apply Hkey. by right.
Qed.

End Loops.

Section Eviction.
Context {G : Type} `{Genome G}.
Variable cfg : PTreeConfig.

(** X24. [insertInto] on a node whose envelope is at capacity [k], and the
    vector it is given: the candidate [m] is the index of the highest of the
    first [k] entries of the vector, the lowest such index; it is replaced
    exactly when the slots [i <> m] whose entry is strictly below the cached
    [distances[(i, m)]] number at least the product of
    [outperformanceThreshold] and [k - 1], the count, [k - 1] and the
    product being rounded to the floating-point type of the threshold.  On
    replacement the observer hears "left" and then "entered", slot [m]
    holds the genome and every [distances[(i, m)]] holds entry [i] of the
    vector, the other entries of the cache being kept; otherwise envelope
    and cache are as before. *)
Theorem insertInto_at_capacity (s : N) (x : Z) (g : G) (n : Node G)
    (compatibilities : list Q) (callbacks : bool) (k : nat) :
  length (enveloppe n) = k ->
  enveloppeSize cfg = k ->
  (1 <= k)%nat -> (Z.of_nat k < 2 ^ 32)%Z ->
  (k <= length compatibilities)%nat ->
  cache_complete k (distances n) ->
  exists m cm old,
    is_best compatibilities k cm m /\
    enveloppe n !! m = Some old /\
    if Qle_bool
         (round (outperformanceFormat cfg)
            (outperformanceThreshold cfg *
             of_uint (outperformanceFormat cfg) (N.of_nat (k - 1))))
         (of_uint (outperformanceFormat cfg)
            (N.of_nat (replacement_votes compatibilities (distances n) m k)))
    then
      exists dist',
        insertInto cfg s x g n compatibilities callbacks =
          Ok (mkNode (node_id n) (bump s x (data n)) (node_parent n)
                     (children n) (<[m := g]> (enveloppe n)) dist',
              if callbacks
              then [onGenomeLeavesEnveloppe (node_id n) (genome_id old);
                    onGenomeEntersEnveloppe (node_id n) (genome_id g)]
              else [])
        /\ (forall i c, (i < k)%nat -> i <> m ->
              compatibilities !! i = Some c ->
              dist' !! ordered_pair i m = Some c)
        /\ (forall key,
              (forall i, (i < k)%nat -> i <> m -> key <> ordered_pair i m) ->
              dist' !! key = distances n !! key)
    else
      insertInto cfg s x g n compatibilities callbacks =
        Ok (mkNode (node_id n) (bump s x (data n)) (node_parent n)
                   (children n) (enveloppe n) (distances n),
            []).
Proof.
  intros Hk Hcap H1 H32 Hlen Hcomplete.
  destruct (lookup_lt_is_Some_2 compatibilities 0) as [c0 Hc0]; [lia|].
  destruct (most_similar_loop compatibilities (k - 1) 1 c0 0)
    as (cm & m & Ebest & Hbest); [lia| |].
  { split; [lia|]. split; [done|]. intros i c Hi Hc.
    assert (i = 0)%nat as -> by lia.
    rewrite Hc0 in Hc. injection Hc as <-. split; [apply Qle_refl | lia]. }
  replace (1 + (k - 1))%nat with k in Hbest by lia.
  destruct (lookup_lt_is_Some_2 (enveloppe n) m) as [old Hold];
    [destruct Hbest; lia|].
  exists m, cm, old. split; [done|]. split; [done|].
  assert (for_each (vote_step compatibilities m) (seq 0 k)
            (0%nat, distances n) =
          Ok (replacement_votes compatibilities (distances n) m k,
              distances n)) as Evote.
  { rewrite vote_loop; [done|]. intros i Hi. apply elem_of_seq in Hi.
    split; [lia|]. intros Hne.
    destruct (decide (i < m)%nat).
    - destruct (ordered_pair_lt i m) as [-> _]; [done|].
      apply Hcomplete. destruct Hbest. lia.
    - destruct (ordered_pair_lt m i) as [_ ->]; [lia|].
      apply Hcomplete. lia. }
  assert (Z.of_nat (replacement_votes compatibilities (distances n) m k)
            < 2 ^ 32)%Z as Hvotes.
  { pose proof (replacement_votes_le compatibilities (distances n) m k).
    lia. }
  destruct (Qle_bool _ _) eqn:Hq.
  - destruct (overwrite_loop compatibilities m (seq 0 k) (distances n))
      as (dist' & Eover & Hnew & Hkeep).
    { intros i Hi. apply elem_of_seq in Hi. lia. }
    exists dist'. split; [|split].
    + unfold insertInto, update_enveloppe. rewrite Hk, Hcap.
      rewrite Nat.ltb_irrefl, Nat.eqb_refl. cbn [negb].
      unfold vec_get. rewrite Hc0. cbn [obind]. rewrite Ebest.
      cbn [obind snd]. rewrite Evote. cbn [obind].
      rewrite uint_pred_spec, wrap32_small by (by try apply Hvotes).
      unfold Qltb at 1. rewrite Hq.
      cbn [negb]. rewrite Hold. cbn [obind]. rewrite Eover. done.
    + intros i c Hi. apply Hnew, elem_of_seq. lia.
    + intros key Hkey. apply Hkeep. intros i Hi. apply Hkey.
      apply elem_of_seq in Hi. lia.
  - unfold insertInto, update_enveloppe. rewrite Hk, Hcap.
    rewrite Nat.ltb_irrefl, Nat.eqb_refl. cbn [negb].
    unfold vec_get. rewrite Hc0. cbn [obind]. rewrite Ebest.
    cbn [obind snd]. rewrite Evote. cbn [obind].
    rewrite uint_pred_spec, wrap32_small by (by try apply Hvotes).
    unfold Qltb at 1. rewrite Hq. done.
Qed.

End Eviction.

(** C4: the failing admission.  The child species of [pair_tree] is at
    capacity two with [mutant] and [cousin], whose cached score is 1.
    [sibling] scores 1 against both: on these scores the candidate is
    slot 0, nobody votes for the replacement, and [insertInto] leaves the
    envelope and the cache as they are.  Admitted through the root, which
    rejects it with score 1/16, [sibling] reaches [insertInto] with the
    root's score in front of the child's: slot 1 is the candidate, slot 0
    votes for the replacement because 1/16 is below the cached 1, [cousin]
    is evicted and 1/16 is cached between [mutant] and [sibling]. *)
Theorem stale_scores_decide_eviction :
  (n ← _nodes pair_tree !! 1%nat;
   Some (enveloppe n, distances n !! (0, 1)%nat,
         map (pushed_score sibling) (enveloppe n),
         insertInto cfg_two 0 4 sibling n
           (map (pushed_score sibling) (enveloppe n)) true))
  = Some ([mutant; cousin], Some 1, [1; 1],
          Ok (mkNode 1 (mkData 0 0 3 4 4) (Some 0%nat) [] [mutant; cousin]
                     (<[(0, 1)%nat := 1]> ∅), [])) /\
  pushed_score sibling founder = (1 # 16) /\
  fst (addGenome cfg_two junk 4 sibling pair_tree) = Ok 1%N /\
  (n ← _nodes (after (addGenome cfg_two junk 4 sibling) pair_tree) !! 1%nat;
   Some (enveloppe n, distances n !! (0, 1)%nat))
  = Some ([mutant; sibling], Some (1 # 16)) /\
  notified (after (addGenome cfg_two junk 4 sibling) pair_tree) =
    notified pair_tree ++
    [onGenomeLeavesEnveloppe 1 7; onGenomeEntersEnveloppe 1 3].
Proof. vm_compute. repeat split. Qed.

(** One vote of ten with an outperformance threshold of one tenth: ten
    times the threshold is more than one, the rounded product is the
    [double] 1, which the one vote reaches, and the candidate is
    replaced. *)
Lemma one_vote_of_ten_replaces :
  is_best eleven_scores 11 1 0 /\
  replacement_votes eleven_scores (distances eleven) 0 11 = 1%nat /\
  Qltb 1 (outperformanceThreshold cfg_eleven * 10) = true /\
  (r ← (match insertInto cfg_eleven 0 0 newcomer eleven eleven_scores true with
        | Ok r => Some r
        | _ => None
        end);
   Some (enveloppe r.1 !! 0%nat, distances r.1 !! (0, 1)%nat, r.2))
  = Some (Some newcomer, Some (1 # 2),
          [onGenomeLeavesEnveloppe 1 30; onGenomeEntersEnveloppe 1 5]).
Proof.
  split; [|by vm_compute].
  split; [lia|]. split; [done|]. intros i c Hi Hc.
  do 11 (destruct i as [|i]; [vm_compute in Hc; injection Hc as <-;
                              split; [by vm_compute | lia]|]).
  lia.
Qed.


Lemma alter_last {A} (f : A -> A) (l : list A) (a : A) (k : nat) :
  k = length l -> alter f k (l ++ [a]) = l ++ [f a].
Proof.
  intros ->. rewrite alter_app_r_alt by lia. by rewrite Nat.sub_diag.
Qed.

(** ** Invariants of every tree built by events *)

Section EventInvariant.
Context {G : Type} `{Genome G}.
Variable cfg : PTreeConfig.
Variable indeterminate : Data.

(** A property of trees kept by the ways in which the events touch the
    state: a field update of a node that keeps its id, children, envelope
    and cache, a placement, the creation of a species under a node, and the
    fields outside registry and index. *)
Variable I : PhylogenicTree G -> Prop.
Hypothesis I_new : I (PhylogenicTree_new indeterminate).
Hypothesis I_update_node :
  forall p (f : Node G -> Node G),
    (forall n, node_id (f n) = node_id n /\ children (f n) = children n /\
               enveloppe (f n) = enveloppe n /\
               distances (f n) = distances n) ->
    preserves I (update_node p f).
Hypothesis I_place :
  forall x g species compatibilities,
    preserves I (place cfg x g species compatibilities).
Hypothesis I_newSpecies :
  forall x g species compatibilities pt,
    I pt -> (species < length (_nodes pt))%nat ->
    I (after (newSpecies cfg indeterminate x g species compatibilities) pt).
Hypothesis I_frame :
  forall pt, I pt ->
    forall cb hyb stp sent,
      I (mkTree (_nextNodeID pt) (_idToSpecies pt) (_root pt) (_nodes pt)
                cb hyb stp sent).

Lemma kept_trySubspecies x (g : G) species subs :
  forall compatibilities pt,
    I pt -> (species < length (_nodes pt))%nat ->
    I (after (trySubspecies cfg indeterminate x g species subs
                            compatibilities) pt).
Proof.
  induction subs as [|sub subs IH]; intros compatibilities pt HI Hs; simpl.
  - by apply I_newSpecies.
  - unfold after, mbind at 1, deref, mbind, get, lift, vec_get. simpl.
    destruct (_ !! _) as [n|]; simpl; [|done].
    destruct (matchesSpecies cfg g n compatibilities) as [[] c'].
    + by apply I_place.
    + by apply IH.
Qed.

Lemma kept_addGenome_at x (g : G) species :
  preserves I (addGenome_at cfg indeterminate x g species).
Proof.
  intros pt HI.
  unfold addGenome_at, mbind at 1, deref, mbind, get, lift, vec_get. simpl.
  destruct (_ !! _) as [n|] eqn:En; simpl; [|done].
  apply lookup_lt_Some in En.
  destruct (matchesSpecies cfg g n []) as [[] c'].
  - by apply I_place.
  - by apply kept_trySubspecies.
Qed.

Lemma kept_addGenome x (g : G) :
  preserves I (addGenome cfg indeterminate x g).
Proof.
  unfold addGenome. destruct (_ || _).
  - apply preserves_mbind; [apply preserves_get | intros pt].
    apply kept_addGenome_at.
  - apply preserves_mbind; [apply preserves_idToSpecies_at | intros mID].
    apply preserves_mbind; [apply preserves_idToSpecies_at | intros pID].
    destruct (negb (_ || _)); [apply preserves_mfail|].
    apply preserves_mbind.
    + destruct (negb _); [|apply preserves_mret].
      apply preserves_mbind; [apply preserves_get | intros pt].
      apply preserves_modify. intros pt' HI. by apply I_frame.
    + intros _. apply preserves_mbind; [apply preserves_nodes_index|].
      intros species. apply kept_addGenome_at.
Qed.

Lemma kept_step s alive : preserves I (step (G := G) s alive).
Proof.
  unfold step. apply preserves_mbind.
  - generalize (∅ : gset N).
    induction (ascending alive) as [|pid pids IH];
      intros acc; [apply preserves_mret|].
    apply preserves_mbind; [apply preserves_idToSpecies_at | intros sid].
    apply IH.
  - intros aliveSpecies. apply preserves_mbind.
    + apply preserves_mfor. intros sid.
      apply preserves_mbind; [apply preserves_nodes_at | intros p].
      by apply I_update_node.
    + intros _. apply preserves_modify. intros pt' HI. by apply I_frame.
Qed.

Lemma kept_delGenome s id : preserves I (delGenome (G := G) s id).
Proof.
  unfold delGenome.
  apply preserves_mbind; [apply preserves_get | intros pt].
  destruct (_ !! _); [|apply preserves_mret].
  apply preserves_mbind; [apply preserves_nodes_index | intros p].
  by apply I_update_node.
Qed.

Lemma kept_run (e : Event G) : preserves I (run cfg indeterminate e).
Proof.
  destruct e as [x g | s id | s alive]; simpl.
  - apply preserves_mbind; [apply kept_addGenome|].
    intros _. apply preserves_mret.
  - apply kept_delGenome.
  - apply kept_step.
Qed.

Lemma reachable_kept (pt : PhylogenicTree G) :
  reachable cfg indeterminate pt -> I pt.
Proof.
  induction 1 as [|c pt _ IH|e pt _ IH _].
  - exact I_new.
  - by apply I_frame.
  - by apply kept_run.
Qed.

End EventInvariant.

Section AllocationInvariant.
Context {G : Type} `{Genome G}.
Variable cfg : PTreeConfig.
Variable indeterminate : Data.

(** For a property that does not look at the children of a node, the
    creation of a species is an allocation, two field updates and a
    placement. *)
Variable I : PhylogenicTree G -> Prop.
Hypothesis I_update_node :
  forall p (f : Node G -> Node G),
    (forall n, node_id (f n) = node_id n /\ enveloppe (f n) = enveloppe n /\
               distances (f n) = distances n) ->
    preserves I (update_node p f).
Hypothesis I_makeNode :
  forall parent, preserves I (makeNode indeterminate parent).
Hypothesis I_place :
  forall x g species compatibilities,
    preserves I (place cfg x g species compatibilities).
Hypothesis I_frame :
  forall pt, I pt ->
    forall cb hyb stp sent,
      I (mkTree (_nextNodeID pt) (_idToSpecies pt) (_root pt) (_nodes pt)
                cb hyb stp sent).

Lemma kept_newSpecies x (g : G) species compatibilities :
  preserves I (newSpecies cfg indeterminate x g species compatibilities).
Proof.
  unfold newSpecies. destruct (simpleNewSpecies cfg);
    [|apply preserves_mfail].
  apply preserves_mbind; [apply I_makeNode | intros sub].
  apply preserves_mbind; [apply preserves_get | intros pt].
  apply preserves_mbind; [by apply I_update_node | intros _].
  apply preserves_mbind; [by apply I_update_node | intros _].
  apply preserves_mbind; [apply I_place | intros sid].
  apply preserves_mbind; [|intros _; apply preserves_mret].
  destruct (_callbacks pt); [|apply preserves_mret].
  intros pt' HI. by apply I_frame.
Qed.

Lemma reachable_kept_allocation (pt : PhylogenicTree G) :
  I (PhylogenicTree_new indeterminate) ->
  reachable cfg indeterminate pt -> I pt.
Proof.
  intros Hnew. apply (reachable_kept cfg indeterminate I); try done.
  - intros p f Hf. apply I_update_node. intros n.
    destruct (Hf n) as (? & _ & ? & ?). done.
  - intros x g species compatibilities pt0 HI _.
    by apply kept_newSpecies.
Qed.

End AllocationInvariant.

Section NodeInvariant.
Context {G : Type} `{Genome G}.
Variable cfg : PTreeConfig.
Variable indeterminate : Data.

(** A property of the envelope and cache of a node, which a node without
    representatives has and which [insertInto] keeps. *)
Variable P : Node G -> Prop.
Hypothesis P_fresh :
  forall n, enveloppe n = [] -> distances n = ∅ -> P n.
Hypothesis P_frame :
  forall n n', enveloppe n' = enveloppe n -> distances n' = distances n ->
               P n -> P n'.
Hypothesis P_insertInto :
  forall s x g n compatibilities callbacks n' sent,
    insertInto cfg s x g n compatibilities callbacks = Ok (n', sent) ->
    P n -> P n'.

Lemma every_update_node p (f : Node G -> Node G) :
  (forall n, node_id (f n) = node_id n /\ enveloppe (f n) = enveloppe n /\
             distances (f n) = distances n) ->
  preserves (every_node P) (update_node p f).
Proof.
  intros Hf pt Hb. unfold every_node in *. simpl.
  apply Forall_alter; [done|]. intros n _.
  destruct (Hf n) as (_ & He & Hd). by apply P_frame.
Qed.

Lemma every_makeNode parent :
  preserves (every_node P) (makeNode indeterminate parent).
Proof.
  intros pt Hb. unfold every_node in *. simpl.
  apply Forall_app. split; [done|]. repeat constructor. by apply P_fresh.
Qed.

Lemma every_place x (g : G) species compatibilities :
  preserves (every_node P) (place cfg x g species compatibilities).
Proof.
  intros pt Hb. unfold place, mbind, get, deref, mbind, get, lift, vec_get.
  simpl.
  destruct (_ !! _) as [n|] eqn:En; simpl; [|exact Hb].
  destruct (insertInto _ _ _ _ _ _ _) as [[n' sent]| | |] eqn:Ei; simpl;
    try exact Hb.
  unfold every_node in *. simpl. apply Forall_alter; [done|].
  intros n0 En0 _. rewrite En in En0. injection En0 as <-. simpl.
  eapply P_insertInto; [exact Ei|].
  exact (proj1 (Forall_lookup _ _) Hb _ _ En).
Qed.

Lemma reachable_every_node (pt : PhylogenicTree G) :
  reachable cfg indeterminate pt -> every_node P pt.
Proof.
  apply (reachable_kept_allocation cfg indeterminate (every_node P)).
  - apply every_update_node.
  - apply every_makeNode.
  - apply every_place.
  - by intros pt0 HI cb hyb stp sent.
  - repeat constructor. by apply P_fresh.
Qed.

End NodeInvariant.

(** ** The index of a tree built by events points into the registry *)

Section Registry.
Context {G : Type} `{Genome G}.
Variable cfg : PTreeConfig.
Variable indeterminate : Data.

Lemma wrap32_le (n : N) : (wrap32 n <= n)%N.
Proof. unfold wrap32. apply N.Div0.mod_le. Qed.

Lemma insertInto_node_id s x (g : G) n compatibilities callbacks n' sent :
  insertInto cfg s x g n compatibilities callbacks = Ok (n', sent) ->
  node_id n' = node_id n.
Proof.
  unfold insertInto. intros E.
  destruct (update_enveloppe _ _ _ _ _) as [[[env' dist'] sent']| | |];
    by simplify_eq/=.
Qed.

Lemma registry_update_node p (f : Node G -> Node G) :
  (forall n, node_id (f n) = node_id n /\ enveloppe (f n) = enveloppe n /\
             distances (f n) = distances n) ->
  preserves (registry_ok (G := G)) (update_node p f).
Proof.
  intros Hf pt (Hnext & Hids & Hidx). unfold registry_ok. simpl.
  rewrite length_alter. split; [done|]. split; [|done].
  apply Forall_alter; [done|]. intros n _ Hn.
  destruct (Hf n) as (-> & _). done.
Qed.

Lemma registry_makeNode parent :
  preserves (registry_ok (G := G)) (makeNode indeterminate parent).
Proof.
  intros pt (Hnext & Hids & Hidx). unfold registry_ok. simpl.
  rewrite length_app. simpl. split; [|split].
  - pose proof (wrap32_le (_nextNodeID pt + 1)). lia.
  - apply Forall_app. split.
    + eapply Forall_impl; [exact Hids|]. simpl. intros n Hn. lia.
    + repeat constructor. simpl. lia.
  - eapply map_Forall_impl; [exact Hidx|]. simpl. intros id sid Hs. lia.
Qed.

Lemma registry_place x (g : G) species compatibilities :
  preserves (registry_ok (G := G)) (place cfg x g species compatibilities).
Proof.
  intros pt Hok. unfold place, mbind, get, deref, mbind, get, lift, vec_get.
  simpl.
  destruct (_ !! _) as [n|] eqn:En; simpl; [|exact Hok].
  destruct (insertInto _ _ _ _ _ _ _) as [[n' sent]| | |] eqn:Ei; simpl;
    try exact Hok.
  destruct Hok as (Hnext & Hids & Hidx). unfold registry_ok. simpl.
  rewrite length_alter. apply insertInto_node_id in Ei.
  assert (N.to_nat (node_id n') < length (_nodes pt))%nat as Hn'.
  { rewrite Ei. exact (proj1 (Forall_lookup _ _) Hids _ _ En). }
  split; [done|]. split.
  - apply Forall_alter; [done|]. by intros n0 _ _.
  - by apply map_Forall_insert_2.
Qed.

(** In a tree built by events, every species id of the index is a position
    of the registry: the side condition of [step] and [delGenome]. *)
Lemma reachable_registry_ok (pt : PhylogenicTree G) :
  reachable cfg indeterminate pt -> registry_ok pt.
Proof.
  apply (reachable_kept_allocation cfg indeterminate
           (registry_ok (G := G))).
  - apply registry_update_node.
  - apply registry_makeNode.
  - apply registry_place.
  - by intros pt0 HI cb hyb stp sent.
  - split; [vm_compute; lia|].
    split; [repeat constructor; vm_compute; lia | apply map_Forall_empty].
Qed.

Lemma reachable_index_in_registry (pt : PhylogenicTree G) id sid :
  reachable cfg indeterminate pt ->
  _idToSpecies pt !! id = Some sid ->
  (N.to_nat sid < length (_nodes pt))%nat.
Proof.
  intros Hreach Hid. apply reachable_registry_ok in Hreach as (_ & _ & Hidx).
  exact (Hidx id sid Hid).
Qed.

End Registry.

(** ** The pointers of a tree built by events form a hierarchy *)

Section HeapShape.
Context {G : Type} `{Genome G}.
Variable cfg : PTreeConfig.
Variable indeterminate : Data.

Lemma insertInto_children s x (g : G) n compatibilities callbacks n' sent :
  insertInto cfg s x g n compatibilities callbacks = Ok (n', sent) ->
  children n' = children n.
Proof.
  unfold insertInto. intros E.
  destruct (update_enveloppe _ _ _ _ _) as [[[env' dist'] sent']| | |];
    by simplify_eq/=.
Qed.

Lemma ordered_update_node p (f : Node G -> Node G) :
  (forall n, children (f n) = children n) ->
  preserves (heap_ordered (G := G)) (update_node p f).
Proof.
  intros Hf pt [Hroot Hord]. split; simpl; rewrite length_alter; [done|].
  intros q n Hn. destruct (decide (p = q)) as [->|Hne].
  - rewrite list_lookup_alter_eq in Hn.
    destruct (_nodes pt !! q) as [n0|] eqn:Hn0; [|done].
    injection Hn as <-. rewrite Hf. by apply Hord.
  - rewrite list_lookup_alter_ne in Hn by done. by apply Hord.
Qed.

Lemma ordered_place x (g : G) species compatibilities :
  preserves (heap_ordered (G := G)) (place cfg x g species compatibilities).
Proof.
  intros pt Hok. unfold place, mbind, get, deref, mbind, get, lift, vec_get.
  simpl.
  destruct (_ !! _) as [n|] eqn:En; simpl; [|exact Hok].
  destruct (insertInto _ _ _ _ _ _ _) as [[n' sent]| | |] eqn:Ei; simpl;
    try exact Hok.
  apply insertInto_children in Ei. destruct Hok as [Hroot Hord].
  split; simpl; rewrite length_alter; [done|].
  intros q n0 Hn0. destruct (decide (species = q)) as [->|Hne].
  - rewrite list_lookup_alter_eq, En in Hn0. injection Hn0 as <-.
    rewrite Ei. by apply Hord.
  - rewrite list_lookup_alter_ne in Hn0 by done. by apply Hord.
Qed.

Lemma ordered_adopted x stp species (pt : PhylogenicTree G) :
  heap_ordered pt -> (species < length (_nodes pt))%nat ->
  heap_ordered
    (with_nodes (alter (push_child (length (_nodes pt))) species)
       (with_nodes
          (alter (fun n => set_data n (mkData stp (lastAppearance (data n))
                                              (count (data n)) x x))
                 (length (_nodes pt)))
          (after (makeNode indeterminate (Some species)) pt))).
Proof.
  intros [Hroot Hord] Hs. split; simpl; rewrite !length_alter, length_app;
    simpl; [lia|].
  intros q n Hn.
  rewrite alter_last in Hn by done.
  rewrite alter_app_l in Hn by done.
  destruct (decide (q < length (_nodes pt))%nat) as [Hq|Hq].
  - rewrite lookup_app_l in Hn by (by rewrite length_alter).
    destruct (decide (species = q)) as [->|Hne].
    + rewrite list_lookup_alter_eq in Hn.
      destruct (_nodes pt !! q) as [n0|] eqn:Hn0; [|done].
      injection Hn as <-. simpl. apply Forall_app. split.
      * eapply Forall_impl; [exact (Hord q n0 Hn0)|]. simpl. lia.
      * repeat constructor; lia.
    + rewrite list_lookup_alter_ne in Hn by done.
      eapply Forall_impl; [exact (Hord q n Hn)|]. simpl. lia.
  - rewrite lookup_app_r in Hn by (rewrite length_alter; lia).
    rewrite length_alter in Hn.
    destruct (q - length (_nodes pt))%nat as [|k]; [|done].
    injection Hn as <-. constructor.
Qed.

Lemma ordered_newSpecies x (g : G) species compatibilities
    (pt : PhylogenicTree G) :
  heap_ordered pt -> (species < length (_nodes pt))%nat ->
  heap_ordered
    (after (newSpecies cfg indeterminate x g species compatibilities) pt).
Proof.
  intros Hok Hs. unfold newSpecies, after.
  destruct (simpleNewSpecies cfg); [|done].
  pose proof (ordered_adopted x (_step pt) species pt Hok Hs) as Hadopted.
  revert Hadopted.
  generalize (preserves_mbind (heap_ordered (G := G))
    (place cfg x g (length (_nodes pt)) compatibilities)
    (fun sid =>
       do! (if _callbacks pt then notify [onNewSpecies sid] else mret tt)
       then mret sid)
    (ordered_place x g (length (_nodes pt)) compatibilities)).
  intros Hrest Hadopted. apply Hrest in Hadopted; [exact Hadopted|].
  intros sid. apply preserves_mbind; [|intros _; apply preserves_mret].
  destruct (_callbacks pt); [by intros pt' HI | apply preserves_mret].
Qed.

(** In a tree built by events the root is a node and the children of every
    node were allocated after it, so the walk from the root ends. *)
Lemma reachable_heap_ordered (pt : PhylogenicTree G) :
  reachable cfg indeterminate pt -> heap_ordered pt.
Proof.
  apply (reachable_kept cfg indeterminate (heap_ordered (G := G))).
  - split; [simpl; lia|]. intros [|p] n Hn; [|done].
    injection Hn as <-. constructor.
  - intros p f Hf. apply ordered_update_node. intros n.
    by destruct (Hf n) as (_ & ? & _).
  - apply ordered_place.
  - apply ordered_newSpecies.
  - by intros pt0 HI cb hyb stp sent.
Qed.

End HeapShape.

(** ** The capacity invariant *)

Section Capacity.
Context {G : Type} `{Genome G}.
Variable cfg : PTreeConfig.
Variable indeterminate : Data.

Lemma update_enveloppe_shape (g : G) n compatibilities callbacks
    env' dist' sent :
  update_enveloppe cfg g n compatibilities callbacks
    = Ok (env', dist', sent) ->
  ((length (enveloppe n) < enveloppeSize cfg)%nat /\
   env' = enveloppe n ++ [g]) \/
  (length (enveloppe n) = enveloppeSize cfg /\
   (env' = enveloppe n \/
    exists m, (m < enveloppeSize cfg)%nat /\ env' = <[m := g]> (enveloppe n))).
Proof.
  unfold update_enveloppe. intros E.
  destruct (_ <? _)%nat eqn:Hlt.
  - apply Nat.ltb_lt in Hlt. left.
    destruct (for_each _ _ _); by simplify_eq/=.
  - destruct (_ =? _)%nat eqn:Heq; [|done]. apply Nat.eqb_eq in Heq.
    right. split; [done|]. simpl in E.
    destruct (vec_get compatibilities 0) as [c0| | |]; simplify_eq/=.
    destruct (for_each _ _ (c0, _)) as [best| | |]; simplify_eq/=.
    destruct (for_each _ _ (_, distances n)) as [[v d1]| | |]; simplify_eq/=.
    destruct (Qltb _ _); simplify_eq/=; [by left|].
    unfold vec_get in E.
    destruct (enveloppe n !! best.2) as [old|] eqn:Eold; simplify_eq/=.
    destruct (for_each _ _ d1); simplify_eq/=.
    right. exists (best.2). split; [|done].
    apply lookup_lt_Some in Eold. lia.
Qed.

Lemma insertInto_shape s x (g : G) n compatibilities callbacks n' sent :
  insertInto cfg s x g n compatibilities callbacks = Ok (n', sent) ->
  ((length (enveloppe n) < enveloppeSize cfg)%nat /\
   enveloppe n' = enveloppe n ++ [g]) \/
  (length (enveloppe n) = enveloppeSize cfg /\
   (enveloppe n' = enveloppe n \/
    exists m, (m < enveloppeSize cfg)%nat /\
              enveloppe n' = <[m := g]> (enveloppe n))).
Proof.
  unfold insertInto. intros E.
  destruct (update_enveloppe _ _ _ _ _) as [[[env' dist'] sent']| | |] eqn:Eu;
    simplify_eq/=.
  eauto using update_enveloppe_shape.
Qed.

Lemma insertInto_length s x (g : G) n compatibilities callbacks n' sent :
  insertInto cfg s x g n compatibilities callbacks = Ok (n', sent) ->
  (length (enveloppe n) <= enveloppeSize cfg)%nat ->
  (length (enveloppe n') <= enveloppeSize cfg)%nat.
Proof.
  intros E Hle.
  destruct (insertInto_shape _ _ _ _ _ _ _ _ E)
    as [[Hlt ->]|[Heq [->|(m & _ & ->)]]];
    rewrite ?length_app, ?length_insert; simpl; lia.
Qed.

(** C5. In every tree built from a fresh one by admissions, deaths and
    step advances under one configuration, no node holds more
    representatives than the configured capacity: an insertion appends the
    genome only to an envelope strictly below capacity, and at capacity it
    leaves the envelope as it is or overwrites one slot in place. *)
Theorem enveloppe_never_exceeds_capacity :
  (forall pt : PhylogenicTree G,
     reachable cfg indeterminate pt ->
     forall p n, _nodes pt !! p = Some n ->
       (length (enveloppe n) <= enveloppeSize cfg)%nat) /\
  (forall s x (g : G) n compatibilities callbacks n' sent,
     insertInto cfg s x g n compatibilities callbacks = Ok (n', sent) ->
     ((length (enveloppe n) < enveloppeSize cfg)%nat /\
      enveloppe n' = enveloppe n ++ [g]) \/
     (length (enveloppe n) = enveloppeSize cfg /\
      (enveloppe n' = enveloppe n \/
       exists m, (m < enveloppeSize cfg)%nat /\
                 enveloppe n' = <[m := g]> (enveloppe n)))).
Proof.
  split; [|apply insertInto_shape].
  intros pt Hreach p n Hn.
  pose proof (reachable_every_node cfg indeterminate
    (fun n => (length (enveloppe n) <= enveloppeSize cfg)%nat)) as Hall.
  apply (proj1 (Forall_lookup _ _) (Hall
    ltac:(intros n0 He _; simpl; rewrite He; simpl; lia)
    ltac:(intros n0 n1 He _; simpl; by rewrite He)
    insertInto_length pt Hreach) p n Hn).
Qed.

End Capacity.

(** ** The cache of a tree built by events is complete *)

Section CacheComplete.
Context {G : Type} `{Genome G}.
Variable cfg : PTreeConfig.
Variable indeterminate : Data.

Lemma grows_refl (d : gmap (nat * nat) Q) : grows d d.
Proof. by intros key. Qed.

Lemma grows_trans (d1 d2 d3 : gmap (nat * nat) Q) :
  grows d1 d2 -> grows d2 d3 -> grows d1 d3.
Proof. intros H12 H23 key Hk. by apply H23, H12. Qed.

Lemma grows_insert (d : gmap (nat * nat) Q) key v : grows d (<[key := v]> d).
Proof.
  intros key' Hk. destruct (decide (key = key')) as [->|Hne].
  - rewrite lookup_insert_eq. by eexists.
  - by rewrite lookup_insert_ne.
Qed.

Lemma record_new_slot_grows compatibilities k l : forall dist dist',
  for_each (record_new_slot compatibilities k) l dist = Ok dist' ->
  grows dist dist' /\
  forall i, i ∈ l -> is_Some (dist' !! ordered_pair i k).
Proof.
  induction l as [|i l IH]; intros dist dist' E; simpl in E.
  - injection E as <-. split; [apply grows_refl|].
    intros i Hi. by apply elem_of_nil in Hi.
  - unfold record_new_slot at 1 in E.
    destruct (vec_get compatibilities i) as [c| | |]; simplify_eq/=.
    destruct (IH _ _ E) as [Hg Hl]. split.
    + eapply grows_trans; [apply grows_insert | exact Hg].
    + intros j Hj. apply elem_of_cons in Hj as [->|Hj]; [|by apply Hl].
      apply Hg. rewrite lookup_insert_eq. by eexists.
Qed.

Lemma vote_step_grows compatibilities m l : forall v dist v' dist',
  for_each (vote_step compatibilities m) l (v, dist) = Ok (v', dist') ->
  grows dist dist'.
Proof.
  induction l as [|i l IH]; intros v dist v' dist' E; simpl in E.
  - injection E as <- <-. apply grows_refl.
  - unfold vote_step at 1 in E.
    destruct (decide (i = m)); [by eapply IH|].
    destruct (vec_get compatibilities i) as [c| | |]; simplify_eq/=.
    unfold dist_read in E.
    destruct (dist !! ordered_pair i m) eqn:Ed; simpl in E.
    + by eapply IH.
    + eapply grows_trans; [apply grows_insert | by eapply IH].
Qed.

Lemma overwrite_step_grows compatibilities m l : forall dist dist',
  for_each (overwrite_step compatibilities m) l dist = Ok dist' ->
  grows dist dist'.
Proof.
  induction l as [|i l IH]; intros dist dist' E; simpl in E.
  - injection E as <-. apply grows_refl.
  - unfold overwrite_step at 1 in E.
    destruct (decide (i = m)); [by eapply IH|].
    destruct (vec_get compatibilities i) as [c| | |]; simplify_eq/=.
    eapply grows_trans; [apply grows_insert | by eapply IH].
Qed.

Lemma cache_complete_grows (k : nat) (d d' : gmap (nat * nat) Q) :
  grows d d' -> cache_complete k d -> cache_complete k d'.
Proof. intros Hg Hc i j Hij. by apply Hg, Hc. Qed.

Lemma insertInto_cache_complete s x (g : G) n compatibilities callbacks
    n' sent :
  insertInto cfg s x g n compatibilities callbacks = Ok (n', sent) ->
  cache_complete (length (enveloppe n)) (distances n) ->
  cache_complete (length (enveloppe n')) (distances n').
Proof.
  unfold insertInto, update_enveloppe. intros E Hc.
  destruct (_ <? _)%nat.
  - destruct (for_each _ _ _) as [dist'| | |] eqn:Ea; simplify_eq/=.
    apply record_new_slot_grows in Ea as [Hg Hnew].
    rewrite length_app. simpl. intros i j Hij.
    destruct (decide (j = length (enveloppe n))) as [->|Hne].
    + destruct (ordered_pair_lt i (length (enveloppe n))) as [<- _]; [lia|].
      apply Hnew, elem_of_seq. lia.
    + apply Hg, Hc. lia.
  - destruct (negb _); [done|].
    destruct (vec_get compatibilities 0) as [c0| | |]; simplify_eq/=.
    destruct (for_each _ _ (c0, _)) as [best| | |]; simplify_eq/=.
    destruct (for_each _ _ (_, distances n)) as [[v d1]| | |] eqn:Ev;
      simplify_eq/=.
    apply vote_step_grows in Ev.
    destruct (Qltb _ _); simplify_eq/=; [by eapply cache_complete_grows|].
    destruct (vec_get (enveloppe n) _); simplify_eq/=.
    destruct (for_each _ _ d1) as [d2| | |] eqn:Eo; simplify_eq/=.
    apply overwrite_step_grows in Eo. rewrite length_insert.
    eauto using cache_complete_grows.
Qed.

(** In a tree built by events, every node caches a score for every pair of
    its representatives: the side condition of [insertInto] at capacity. *)
Lemma reachable_cache_complete (pt : PhylogenicTree G) :
  reachable cfg indeterminate pt ->
  forall p n, _nodes pt !! p = Some n ->
    cache_complete (length (enveloppe n)) (distances n).
Proof.
  intros Hreach p n Hn.
  pose proof (reachable_every_node cfg indeterminate
    (fun n => cache_complete (length (enveloppe n)) (distances n))) as Hall.
  apply (proj1 (Forall_lookup _ _) (Hall
    ltac:(intros n0 He _ i j Hij; rewrite He in Hij; simpl in Hij; lia)
    ltac:(intros n0 n1 He Hd; simpl; by rewrite He, Hd)
    insertInto_cache_complete pt Hreach) p n Hn).
Qed.

End CacheComplete.

(** ** Step advance *)

Section StepAdvance.
Context {G : Type} `{Genome G}.

Lemma resolve_alive_spec (pt : PhylogenicTree G) pids : forall acc,
  (forall pid, pid ∈ pids -> is_Some (_idToSpecies pt !! pid)) ->
  exists found : gset N,
    resolve_alive pids acc pt = (Ok found, pt) /\
    forall sid, sid ∈ found <->
      sid ∈ acc \/ exists pid, pid ∈ pids /\ _idToSpecies pt !! pid = Some sid.
Proof.
  induction pids as [|pid pids IH]; intros acc Hpids.
  - exists acc. split; [done|]. intros sid. split; [by left|].
    intros [|(pid & Hpid & _)]; [done|]. by apply elem_of_nil in Hpid.
  - destruct (Hpids pid) as [sid0 Hsid0]; [by left|].
    destruct (IH ({[sid0]} ∪ acc)) as (found & E & Hfound).
    { intros pid' Hpid'. apply Hpids. by right. }
    exists found. split.
    + simpl. unfold mbind, idToSpecies_at, mbind, get. rewrite Hsid0.
      simpl. exact E.
    + intros sid. rewrite Hfound, elem_of_union, elem_of_singleton.
      split.
      * intros [[->|]|(pid' & Hin & Hl)]; [right|by left|right].
        -- exists pid. split; [by left|done].
        -- exists pid'. split; [by right|done].
      * intros [|(pid' & Hin & Hl)]; [by left; right|].
        apply elem_of_cons in Hin as [->|Hin].
        -- left. left. congruence.
        -- right. by exists pid'.
Qed.

Lemma mark_alive_spec s sids : forall pt : PhylogenicTree G,
  (forall sid, sid ∈ sids -> (N.to_nat sid < length (_nodes pt))%nat) ->
  exists nodes',
    mfor (fun sid => let! p := nodes_at sid in
                     update_node p (set_lastAppearance s)) sids pt
      = (Ok tt, with_nodes (fun _ => nodes') pt) /\
    length nodes' = length (_nodes pt) /\
    forall p n, _nodes pt !! p = Some n ->
      nodes' !! p = Some (if decide (N.of_nat p ∈ sids)
                          then set_lastAppearance s n else n).
Proof.
  induction sids as [|sid sids IH]; intros pt Hsids.
  - exists (_nodes pt). split; [by destruct pt|]. split; [done|].
    intros p n Hn. rewrite decide_False; [done|]. apply not_elem_of_nil.
  - assert (N.to_nat sid < length (_nodes pt))%nat as Hsid
      by (apply Hsids; by left).
    destruct (IH (with_nodes (alter (set_lastAppearance s) (N.to_nat sid)) pt))
      as (nodes' & E & Hlen & Hnodes).
    { intros sid' Hin. simpl. rewrite length_alter. apply Hsids. by right. }
    exists nodes'. split; [|split].
    + simpl. unfold mbind at 1. unfold mbind at 1.
      unfold nodes_at, mbind at 1, get.
      apply Nat.ltb_lt in Hsid. rewrite Hsid. simpl. exact E.
    + simpl in Hlen. by rewrite length_alter in Hlen.
    + intros p n Hn. simpl in Hnodes.
      destruct (decide (p = N.to_nat sid)) as [->|Hne].
      * rewrite (Hnodes (N.to_nat sid) (set_lastAppearance s n)).
        -- rewrite N2Nat.id.
           rewrite (decide_True (P := sid ∈ sid :: sids)) by (by left).
           by destruct (decide _).
        -- rewrite list_lookup_alter_eq, Hn. done.
      * rewrite (Hnodes p n) by (by rewrite list_lookup_alter_ne).
        destruct (decide (N.of_nat p ∈ sids)) as [Hin|Hnin].
        -- rewrite decide_True; [done|]. by right.
        -- rewrite decide_False; [done|].
           intros Hin. apply elem_of_cons in Hin as [E'|]; [|done].
           apply Hne. rewrite <- E'. by rewrite Nat2N.id.
Qed.

Lemma elem_of_ascending (x : N) (s : gset N) : x ∈ ascending s <-> x ∈ s.
Proof.
  unfold ascending. rewrite merge_sort_Permutation. apply elem_of_elements.
Qed.

(** A step advance whose alive genome ids are all in the index succeeds;
    it writes the step into [lastAppearance] of exactly the nodes at the
    positions of the registry the index gives for those ids, sets the
    tree's step, and leaves every other node as it was. *)
Lemma step_marks_alive_species (s : N) (alive : gset N)
    (pt : PhylogenicTree G) :
  registry_ok pt ->
  (forall pid, pid ∈ alive -> is_Some (_idToSpecies pt !! pid)) ->
  exists nodes',
    step s alive pt = (Ok tt, with_step s (with_nodes (fun _ => nodes') pt)) /\
    length nodes' = length (_nodes pt) /\
    forall p n, _nodes pt !! p = Some n ->
      ((exists pid, pid ∈ alive /\
                    _idToSpecies pt !! pid = Some (N.of_nat p)) ->
       nodes' !! p = Some (set_lastAppearance s n)) /\
      (~ (exists pid, pid ∈ alive /\
                      _idToSpecies pt !! pid = Some (N.of_nat p)) ->
       nodes' !! p = Some n).
Proof.
  intros (_ & _ & Hidx) Halive.
  destruct (resolve_alive_spec pt (ascending alive) ∅)
    as (found & Eres & Hfound).
  { intros pid Hpid. apply elem_of_ascending in Hpid. by apply Halive. }
  assert (forall sid, sid ∈ found <->
            exists pid, pid ∈ alive /\ _idToSpecies pt !! pid = Some sid)
    as Hfound'.
  { intros sid. rewrite Hfound. split.
    - intros [Hin|(pid & Hpid & Hl)]; [by apply not_elem_of_empty in Hin|].
      exists pid. by rewrite <- elem_of_ascending.
    - intros (pid & Hpid & Hl). right. exists pid.
      by rewrite elem_of_ascending. }
  destruct (mark_alive_spec s (ascending found) pt)
    as (nodes' & Emark & Hlen & Hnodes).
  { intros sid Hsid. apply elem_of_ascending, Hfound' in Hsid.
    destruct Hsid as (pid & Hpid & Hl). exact (Hidx pid sid Hl). }
  exists nodes'. split; [|split; [done|]].
  - unfold step, mbind at 1. rewrite Eres. unfold mbind at 1.
    rewrite Emark. reflexivity.
  - intros p n Hn. rewrite (Hnodes p n Hn). split.
    + intros Hex. rewrite decide_True; [done|].
      by apply elem_of_ascending, Hfound'.
    + intros Hnex. rewrite decide_False; [done|].
      intros Hin. by apply elem_of_ascending, Hfound' in Hin.
Qed.

End StepAdvance.

(** ** Step advance and death after a restoration *)

(** C7: the failing step.  In [revived] the index maps genome 10 to
    species 0, the root of the tree, which sits at position 1 of the
    registry and holds [founder] and [late].  The step advance to 5 with
    genome 10 alive succeeds and sets the step, but it writes 5 into the
    node at position 0, the empty root the constructor made, which is no
    part of the tree: species 0 keeps the [lastAppearance] 0 and the whole
    hierarchy is as it was. *)
Theorem step_after_restoration :
  _idToSpecies revived !! 10%N = Some 0%N /\
  _root revived = 1%nat /\
  fst (step 5 {[10%N]} revived) = Ok tt /\
  _step (after (step 5 {[10%N]}) revived) = 5%N /\
  (n ← _nodes (after (step 5 {[10%N]}) revived) !! 1%nat;
   Some (node_id n, enveloppe n, lastAppearance (data n)))
  = Some (0%N, [founder; late], 0%N) /\
  (n ← _nodes (after (step 5 {[10%N]}) revived) !! 0%nat;
   Some (node_id n, enveloppe n, lastAppearance (data n)))
  = Some (0%N, [], 5%N) /\
  hierarchy (after (step 5 {[10%N]}) revived) = hierarchy revived.
Proof. vm_compute. repeat split. Qed.

(** C8: the failing death.  In [revived] the index maps genome 10 to
    species 0, the root of the tree at position 1 of the registry.  The
    death of genome 10 at step 9 writes 9 into the node at position 0, the
    empty root the constructor made: species 0 keeps the [lastAppearance]
    0 and the whole hierarchy is as it was. *)
Theorem delGenome_after_restoration :
  _idToSpecies revived !! 10%N = Some 0%N /\
  _root revived = 1%nat /\
  fst (delGenome 9 10 revived) = Ok tt /\
  (n ← _nodes (after (delGenome 9 10) revived) !! 1%nat;
   Some (node_id n, enveloppe n, lastAppearance (data n)))
  = Some (0%N, [founder; late], 0%N) /\
  (n ← _nodes (after (delGenome 9 10) revived) !! 0%nat;
   Some (node_id n, enveloppe n, lastAppearance (data n)))
  = Some (0%N, [], 9%N) /\
  hierarchy (after (delGenome 9 10) revived) = hierarchy revived.
Proof. vm_compute. repeat split. Qed.


(** ** Round trip through the document *)

Lemma Species_nested_ind {G} (P : Species G -> Prop) :
  (forall sid d env dist subs,
     Forall P subs -> P (species sid d env dist subs)) ->
  forall s, P s.
Proof.
  intros step. fix rec 1. intros [sid d env dist subs]. apply step.
  induction subs as [|c subs IH]; constructor; [apply rec | exact IH].
Qed.

Lemma species_size_unfold {G} sid d (env : list G) dist subs :
  species_size (species sid d env dist subs) = S (sizes subs).
Proof. reflexivity. Qed.

Lemma layout_unfold {G} base parent sid d (env : list G) dist subs :
  layout base parent (species sid d env dist subs) =
    mkNode sid d parent (child_ptrs (S base) subs) env dist ::
    layouts (S base) (Some base) subs.
Proof.
  simpl. f_equal. generalize (S base).
  induction subs as [|c subs IH]; intros b; simpl; [done|]. by rewrite IH.
Qed.

Lemma Species_typed_unfold {G} sid d (env : list G) dist subs :
  Species_typed (species sid d env dist subs) <->
    is_uint sid /\ Data_typed d /\ keys_typed dist /\ Forall Species_typed subs.
Proof.
  simpl. do 3 (apply and_iff_compat_l).
  induction subs as [|c subs IH]; [by split; [constructor|]|].
  rewrite Forall_cons. by rewrite IH.
Qed.

Lemma layout_length {G} (s : Species G) : forall base parent,
  length (layout base parent s) = species_size s.
Proof.
  induction s as [sid d env dist subs IH] using Species_nested_ind.
  intros base parent. rewrite layout_unfold, species_size_unfold. simpl.
  f_equal. generalize (S base).
  induction IH as [|c subs Hc _ IHsubs]; intros b; simpl; [done|].
  by rewrite length_app, Hc, IHsubs.
Qed.

Lemma view_mono {G} (nodes : list (Node G)) fuel : forall fuel' p s,
  view fuel nodes p = Some s -> (fuel <= fuel')%nat ->
  view fuel' nodes p = Some s.
Proof.
  induction fuel as [|fuel IH]; intros fuel' p s Hv Hle; [done|].
  destruct fuel' as [|fuel']; [lia|]. simpl in *.
  destruct (nodes !! p) as [n|]; [|done]. simpl in *.
  destruct (mapM (view fuel nodes) (children n)) as [subs|] eqn:Em; [|done].
  simpl in *. injection Hv as <-.
  assert (mapM (view fuel' nodes) (children n) = Some subs) as ->; [|done].
  apply mapM_Some. apply mapM_Some in Em.
  eapply Forall2_impl; [exact Em|]. intros q c Hq. apply IH; [done|lia].
Qed.

Lemma foldl_insert_lookup (l : list (nat * nat * Q)) :
  NoDup (l.*1) -> forall (m0 : gmap (nat * nat) Q) key,
  foldl (fun m e => <[e.1 := e.2]> m) m0 l !! key =
    match (list_to_map l : gmap (nat * nat) Q) !! key with
    | Some v => Some v
    | None => m0 !! key
    end.
Proof.
  induction l as [|[k v] l IH]; intros Hnd m0 key; simpl; [done|].
  apply NoDup_cons in Hnd as [Hk Hnd]. rewrite IH by done.
  destruct (decide (key = k)) as [->|Hne].
  - rewrite (not_elem_of_list_to_map_1 l k) by done.
    by rewrite !lookup_insert_eq.
  - by rewrite !lookup_insert_ne.
Qed.

Lemma entries_Permutation (dist : gmap (nat * nat) Q) :
  entries dist ≡ₚ map_to_list dist.
Proof. apply merge_sort_Permutation. Qed.

Lemma foldl_insert_entries (dist : gmap (nat * nat) Q) :
  foldl (fun m e => <[e.1 := e.2]> m) ∅ (entries dist) = dist.
Proof.
  assert (NoDup ((entries dist).*1)) as Hnd.
  { rewrite entries_Permutation. apply NoDup_fst_map_to_list. }
  apply map_eq. intros key. rewrite foldl_insert_lookup by done.
  rewrite (list_to_map_proper (entries dist) (map_to_list dist));
    [|done|apply entries_Permutation].
  rewrite list_to_map_to_list. by destruct (dist !! key).
Qed.

Section RoundTrip.
Context {G : Type} `{Genome G} `{GenomeCodec G}.
Variable indeterminate : Data.
Hypothesis genome_round_trip :
  forall g : G, genome_from_json (genome_to_json g) = Ok g.

Lemma Node_to_json_view (nodes : list (Node G)) fuel : forall p s,
  view fuel nodes p = Some s ->
  Node_to_json fuel nodes p = Some (Species_to_json s).
Proof.
  induction fuel as [|fuel IH]; intros p s Hv; [done|]. simpl in *.
  destruct (nodes !! p) as [n|]; [|done]. simpl in *.
  destruct (mapM (view fuel nodes) (children n)) as [subs|] eqn:Em; [|done].
  simpl in *. injection Hv as <-.
  assert (mapM (Node_to_json fuel nodes) (children n)
          = Some (map Species_to_json subs)) as ->; [|done].
  apply mapM_Some. apply mapM_Some in Em. apply Forall2_fmap_r.
  eapply Forall2_impl; [exact Em|]. intros q c Hq. by apply IH.
Qed.

Lemma view_layouts (subs : list (Species G)) fuel parent :
  Forall (fun c => forall pre more par,
            view (species_size c)
                 (pre ++ layout (length pre) par c ++ more) (length pre)
            = Some c) subs ->
  (sizes subs <= fuel)%nat ->
  forall pre more b, b = length pre ->
    mapM (view fuel (pre ++ layouts b parent subs ++ more))
         (child_ptrs b subs) = Some subs.
Proof.
  induction 1 as [|c subs Hc _ IH]; intros Hfuel pre more b ->; [done|].
  simpl in *. rewrite <- !app_assoc.
  rewrite (view_mono _ (species_size c) fuel _ c); [|apply Hc|lia].
  simpl.
  rewrite (app_assoc pre (layout _ _ c)).
  rewrite (IH ltac:(lia) (pre ++ layout (length pre) parent c) more);
    [done|].
  by rewrite length_app, layout_length.
Qed.

Lemma view_layout (s : Species G) : forall pre more parent,
  view (species_size s) (pre ++ layout (length pre) parent s ++ more)
       (length pre) = Some s.
Proof.
  induction s as [sid d env dist subs IH] using Species_nested_ind.
  intros pre more parent. rewrite layout_unfold, species_size_unfold.
  cbn [view]. rewrite <- app_comm_cons, list_lookup_middle by done.
  simpl. rewrite cons_middle, app_assoc.
  rewrite (view_layouts subs (sizes subs)); [done|done|lia|].
  rewrite length_app. simpl. lia.
Qed.

(** *** Decoding what the encoder wrote *)

Lemma get_uint_typed (n : N) : is_uint n -> get_uint (JUnsigned n) = Ok n.
Proof. intros Hn. simpl. unfold wrap32. by rewrite N.mod_small. Qed.

Lemma get_int_typed (z : Z) : is_int z -> get_int (JInteger z) = Ok z.
Proof.
  intros Hz. simpl. unfold wrap_int, is_int in *. f_equal.
  rewrite Z.mod_small; lia.
Qed.

Lemma Data_round_trip (d : Data) :
  Data_typed d -> Data_from_json (Data_to_json d) = Ok d.
Proof.
  intros (Hf & Hl & Hc & Hlo & Hhi). destruct d as [fa la c lo hi].
  unfold Data_from_json, Data_to_json, json_at, vec_get.
  cbn [lookup list_lookup obind firstAppearance lastAppearance count xmin
       xmax] in *.
  rewrite !get_uint_typed, !get_int_typed by done. reflexivity.
Qed.

Lemma enveloppe_round_trip (env : list G) :
  enveloppe_from_json (JArray (map genome_to_json env)) = Ok env.
Proof.
  unfold enveloppe_from_json.
  assert (forall acc : list G,
    for_each (fun e acc => obind (genome_from_json e)
                                 (fun g => Ok (acc ++ [g])))
             (map genome_to_json env) acc = Ok (acc ++ env)) as Hacc.
  { induction env as [|g env IH]; intros acc; simpl.
    - by rewrite app_nil_r.
    - rewrite genome_round_trip. simpl. rewrite IH.
      by rewrite <- app_assoc. }
  apply (Hacc []).
Qed.

Lemma json_items_pushed (l : list json) : json_items (json_pushed l) = l.
Proof. by destruct l. Qed.

Lemma with_nodes_alter (f g : Node G -> Node G) p (st : PhylogenicTree G) :
  with_nodes (alter f p) (with_nodes (alter g p) st)
  = with_nodes (alter (f ∘ g) p) st.
Proof. unfold with_nodes. simpl. by rewrite list_alter_alter_eq. Qed.

Lemma read_distances_spec p (l : list (nat * nat * Q)) :
  (forall a b q, (a, b, q) ∈ l -> (a <= b)%nat /\ (Z.of_nat b < 2 ^ 32)%Z) ->
  forall st : PhylogenicTree G,
    mfor (read_distance p) (map triple_to_json l) st =
      (Ok tt,
       with_nodes
         (alter (fun n =>
                   with_distances
                     (foldl (fun m e => <[e.1 := e.2]> m) (distances n) l) n)
                p) st).
Proof.
  induction l as [|[[a b] q] l IH]; intros Hl st.
  - simpl. unfold mret. f_equal. destruct st as [? ? ? nodes ? ? ? ?].
    unfold with_nodes. simpl. f_equal. symmetry.
    apply list_alter_id. by intros [].
  - destruct (Hl a b q) as [Hab Hb]; [by left|].
    assert (is_uint (N.of_nat a) /\ is_uint (N.of_nat b)) as [Ha' Hb'].
    { unfold is_uint. lia. }
    cbn [map mfor]. unfold mbind at 1.
    assert (read_distance p (triple_to_json (a, b, q)) st =
            (Ok tt, with_nodes (alter (set_distance (a, b) q) p) st)) as ->.
    { unfold read_distance, triple_to_json, json_at, vec_get.
      cbn [fst snd lookup list_lookup obind get_float].
      rewrite !get_uint_typed by done. cbn [obind].
      unfold mbind, lift, update_node, modify. rewrite !Nat2N.id.
      unfold ordered_pair. by rewrite Nat.min_l, Nat.max_r by lia. }
    rewrite IH by (intros a' b' q' Hin; apply (Hl a' b' q'); by right).
    rewrite with_nodes_alter. reflexivity.
Qed.

Lemma rebuild_fields_spec p sid d (env : list G) dist subs
    (st : PhylogenicTree G) :
  is_uint sid -> Data_typed d -> keys_typed dist ->
  rebuild_fields p (Species_to_json (species sid d env dist subs)) st =
    (Ok tt,
     with_nodes
       (alter (fun n =>
                 mkNode sid d (node_parent n) (children n) env
                   (foldl (fun m e => <[e.1 := e.2]> m) (distances n)
                          (entries dist)))
              p) st).
Proof.
  intros Hsid Hd Hkeys. unfold rebuild_fields.
  cbn [Species_to_json json_at vec_get lookup list_lookup obind].
  rewrite get_uint_typed, Data_round_trip, enveloppe_round_trip by done.
  unfold mbind, lift, update_node, modify.
  rewrite json_items_pushed, read_distances_spec.
  - rewrite !with_nodes_alter. reflexivity.
  - intros a b q Hin. rewrite entries_Permutation in Hin.
    apply elem_of_map_to_list in Hin. by apply (Hkeys (a, b) q).
Qed.

(** *** Rebuilding a hierarchy *)

Lemma advance_id_add a b i :
  advance_id a (advance_id b i) = advance_id (b + a) i.
Proof. unfold advance_id. by rewrite Nat.add_comm, Nat.iter_add. Qed.

Lemma each_child_spec base (subs : list (Species G)) :
  Forall (rebuilds indeterminate) subs ->
  forall st : PhylogenicTree G, (base < length (_nodes st))%nat ->
    each_child (fun c => rebuildHierarchy indeterminate (Some base) c)
               (map Species_to_json subs) st =
      (Ok tt,
       mkTree (advance_id (sizes subs) (_nextNodeID st)) (_idToSpecies st)
              (_root st)
              (alter (adopt (child_ptrs (length (_nodes st)) subs)) base
                     (_nodes st)
                 ++ layouts (length (_nodes st)) (Some base) subs)
              (_callbacks st) (_hybrids st) (_step st) (notified st)).
Proof.
  induction 1 as [|c subs Hc _ IH]; intros st Hbase.
  - simpl. unfold mret. f_equal. destruct st as [? ? ? nodes ? ? ? ?].
    simpl. f_equal. rewrite app_nil_r. symmetry. apply list_alter_id.
    intros []. unfold adopt. simpl. by rewrite app_nil_r.
  - cbn [map each_child]. unfold mbind at 1.
    rewrite (Hc (Some base) st Hbase).
    rewrite IH by (simpl; rewrite length_app, length_alter; lia).
    f_equal. unfold rebuilt. cbn [_nextNodeID _idToSpecies _root _nodes
      _callbacks _hybrids _step notified link sizes foldr child_ptrs layouts].
    rewrite advance_id_add. f_equal.
    rewrite length_app, length_alter, layout_length.
    rewrite alter_app_l by (by rewrite length_alter).
    rewrite list_alter_alter_eq, <- app_assoc. f_equal.
    apply list_alter_ext; [|done]. intros [] _. unfold adopt, push_child.
    simpl. by rewrite <- app_assoc.
Qed.

Lemma rebuildHierarchy_unfold parent j0 j1 j2 j3 jc :
  rebuildHierarchy indeterminate parent (JArray [j0; j1; j2; j3; jc]) =
    (let! n := makeNode indeterminate parent in
     do! match parent with
         | Some p => update_node p (push_child n)
         | None => mret tt
         end then
     do! rebuild_fields n (JArray [j0; j1; j2; j3; jc]) then
     do! match jc with
         | JNull => mret tt
         | JArray cs =>
             each_child
               (fun c => rebuildHierarchy indeterminate (Some n) c) cs
         | _ => do! rebuildHierarchy indeterminate (Some n) jc then mret tt
         end then
     mret n).
Proof. reflexivity. Qed.

Lemma rebuild_children_pushed n (subs : list (Species G)) :
  match json_pushed (map Species_to_json subs) with
  | JNull => mret tt
  | JArray cs =>
      each_child (fun c => rebuildHierarchy indeterminate (Some n) c) cs
  | _ =>
      do! rebuildHierarchy indeterminate (Some n)
            (json_pushed (map Species_to_json subs)) then mret tt
  end =
  each_child (fun c => rebuildHierarchy indeterminate (Some n) c)
             (map Species_to_json subs).
Proof. by destruct subs. Qed.

Lemma rebuildHierarchy_spec (s : Species G) : Species_typed s -> rebuilds indeterminate s.
Proof.
  induction s as [sid d env dist subs IH] using Species_nested_ind.
  intros Htyped parent st Hparent.
  apply Species_typed_unfold in Htyped as (Hsid & Hd & Hkeys & Hsubs).
  assert (Forall (rebuilds indeterminate) subs) as Hrebuilds.
  { apply Forall_forall. intros c Hc.
    rewrite Forall_forall in IH, Hsubs. by apply IH, Hsubs. }
  change (Species_to_json (species sid d env dist subs)) with
    (JArray [JUnsigned sid; Data_to_json d;
             JArray (map genome_to_json env);
             json_pushed (map triple_to_json (entries dist));
             json_pushed (map Species_to_json subs)]).
  rewrite rebuildHierarchy_unfold.
  change (JArray [JUnsigned sid; Data_to_json d;
                  JArray (map genome_to_json env);
                  json_pushed (map triple_to_json (entries dist));
                  json_pushed (map Species_to_json subs)])
    with (Species_to_json (species sid d env dist subs)).
  destruct st as [next idx root nodes cb hyb stp sent].
  unfold mbind at 1. cbn [makeNode mbind get modify mret with_nextNodeID
    with_nodes _nodes _nextNodeID _idToSpecies _root _callbacks _hybrids
    _step notified].
  unfold with_nodes, with_nextNodeID.
  cbn [_nodes _nextNodeID _idToSpecies _root _callbacks _hybrids _step
       notified].
  unfold mbind at 1.
  assert (match parent with
          | Some p => update_node p (push_child (length nodes))
          | None => mret tt
          end (mkTree (wrap32 (next + 1)) idx root
                 (nodes ++ [mkNode next
                    (mkData 0 (lastAppearance indeterminate) 0
                            (xmin indeterminate) (xmax indeterminate))
                    parent [] [] ∅]) cb hyb stp sent)
          = (Ok tt, mkTree (wrap32 (next + 1)) idx root
                 (link parent (length nodes) nodes ++ [mkNode next
                    (mkData 0 (lastAppearance indeterminate) 0
                            (xmin indeterminate) (xmax indeterminate))
                    parent [] [] ∅]) cb hyb stp sent)) as ->.
  { destruct parent as [p|]; [|done]. simpl in Hparent.
    unfold update_node, modify, with_nodes. simpl.
    by rewrite alter_app_l. }
  unfold mbind at 1. rewrite rebuild_fields_spec by done.
  unfold mbind at 1.
  rewrite rebuild_children_pushed, each_child_spec; [|done|].
  2:{ simpl. rewrite length_alter, length_app. simpl.
      destruct parent; simpl; rewrite ?length_alter; lia. }
  unfold mret, rebuilt. cbn [_nextNodeID _idToSpecies _root _nodes
    _callbacks _hybrids _step notified with_nodes].
  f_equal. rewrite species_size_unfold, layout_unfold.
  assert (length (link parent (length nodes) nodes) = length nodes) as Hlen.
  { destruct parent; simpl; by rewrite ?length_alter. }
  f_equal.
  - unfold advance_id. by rewrite Nat.iter_succ_r.
  - rewrite !(alter_last _ _ _ (length nodes)) by done.
    rewrite length_app, Hlen. simpl.
    replace (length nodes + 1)%nat with (S (length nodes)) by lia.
    rewrite <- app_assoc. simpl. unfold adopt. simpl.
    by rewrite foldl_insert_entries.
Qed.

Lemma view_total (nodes : list (Node G)) :
  (forall p n, nodes !! p = Some n ->
     Forall (fun c => (p < c < length nodes)%nat) (children n)) ->
  forall fuel p, (p < length nodes)%nat -> (length nodes - p <= fuel)%nat ->
    is_Some (view fuel nodes p).
Proof.
  intros Hord. induction fuel as [|fuel IH]; intros p Hp Hfuel; [lia|].
  destruct (lookup_lt_is_Some_2 nodes p Hp) as [n Hn]. simpl. rewrite Hn.
  simpl.
  destruct (mapM_is_Some_2 (view fuel nodes) (children n)) as [subs ->];
    [|by eexists].
  eapply Forall_impl; [exact (Hord p n Hn)|]. simpl. intros c Hc.
  apply IH; lia.
Qed.

Lemma view_typed (nodes : list (Node G)) :
  Forall node_typed nodes ->
  forall fuel p s, view fuel nodes p = Some s -> Species_typed s.
Proof.
  intros Hnodes. induction fuel as [|fuel IH]; intros p s Hv; [done|].
  simpl in Hv. destruct (nodes !! p) as [n|] eqn:Hn; [|done]. simpl in Hv.
  destruct (mapM (view fuel nodes) (children n)) as [subs|] eqn:Em; [|done].
  simpl in Hv. injection Hv as <-.
  destruct (proj1 (Forall_lookup _ _) Hnodes p n Hn) as (Hid & Hd & Hk).
  apply Species_typed_unfold. do 3 (split; [done|]).
  apply mapM_Some in Em. apply Forall_forall. intros c Hc.
  apply list_elem_of_lookup in Hc as [i Hi].
  destruct (Forall2_lookup_r _ _ _ _ _ Em Hi) as (q & _ & Hq).
  by eapply IH.
Qed.

(** C6. Serialising a tree and deserialising the document gives a tree
    with the same step counter and the same hierarchy under its root: node
    ids, metadata, representative lists in order, distance tables and the
    order of children are those of the original. *)
Theorem serialize_then_deserialize (pt pt0 : PhylogenicTree G) :
  heap_ordered pt ->
  tree_typed pt ->
  exists s j pt',
    hierarchy pt = Some s /\
    to_json pt = Some j /\
    from_json indeterminate j pt0 = (Ok tt, pt') /\
    _step pt' = _step pt /\
    hierarchy pt' = Some s.
Proof.
  intros [Hroot Hord] [Hstep Hnodes].
  destruct (view_total (_nodes pt) Hord (length (_nodes pt)) (_root pt))
    as [s Hh]; [done|lia|].
  assert (Species_typed s) as Htyped by (by eapply view_typed).
  exists s, (JArray [JUnsigned (_step pt); Species_to_json s]).
  exists (with_root (length (_nodes pt0))
            (rebuilt None s (with_step (_step pt) pt0))).
  split; [exact Hh|]. apply Node_to_json_view in Hh.
  split; [|split; [|split]].
  - unfold to_json. by rewrite Hh.
  - unfold from_json.
    cbn [json_at vec_get lookup list_lookup obind].
    rewrite get_uint_typed by done.
    unfold mbind at 1. cbn [lift]. unfold mbind at 1. cbn [modify].
    unfold mbind at 1. cbn [lift]. unfold mbind at 1.
    by rewrite rebuildHierarchy_spec.
  - reflexivity.
  - unfold hierarchy. cbn [with_root rebuilt with_step _nodes _root link].
    apply (view_mono _ (species_size s)).
    + rewrite <- (app_nil_r (layout (length (_nodes pt0)) None s)).
      apply view_layout.
    + rewrite length_app, layout_length. lia.
Qed.

End RoundTrip.

(** * Further properties *)

(** ** Keys of the distance table *)

(** X1. The key built from two slot indices does not depend on their
    order, has its smaller index first, and building a key from the two
    components of a key gives the key back. *)
Theorem ordered_pair_normalises (a b : nat) :
  ordered_pair a b = ordered_pair b a /\
  ((ordered_pair a b).1 <= (ordered_pair a b).2)%nat /\
  ordered_pair (ordered_pair a b).1 (ordered_pair a b).2 = ordered_pair a b /\
  ((ordered_pair a b = (a, b)) \/ (ordered_pair a b = (b, a))).
Proof.
  unfold ordered_pair. simpl. repeat split; try lia.
  - f_equal; lia.
  - f_equal; lia.
  - destruct (decide (a <= b)%nat); [left | right]; f_equal; lia.
Qed.

(** X2. The comparison of keys is a strict total order (irreflexive,
    transitive, and of two distinct keys one is below the other), which is
    what [std::map] asks of it; the order in which the entries of a table
    are visited is its reflexive closure. *)
Theorem ordered_pair_less_strict_order (k1 k2 k3 : nat * nat) (c1 c2 : Q) :
  ordered_pair_less k1 k1 = false /\
  (ordered_pair_less k1 k2 = true -> ordered_pair_less k2 k3 = true ->
   ordered_pair_less k1 k3 = true) /\
  (k1 <> k2 ->
   ordered_pair_less k1 k2 = true \/ ordered_pair_less k2 k1 = true) /\
  (key_le (k1, c1) (k2, c2) <-> ordered_pair_less k2 k1 = false).
Proof.
  destruct k1 as [a1 b1], k2 as [a2 b2], k3 as [a3 b3].
  unfold ordered_pair_less, key_le. simpl.
  repeat split.
  - rewrite Nat.eqb_refl. simpl. apply Nat.ltb_irrefl.
  - destruct (a1 =? a2)%nat eqn:E12, (a2 =? a3)%nat eqn:E23,
      (a1 =? a3)%nat eqn:E13; simpl;
      rewrite ?Nat.eqb_eq, ?Nat.eqb_neq, ?Nat.ltb_lt in *; lia.
  - intros Hne.
    destruct (a1 =? a2)%nat eqn:E12; rewrite Nat.eqb_sym, E12; simpl;
      rewrite ?Nat.eqb_eq, ?Nat.eqb_neq, ?Nat.ltb_lt in *.
    + subst. assert (b1 <> b2) by congruence. lia.
    + lia.
  - destruct (a2 =? a1)%nat eqn:E; simpl;
      rewrite ?Nat.eqb_eq, ?Nat.eqb_neq, ?Nat.ltb_ge in *; lia.
  - destruct (a2 =? a1)%nat eqn:E; simpl;
      rewrite ?Nat.eqb_eq, ?Nat.eqb_neq, ?Nat.ltb_ge in *; lia.
Qed.

(** ** Insertion below capacity *)

Section Append.
Context {G : Type} `{Genome G}.
Variable cfg : PTreeConfig.

Lemma record_loop compatibilities k l : forall dist,
  (forall i, i ∈ l -> (i < k)%nat /\ (i < length compatibilities)%nat) ->
  exists dist',
    for_each (record_new_slot compatibilities k) l dist = Ok dist'
    /\ (forall i, i ∈ l -> dist' !! (i, k) = compatibilities !! i)
    /\ (forall key, (forall i, i ∈ l -> key <> (i, k)) ->
          dist' !! key = dist !! key).
Proof.
  induction l as [|i l IH]; intros dist Hl.
  - exists dist. split; [done|]. split; [|done].
    intros i Hi. by apply elem_of_nil in Hi.
  - destruct (Hl i) as [Hik Hi]; [by left|].
    destruct (lookup_lt_is_Some_2 compatibilities i Hi) as [c Hc].
    simpl. unfold record_new_slot at 1, vec_get. rewrite Hc. simpl.
    destruct (ordered_pair_lt i k Hik) as [-> _].
    destruct (IH (<[(i, k) := c]> dist)) as (dist' & E & Hnew & Hold);
      [intros j Hj; apply Hl; by right|].
    exists dist'. split; [done|]. split.
    + intros j Hj.
      destruct (decide (j ∈ l)) as [Hin|Hnin]; [by apply Hnew|].
      apply elem_of_cons in Hj as [->|]; [|done].
      rewrite Hold, Hc; [apply lookup_insert_eq|].
      intros j Hj [= ->]. done.
    + intros key Hkey. rewrite Hold.
      * apply lookup_insert_ne. intros <-. by apply (Hkey i); [left|].
      * intros j Hj. apply Hkey. by right.
Qed.

(** X3. Insertion into a node that holds [k] representatives, [k] below the
    capacity: the genome is appended as slot [k], the observer hears
    "entered" and nothing else, the cache gains the score of every slot
    [i < k] under the key [(i, k)] and keeps its other entries, and the
    metadata are advanced. *)
Theorem insertInto_below_capacity (s : N) (x : Z) (g : G) (n : Node G)
    (compatibilities : list Q) (callbacks : bool) (k : nat) :
  length (enveloppe n) = k ->
  (k < enveloppeSize cfg)%nat ->
  (k <= length compatibilities)%nat ->
  exists dist',
    insertInto cfg s x g n compatibilities callbacks =
      Ok (mkNode (node_id n) (bump s x (data n)) (node_parent n)
                 (children n) (enveloppe n ++ [g]) dist',
          if callbacks
          then [onGenomeEntersEnveloppe (node_id n) (genome_id g)]
          else [])
    /\ (forall i, (i < k)%nat -> dist' !! (i, k) = compatibilities !! i)
    /\ (forall key, key.2 <> k -> dist' !! key = distances n !! key).
Proof.
  intros Hk Hcap Hlen.
  destruct (record_loop compatibilities k (seq 0 k) (distances n))
    as (dist' & E & Hnew & Hold).
  { intros i Hi. apply elem_of_seq in Hi. lia. }
  exists dist'. split; [|split].
  - unfold insertInto, update_enveloppe. rewrite Hk.
    apply Nat.ltb_lt in Hcap. rewrite Hcap, E. reflexivity.
  - intros i Hi. apply Hnew, elem_of_seq. lia.
  - intros key Hkey. apply Hold. intros i _ ->. done.
Qed.

(** X4. With a capacity of one the vote has no voter: whatever the
    scores and the threshold, a genome inserted into a node that holds its
    one representative takes its place; the observer hears "left" and
    "entered", and the cache is not touched. *)
Theorem insertInto_capacity_one (s : N) (x : Z) (g old : G) (n : Node G)
    (compatibilities : list Q) (callbacks : bool) :
  enveloppe n = [old] ->
  enveloppeSize cfg = 1%nat ->
  (1 <= length compatibilities)%nat ->
  insertInto cfg s x g n compatibilities callbacks =
    Ok (mkNode (node_id n) (bump s x (data n)) (node_parent n)
               (children n) [g] (distances n),
        if callbacks
        then [onGenomeLeavesEnveloppe (node_id n) (genome_id old);
              onGenomeEntersEnveloppe (node_id n) (genome_id g)]
        else []).
Proof.
  intros Henv Hcap Hlen.
  destruct compatibilities as [|c0 rest]; [simpl in Hlen; lia|].
  unfold insertInto, update_enveloppe. rewrite Henv, Hcap.
  cbn -[of_uint round wrap32 uint_pred Qltb].
  unfold vote_step, overwrite_step.
  rewrite !decide_True by done. cbn [obind].
  assert (Qltb (of_uint (outperformanceFormat cfg) (wrap32 (N.of_nat 0)))
               (round (outperformanceFormat cfg)
                  (outperformanceThreshold cfg *
                   of_uint (outperformanceFormat cfg) (uint_pred 1)))
          = false) as ->.
  { apply Qltb_ge. rewrite (round_zero _ (_ * _)); [done|].
    simpl. apply Z.mul_0_r. }
  reflexivity.
Qed.

End Append.

Section NewSpecies.
Context {G : Type} `{Genome G}.
Variable cfg : PTreeConfig.
Variable indeterminate : Data.

(** X5. With a capacity of zero the first admission on a fresh tree is
    undefined behaviour: the empty envelope of the root matches, the
    envelope is not below capacity, and the search of the most similar
    representative reads the first element of an empty vector. *)
Theorem capacity_zero_undefined (x : Z) (g : G) :
  hasParent g FATHER = false \/ hasParent g MOTHER = false ->
  enveloppeSize cfg = 0%nat ->
  addGenome cfg indeterminate x g (PhylogenicTree_new indeterminate) =
    (Undefined, PhylogenicTree_new indeterminate).
Proof.
  intros Hpar Hcap. unfold addGenome.
  assert (negb (hasParent g FATHER) || negb (hasParent g MOTHER) = true)
    as ->.
  { destruct Hpar as [-> | ->]; [done|]. by rewrite orb_true_r. }
  unfold mbind at 1. unfold get. cbn [PhylogenicTree_new makeNode].
  unfold addGenome_at, mbind at 1. cbn -[matchesSpecies].
  rewrite matchesSpecies_empty by done.
  unfold place. cbn. unfold insertInto, update_enveloppe. cbn.
  rewrite Hcap. cbn. reflexivity.
Qed.

Lemma tree_ext (pt pt' : PhylogenicTree G) :
  _nextNodeID pt = _nextNodeID pt' -> _idToSpecies pt = _idToSpecies pt' ->
  _root pt = _root pt' -> _nodes pt = _nodes pt' ->
  _callbacks pt = _callbacks pt' -> _hybrids pt = _hybrids pt' ->
  _step pt = _step pt' -> notified pt = notified pt' ->
  pt = pt'.
Proof. destruct pt, pt'. simpl. by intros -> -> -> -> -> -> -> ->. Qed.

(** The tree after a species has been founded under [species] for [g]. *)
Lemma newSpecies_spec x (g : G) species compatibilities
    (pt : PhylogenicTree G) :
  simpleNewSpecies cfg = true ->
  (1 <= enveloppeSize cfg)%nat ->
  (species < length (_nodes pt))%nat ->
  newSpecies cfg indeterminate x g species compatibilities pt =
    (Ok (_nextNodeID pt),
     mkTree (wrap32 (_nextNodeID pt + 1))
       (<[genome_id g := _nextNodeID pt]> (_idToSpecies pt))
       (_root pt)
       (alter (push_child (length (_nodes pt))) species (_nodes pt) ++
        [mkNode (_nextNodeID pt) (mkData (_step pt) (_step pt) 1 x x)
                (Some species) [] [g] ∅])
       (_callbacks pt) (_hybrids pt) (_step pt)
       (notified pt ++
        if _callbacks pt
        then [onGenomeEntersEnveloppe (_nextNodeID pt) (genome_id g);
              onNewSpecies (_nextNodeID pt)]
        else [])).
Proof.
  intros Hsimple Hcap Hs. unfold newSpecies. rewrite Hsimple.
  destruct pt as [next idx root nodes cb hyb stp sent]. cbn in Hs.
  unfold makeNode, place, update_node, deref, notify, modify, mbind, get,
    lift, mret, vec_get. cbn.
  rewrite alter_last by done.
  rewrite alter_app_l by done.
  rewrite lookup_app_r by (rewrite length_alter; lia).
  rewrite length_alter, Nat.sub_diag. cbn.
  unfold insertInto, update_enveloppe. cbn.
  destruct (enveloppeSize cfg) as [|cap]; [lia|]. cbn.
  destruct cb; cbn; f_equal; apply tree_ext; simpl; try done;
    try (by rewrite <- app_assoc); try (by rewrite app_nil_r);
    rewrite alter_last by done;
    rewrite alter_app_l by done;
    rewrite alter_last by (by rewrite length_alter);
    unfold bump; simpl; by rewrite Z.min_id, Z.max_id.
Qed.

Lemma verdict_any_vector (g : G) n compatibilities :
  fst (matchesSpecies cfg g n compatibilities) =
    fst (matchesSpecies cfg g n []).
Proof.
  unfold matchesSpecies.
  pose proof (matches_loop_any_vector cfg g (enveloppe n) 0%N
                compatibilities []) as E.
  do 2 destruct (matches_loop _ _ _ _ _). simpl in *. by subst.
Qed.

Lemma trySubspecies_all_reject x (g : G) species subs
    (pt : PhylogenicTree G) :
  Forall (fun c => exists nc, _nodes pt !! c = Some nc /\
                     fst (matchesSpecies cfg g nc []) = false) subs ->
  forall compatibilities, exists compatibilities',
    trySubspecies cfg indeterminate x g species subs compatibilities pt =
      newSpecies cfg indeterminate x g species compatibilities' pt.
Proof.
  induction 1 as [|c subs (nc & Hc & Hno) _ IH]; intros compatibilities.
  - by exists compatibilities.
  - simpl. unfold mbind at 1, deref, mbind, get, lift, vec_get.
    rewrite Hc. simpl.
    pose proof (verdict_any_vector g nc compatibilities) as Hv.
    destruct (matchesSpecies cfg g nc compatibilities) as [ok c'].
    simpl in Hv. rewrite Hv, Hno. apply IH.
Qed.

(** X6. When the starting node and every one of its children reject the
    genome, a species is founded under the starting node: a node with the
    next id is appended to the registry and to the children of the
    starting node, it holds the genome as its only representative, an empty
    cache, count one, both appearances at the current step and both bounds
    at the coordinate; the index maps the genome to it, and the observer
    hears "entered" and then "new species". *)
Theorem addGenome_at_founds_species (x : Z) (g : G) (species : nat)
    (n : Node G) (pt : PhylogenicTree G) :
  simpleNewSpecies cfg = true ->
  (1 <= enveloppeSize cfg)%nat ->
  _nodes pt !! species = Some n ->
  fst (matchesSpecies cfg g n []) = false ->
  Forall (fun c => exists nc, _nodes pt !! c = Some nc /\
                     fst (matchesSpecies cfg g nc []) = false)
         (children n) ->
  addGenome_at cfg indeterminate x g species pt =
    (Ok (_nextNodeID pt),
     mkTree (wrap32 (_nextNodeID pt + 1))
       (<[genome_id g := _nextNodeID pt]> (_idToSpecies pt))
       (_root pt)
       (alter (push_child (length (_nodes pt))) species (_nodes pt) ++
        [mkNode (_nextNodeID pt) (mkData (_step pt) (_step pt) 1 x x)
                (Some species) [] [g] ∅])
       (_callbacks pt) (_hybrids pt) (_step pt)
       (notified pt ++
        if _callbacks pt
        then [onGenomeEntersEnveloppe (_nextNodeID pt) (genome_id g);
              onNewSpecies (_nextNodeID pt)]
        else [])).
Proof.
  intros Hsimple Hcap Hn Hno Hsubs.
  unfold addGenome_at, mbind at 1, deref, mbind, get, lift, vec_get.
  rewrite Hn. simpl.
  destruct (matchesSpecies cfg g n []) as [ok c']. simpl in Hno. subst ok.
  destruct (trySubspecies_all_reject x g species (children n) pt Hsubs c')
    as (c'' & ->).
  apply newSpecies_spec; [done|done|]. by apply lookup_lt_Some in Hn.
Qed.

End NewSpecies.

(** ** What an event leaves alone *)

Section Stepwise.
Context {G : Type} `{Genome G}.
Variable cfg : PTreeConfig.
Variable indeterminate : Data.

(** A property of trees kept by the five ways in which the events write:
    a placement, the creation of a species under a node, the marking of a
    node as seen, the hybrid counter and the step.  The genomes the events
    bring are those of [eligible]. *)
Variable I : PhylogenicTree G -> Prop.
Variable eligible : G -> Prop.
Hypothesis I_place :
  forall x g species compatibilities,
    eligible g -> preserves I (place cfg x g species compatibilities).
Hypothesis I_newSpecies :
  forall x g species compatibilities pt,
    eligible g -> I pt -> (species < length (_nodes pt))%nat ->
    I (after (newSpecies cfg indeterminate x g species compatibilities) pt).
Hypothesis I_seen :
  forall p s, preserves I (update_node p (set_lastAppearance s)).
Hypothesis I_hybrids : forall h pt, I pt -> I (with_hybrids h pt).
Hypothesis I_step : forall s pt, I pt -> I (with_step s pt).

Lemma stepwise_trySubspecies x (g : G) species subs :
  eligible g ->
  forall compatibilities pt,
    I pt -> (species < length (_nodes pt))%nat ->
    I (after (trySubspecies cfg indeterminate x g species subs
                            compatibilities) pt).
Proof.
  intros Hg.
  induction subs as [|sub subs IH]; intros compatibilities pt HI Hs; simpl.
  - by apply I_newSpecies.
  - unfold after, mbind at 1, deref, mbind, get, lift, vec_get. simpl.
    destruct (_ !! _) as [n|]; simpl; [|done].
    destruct (matchesSpecies cfg g n compatibilities) as [[] c'].
    + by apply I_place.
    + by apply IH.
Qed.

Lemma stepwise_addGenome_at x (g : G) species :
  eligible g -> preserves I (addGenome_at cfg indeterminate x g species).
Proof.
  intros Hg pt HI.
  unfold addGenome_at, mbind at 1, deref, mbind, get, lift, vec_get. simpl.
  destruct (_ !! _) as [n|] eqn:En; simpl; [|done].
  apply lookup_lt_Some in En.
  destruct (matchesSpecies cfg g n []) as [[] c'].
  - by apply I_place.
  - by apply stepwise_trySubspecies.
Qed.

Lemma stepwise_addGenome x (g : G) :
  eligible g -> preserves I (addGenome cfg indeterminate x g).
Proof.
  intros Hg. unfold addGenome. destruct (_ || _).
  - apply preserves_mbind; [apply preserves_get | intros pt].
    by apply stepwise_addGenome_at.
  - apply preserves_mbind; [apply preserves_idToSpecies_at | intros mID].
    apply preserves_mbind; [apply preserves_idToSpecies_at | intros pID].
    destruct (negb (_ || _)); [apply preserves_mfail|].
    apply preserves_mbind.
    + destruct (negb _); [|apply preserves_mret].
      apply preserves_mbind; [apply preserves_get | intros pt].
      apply preserves_modify. intros pt' HI. by apply I_hybrids.
    + intros _. apply preserves_mbind; [apply preserves_nodes_index|].
      intros species. by apply stepwise_addGenome_at.
Qed.

Lemma stepwise_step s alive : preserves I (step (G := G) s alive).
Proof.
  unfold step. apply preserves_mbind.
  - generalize (∅ : gset N).
    induction (ascending alive) as [|pid pids IH];
      intros acc; [apply preserves_mret|].
    apply preserves_mbind; [apply preserves_idToSpecies_at | intros sid].
    apply IH.
  - intros aliveSpecies. apply preserves_mbind.
    + apply preserves_mfor. intros sid.
      apply preserves_mbind; [apply preserves_nodes_at | intros p].
      apply I_seen.
    + intros _. apply preserves_modify. intros pt' HI. by apply I_step.
Qed.

Lemma stepwise_delGenome s id : preserves I (delGenome (G := G) s id).
Proof.
  unfold delGenome.
  apply preserves_mbind; [apply preserves_get | intros pt].
  destruct (_ !! _); [|apply preserves_mret].
  apply preserves_mbind; [apply preserves_nodes_index | intros p].
  apply I_seen.
Qed.

Lemma stepwise_run (e : Event G) :
  (forall x g, e = Admit x g -> eligible g) ->
  preserves I (run cfg indeterminate e).
Proof.
  intros He. destruct e as [x g | s id | s alive]; simpl.
  - apply preserves_mbind; [apply stepwise_addGenome; by eapply He|].
    intros _. apply preserves_mret.
  - apply stepwise_delGenome.
  - apply stepwise_step.
Qed.

Lemma stepwise_reachable (pt : PhylogenicTree G) :
  (forall g, eligible g) ->
  I (PhylogenicTree_new indeterminate) ->
  (forall c pt, I pt -> I (setCallbacks c pt)) ->
  reachable cfg indeterminate pt -> I pt.
Proof.
  intros Hall I_new I_callbacks.
  induction 1 as [|c pt _ IH|e pt _ IH _].
  - exact I_new.
  - by apply I_callbacks.
  - apply stepwise_run; [|done]. intros x g _. apply Hall.
Qed.

End Stepwise.

Section Frame.
Context {G : Type} `{Genome G}.
Variable cfg : PTreeConfig.
Variable indeterminate : Data.

Lemma update_enveloppe_silent (g : G) n compatibilities env' dist' sent :
  update_enveloppe cfg g n compatibilities false = Ok (env', dist', sent) ->
  sent = [].
Proof.
  unfold update_enveloppe. intros E.
  destruct (_ <? _)%nat.
  - destruct (for_each _ _ _); by simplify_eq/=.
  - destruct (_ =? _)%nat; [|done]. simpl in E.
    destruct (vec_get compatibilities 0) as [c0| | |]; simplify_eq/=.
    destruct (for_each _ _ (c0, _)) as [best| | |]; simplify_eq/=.
    destruct (for_each _ _ (_, distances n)) as [[v d1]| | |]; simplify_eq/=.
    destruct (Qltb _ _); simplify_eq/=; [done|].
    destruct (vec_get (enveloppe n) _); simplify_eq/=.
    destruct (for_each _ _ d1); by simplify_eq/=.
Qed.

Lemma insertInto_silent s x (g : G) n compatibilities n' sent :
  insertInto cfg s x g n compatibilities false = Ok (n', sent) -> sent = [].
Proof.
  unfold insertInto. intros E.
  destruct (update_enveloppe _ _ _ _ _) as [[[env' dist'] sent']| | |] eqn:Eu;
    simplify_eq/=.
  eauto using update_enveloppe_silent.
Qed.

Lemma observed_place cb root heard x (g : G) species compatibilities :
  preserves (observed cb root heard) (place cfg x g species compatibilities).
Proof.
  intros pt Hok. unfold place, mbind, get, deref, mbind, get, lift, vec_get.
  simpl.
  destruct (_ !! _) as [n|] eqn:En; simpl; [|exact Hok].
  destruct (insertInto _ _ _ _ _ _ _) as [[n' sent]| | |] eqn:Ei; simpl;
    try exact Hok.
  destruct Hok as (Hcb & Hroot & sent0 & Hsent & Hquiet).
  split; [done|]. split; [done|]. simpl.
  exists (sent0 ++ sent). split; [by rewrite Hsent, app_assoc|].
  intros ->. rewrite Hcb in Ei. apply insertInto_silent in Ei as ->.
  by rewrite Hquiet.
Qed.

Lemma newSpecies_unfold x (g : G) species compatibilities
    (pt : PhylogenicTree G) :
  simpleNewSpecies cfg = true ->
  newSpecies cfg indeterminate x g species compatibilities pt =
    mbind (place cfg x g (length (_nodes pt)) compatibilities)
      (fun sid =>
         do! (if _callbacks pt then notify [onNewSpecies sid] else mret tt)
         then mret sid)
      (adopted indeterminate x species pt).
Proof. intros Hsimple. unfold newSpecies. rewrite Hsimple. reflexivity. Qed.

Lemma observed_newSpecies cb root heard x (g : G) species compatibilities :
  preserves (observed cb root heard)
            (newSpecies cfg indeterminate x g species compatibilities).
Proof.
  intros pt Hok. destruct (simpleNewSpecies cfg) eqn:Hsimple;
    [|unfold newSpecies; by rewrite Hsimple].
  rewrite newSpecies_unfold by done.
  pose proof (observed_place cb root heard x g (length (_nodes pt))
                compatibilities (adopted indeterminate x species pt)) as Hplace.
  unfold mbind at 1.
  destruct (place _ _ _ _ _ _) as [[sid| | |] pt']; simpl in *;
    try (apply Hplace; destruct Hok as (? & ? & ?); by repeat split).
  assert (observed cb root heard pt') as (Hcb & Hroot & sent0 & Hsent & Hquiet).
  { apply Hplace. destruct Hok as (? & ? & ?). by repeat split. }
  destruct Hok as (Hcb0 & _). rewrite Hcb0.
  destruct cb; cbn; [|by repeat split; eauto].
  split; [done|]. split; [done|].
  exists (sent0 ++ [onNewSpecies sid]). split; [|done].
  simpl. by rewrite Hsent, app_assoc.
Qed.

(** X10. The accessor returns what [setCallbacks] installed.  An event
    never installs or removes the observer and never moves the root; what
    the observer has heard only grows, and without an observer nothing is
    notified. *)
Theorem run_observer (e : Event G) (c : bool) (pt : PhylogenicTree G) :
  callbacks (setCallbacks c pt) = c /\
  callbacks (after (run cfg indeterminate e) pt) = callbacks pt /\
  _root (after (run cfg indeterminate e) pt) = _root pt /\
  exists sent,
    notified (after (run cfg indeterminate e) pt) = notified pt ++ sent /\
    (callbacks pt = false -> sent = []).
Proof.
  split; [reflexivity|].
  apply (stepwise_run cfg indeterminate
           (observed (_callbacks pt) (_root pt) (notified pt))
           (fun _ => True)).
  - intros x g species compatibilities _. apply observed_place.
  - intros x g species compatibilities pt0 _ Hok _.
    by apply observed_newSpecies.
  - intros p s pt0 Hok. exact Hok.
  - intros h pt0 Hok. exact Hok.
  - intros s pt0 Hok. exact Hok.
  - done.
  - split; [done|]. split; [done|]. exists []. by rewrite app_nil_r.
Qed.

Lemma insertInto_data s x (g : G) n compatibilities cb n' sent :
  insertInto cfg s x g n compatibilities cb = Ok (n', sent) ->
  data n' = bump s x (data n) /\ node_parent n' = node_parent n.
Proof.
  unfold insertInto. intros E.
  destruct (update_enveloppe _ _ _ _ _) as [[[env' dist'] sent']| | |];
    by simplify_eq/=.
Qed.

Lemma place_frame x (g : G) species compatibilities (pt : PhylogenicTree G) :
  _nextNodeID (after (place cfg x g species compatibilities) pt)
    = _nextNodeID pt /\
  _hybrids (after (place cfg x g species compatibilities) pt) = _hybrids pt /\
  _step (after (place cfg x g species compatibilities) pt) = _step pt /\
  length (_nodes (after (place cfg x g species compatibilities) pt))
    = length (_nodes pt).
Proof.
  unfold after, place, mbind, get, deref, mbind, get, lift, vec_get. simpl.
  destruct (_ !! _) as [n|]; simpl; [|done].
  destruct (insertInto _ _ _ _ _ _ _) as [[n' sent]| | |]; simpl; try done.
  by rewrite length_alter.
Qed.

Lemma newSpecies_frame x (g : G) species compatibilities
    (pt : PhylogenicTree G) :
  _hybrids (after (newSpecies cfg indeterminate x g species compatibilities)
              pt) = _hybrids pt /\
  _step (after (newSpecies cfg indeterminate x g species compatibilities)
           pt) = _step pt.
Proof.
  destruct (simpleNewSpecies cfg) eqn:Hsimple;
    [|unfold after, newSpecies; by rewrite Hsimple].
  unfold after. rewrite newSpecies_unfold by done.
  pose proof (place_frame x g (length (_nodes pt)) compatibilities
                (adopted indeterminate x species pt)) as (_ & Hh & Hs & _).
  unfold after in *. unfold mbind.
  destruct (place _ _ _ _ _ _) as [[sid| | |] pt']; simpl in *; try done.
  by destruct (_callbacks pt).
Qed.

Lemma addGenome_at_hybrids x (g : G) species h :
  preserves (fun pt : PhylogenicTree G => _hybrids pt = h)
            (addGenome_at cfg indeterminate x g species).
Proof.
  apply (stepwise_addGenome_at cfg indeterminate _ (fun _ => True)); [| |done].
  - intros x0 g0 sp cs _ pt <-. apply place_frame.
  - intros x0 g0 sp cs pt _ <- _. apply newSpecies_frame.
Qed.

Lemma addGenome_two_parents x (g : G) mID pID (pt : PhylogenicTree G) :
  hasParent g FATHER = true ->
  hasParent g MOTHER = true ->
  _idToSpecies pt !! parent g MOTHER = Some mID ->
  _idToSpecies pt !! parent g FATHER = Some pID ->
  addGenome cfg indeterminate x g pt =
    if negb (ignoreHybrids cfg || (mID =? pID)%N) then (Abort, pt)
    else
      mbind (nodes_index mID)
        (fun species => addGenome_at cfg indeterminate x g species)
        (if negb (mID =? pID)%N
         then with_hybrids (wrap32 (_hybrids pt + 1)) pt else pt).
Proof.
  intros Hf Hm Hmother Hfather. unfold addGenome.
  rewrite Hf, Hm. simpl.
  unfold mbind at 1, idToSpecies_at, mbind at 1, get. rewrite Hmother.
  simpl. unfold mbind at 1, mbind at 1. rewrite Hfather. simpl.
  destruct (negb (_ || _)); [done|].
  unfold mbind at 1. by destruct (negb _).
Qed.

Lemma nodes_index_hybrids x (g : G) mID h (pt : PhylogenicTree G) :
  _hybrids pt = h ->
  _hybrids (mbind (nodes_index mID)
              (fun species => addGenome_at cfg indeterminate x g species)
              pt).2 = h.
Proof.
  apply (preserves_mbind (fun pt : PhylogenicTree G => _hybrids pt = h)).
  - apply preserves_nodes_index.
  - intros species. apply addGenome_at_hybrids.
Qed.

(** X7. An admission of a genome whose two parents are in the index: when
    both belong to one species the hybrid counter is untouched; when they
    belong to two and hybrids are folded, the counter goes up by one
    (modulo 2^32), whatever the admission at the mother's species does
    next; when hybrids are not folded the assertion fails and the tree is
    as it was. *)
Theorem addGenome_counts_hybrids (x : Z) (g : G) (mID pID : N)
    (pt : PhylogenicTree G) :
  hasParent g FATHER = true ->
  hasParent g MOTHER = true ->
  _idToSpecies pt !! parent g MOTHER = Some mID ->
  _idToSpecies pt !! parent g FATHER = Some pID ->
  if decide (mID = pID)
  then _hybrids (after (addGenome cfg indeterminate x g) pt) = _hybrids pt
  else if ignoreHybrids cfg
       then _hybrids (after (addGenome cfg indeterminate x g) pt)
              = wrap32 (_hybrids pt + 1)
       else addGenome cfg indeterminate x g pt = (Abort, pt).
Proof.
  intros Hf Hm Hmother Hfather. unfold after.
  rewrite (addGenome_two_parents x g mID pID pt) by done.
  destruct (decide (mID = pID)) as [->|Hne].
  - rewrite N.eqb_refl, orb_true_r. simpl. by apply nodes_index_hybrids.
  - apply N.eqb_neq in Hne. rewrite Hne, orb_false_r.
    destruct (ignoreHybrids cfg); [|done]. simpl.
    by apply nodes_index_hybrids.
Qed.

(** X18. With [simpleNewSpecies] off an admission allocates nothing: the
    registry keeps its length and the next node id its value, whether the
    genome joins a species or the assertion fails. *)
Theorem addGenome_without_simpleNewSpecies (x : Z) (g : G)
    (pt : PhylogenicTree G) :
  simpleNewSpecies cfg = false ->
  length (_nodes (after (addGenome cfg indeterminate x g) pt))
    = length (_nodes pt) /\
  _nextNodeID (after (addGenome cfg indeterminate x g) pt) = _nextNodeID pt.
Proof.
  intros Hsimple.
  apply (stepwise_addGenome cfg indeterminate
    (fun pt' => length (_nodes pt') = length (_nodes pt) /\
                _nextNodeID pt' = _nextNodeID pt) (fun _ => True));
    [| | |done|done].
  - intros x0 g0 sp cs _ pt0 [<- <-].
    destruct (place_frame x0 g0 sp cs pt0) as (? & _ & _ & ?). done.
  - intros x0 g0 sp cs pt0 _ HI _. unfold after, newSpecies.
    by rewrite Hsimple.
  - intros h pt0 HI. exact HI.
Qed.

Lemma place_recorded x (g : G) species compatibilities sid
    (pt pt' : PhylogenicTree G) :
  place cfg x g species compatibilities pt = (Ok sid, pt') ->
  recorded x g sid pt'.
Proof.
  unfold place, mbind, get, deref, mbind, get, lift, vec_get. simpl.
  destruct (_ !! _) as [n|] eqn:En; simpl; [|done].
  destruct (insertInto _ _ _ _ _ _ _) as [[n' sent]| | |] eqn:Ei; simpl;
    try done.
  intros [= <- <-]. split; simpl; [apply lookup_insert_eq|].
  exists species, n'. split.
  - by rewrite list_lookup_alter_eq, En.
  - apply insertInto_data in Ei as [-> _]. simpl. repeat split; lia.
Qed.

Lemma newSpecies_recorded x (g : G) species compatibilities sid
    (pt pt' : PhylogenicTree G) :
  newSpecies cfg indeterminate x g species compatibilities pt
    = (Ok sid, pt') ->
  recorded x g sid pt'.
Proof.
  destruct (simpleNewSpecies cfg) eqn:Hsimple;
    [|unfold newSpecies; by rewrite Hsimple].
  rewrite newSpecies_unfold by done. unfold mbind at 1.
  destruct (place _ _ _ _ _ _) as [[sid'| | |] pt1] eqn:Ep; try done.
  apply place_recorded in Ep.
  destruct (_callbacks pt); cbn; intros [= <- <-]; exact Ep.
Qed.

Lemma trySubspecies_recorded x (g : G) species subs sid :
  forall compatibilities (pt pt' : PhylogenicTree G),
    trySubspecies cfg indeterminate x g species subs compatibilities pt
      = (Ok sid, pt') ->
    recorded x g sid pt'.
Proof.
  induction subs as [|sub subs IH]; intros compatibilities pt pt'; simpl.
  - apply newSpecies_recorded.
  - unfold mbind at 1, deref, mbind, get, lift, vec_get.
    destruct (_ !! _) as [n|]; simpl; [|done].
    destruct (matchesSpecies cfg g n compatibilities) as [[] c'].
    + apply place_recorded.
    + apply IH.
Qed.

Lemma addGenome_at_recorded x (g : G) species sid
    (pt pt' : PhylogenicTree G) :
  addGenome_at cfg indeterminate x g species pt = (Ok sid, pt') ->
  recorded x g sid pt'.
Proof.
  unfold addGenome_at, mbind at 1, deref, mbind, get, lift, vec_get.
  destruct (_ !! _) as [n|]; simpl; [|done].
  destruct (matchesSpecies cfg g n []) as [[] c'].
  - apply place_recorded.
  - apply trySubspecies_recorded.
Qed.

(** X8. When an admission returns a species id, the lookup of the genome
    answers that id from then on, and the registry holds a node with that
    id which was last seen at the current step and whose bounds contain
    the coordinate of the genome. *)
Theorem addGenome_records_species (x : Z) (g : G) (sid : N)
    (pt pt' : PhylogenicTree G) :
  addGenome cfg indeterminate x g pt = (Ok sid, pt') ->
  speciesID (genome_id g) pt' = sid /\ recorded x g sid pt'.
Proof.
  intros E. assert (recorded x g sid pt') as Hrec.
  { revert E. unfold addGenome. destruct (_ || _).
    - unfold mbind at 1, get. apply addGenome_at_recorded.
    - unfold mbind at 1, idToSpecies_at, mbind at 1, get.
      destruct (_ !! _) as [mID|]; [|done]. simpl.
      unfold mbind at 1, mbind at 1.
      destruct (_ !! _) as [pID|]; [|done]. simpl.
      destruct (negb (_ || _)); [done|].
      unfold mbind at 1.
      destruct (negb _); simpl;
        unfold mbind at 1, nodes_index, mbind, get; simpl;
        (destruct (_ <? _)%nat; [|done]); simpl;
        apply addGenome_at_recorded. }
  split; [|exact Hrec]. unfold speciesID. by rewrite (proj1 Hrec).
Qed.

(** X21. An event never removes an entry of the index, and the only entry
    it can write is that of the genome it brings: the species recorded
    for every other genome id is as before. *)
Theorem run_index (e : Event G) (id : N) (pt : PhylogenicTree G) :
  (is_Some (_idToSpecies pt !! id) ->
   is_Some (_idToSpecies (after (run cfg indeterminate e) pt) !! id)) /\
  ((forall x g, e = Admit x g -> genome_id g <> id) ->
   _idToSpecies (after (run cfg indeterminate e) pt) !! id
     = _idToSpecies pt !! id).
Proof.
  assert (forall (J : option N -> Prop) (eligible : G -> Prop),
    (forall g sid, eligible g -> J (_idToSpecies pt !! id) ->
                   forall m : gmap N N, J (m !! id) ->
                   J (<[genome_id g := sid]> m !! id)) ->
    (forall x g, e = Admit x g -> eligible g) ->
    J (_idToSpecies pt !! id) ->
    J (_idToSpecies (after (run cfg indeterminate e) pt) !! id)) as Hkept.
  { intros J eligible HJ He H0.
    assert (forall x g species cs, eligible g ->
              preserves (fun pt' : PhylogenicTree G =>
                           J (_idToSpecies pt' !! id))
                        (place cfg x g species cs)) as Hplace.
    { intros x g species cs Hg pt0 HI.
      unfold place, mbind, get, deref, mbind, get, lift, vec_get. simpl.
      destruct (_nodes pt0 !! species) as [n|]; simpl; [|done].
      destruct (insertInto _ _ _ _ _ _ _) as [[n' sent]| | |]; simpl;
        try done.
      by apply HJ. }
    apply (stepwise_run cfg indeterminate
             (fun pt' => J (_idToSpecies pt' !! id)) eligible); try done.
    - intros x g species cs pt0 Hg HI _. unfold after.
      destruct (simpleNewSpecies cfg) eqn:Hsimple;
        [|unfold newSpecies; by rewrite Hsimple].
      rewrite newSpecies_unfold by done.
      apply (preserves_mbind (fun pt' : PhylogenicTree G =>
                                J (_idToSpecies pt' !! id))).
      + by apply Hplace.
      + intros sid. apply preserves_mbind; [|intros _; apply preserves_mret].
        destruct (_callbacks pt0); [by intros pt' HJ' | apply preserves_mret].
      + exact HI.
    - by intros p s pt0 HI. }
  split.
  - apply (Hkept is_Some (fun _ => True)); [|done].
    intros g sid _ _ m Hm.
    destruct (decide (genome_id g = id)) as [->|Hne].
    + rewrite lookup_insert_eq. by eexists.
    + by rewrite lookup_insert_ne.
  - intros Hother.
    apply (Hkept (fun o => o = _idToSpecies pt !! id)
                 (fun g => genome_id g <> id)); [|done|done].
    intros g sid Hg _ m Hm. by rewrite lookup_insert_ne.
Qed.

End Frame.

Section StepFailure.
Context {G : Type} `{Genome G}.

Lemma resolve_alive_missing (pt : PhylogenicTree G) pids :
  (exists pid, pid ∈ pids /\ _idToSpecies pt !! pid = None) ->
  forall acc, resolve_alive pids acc pt = (Throw OutOfRange, pt).
Proof.
  induction pids as [|pid pids IH]; intros (bad & Hin & Hbad) acc.
  - by apply elem_of_nil in Hin.
  - simpl. unfold mbind at 1, idToSpecies_at, mbind, get.
    destruct (_idToSpecies pt !! pid) as [sid|] eqn:Epid; [|done].
    simpl. apply IH. exists bad. split; [|done].
    apply elem_of_cons in Hin as [->|]; [congruence|done].
Qed.

(** X9. A step advance that names an alive genome the index does not
    know throws the lookup exception before anything is written: no
    species is marked, the step is not advanced, the tree is as it was. *)
Theorem step_unknown_plant (s : N) (alive : gset N) (pid : N)
    (pt : PhylogenicTree G) :
  pid ∈ alive ->
  _idToSpecies pt !! pid = None ->
  step s alive pt = (Throw OutOfRange, pt).
Proof.
  intros Hin Hbad. unfold step, mbind at 1.
  rewrite resolve_alive_missing; [done|].
  exists pid. by rewrite elem_of_ascending.
Qed.

End StepFailure.

(** ** More invariants of the trees built by events *)

Section Alignment.
Context {G : Type} `{Genome G}.
Variable cfg : PTreeConfig.
Variable indeterminate : Data.

Lemma wrap32_succ (n : N) : wrap32 (wrap32 n + 1) = wrap32 (n + 1).
Proof. unfold wrap32. by rewrite N.Div0.add_mod_idemp_l. Qed.

Lemma aligned_update_node p (f : Node G -> Node G) :
  (forall n, node_id (f n) = node_id n /\ enveloppe (f n) = enveloppe n /\
             distances (f n) = distances n) ->
  preserves (ids_aligned (G := G)) (update_node p f).
Proof.
  intros Hf pt [Hnext Hids]. split; simpl; rewrite ?length_alter; [done|].
  intros q n Hn. destruct (decide (p = q)) as [->|Hne].
  - rewrite list_lookup_alter_eq in Hn.
    destruct (_nodes pt !! q) as [n0|] eqn:Hn0; [|done].
    injection Hn as <-. destruct (Hf n0) as (-> & _). by apply Hids.
  - rewrite list_lookup_alter_ne in Hn by done. by apply Hids.
Qed.

Lemma aligned_makeNode parent :
  preserves (ids_aligned (G := G)) (makeNode indeterminate parent).
Proof.
  intros pt [Hnext Hids]. split; simpl.
  - rewrite length_app, Hnext, wrap32_succ. simpl. f_equal. lia.
  - intros q n Hn. apply lookup_app_Some in Hn as [Hn|[Hq Hn]].
    + by apply Hids.
    + destruct (q - length (_nodes pt))%nat as [|k] eqn:Ek; [|done].
      injection Hn as <-. simpl. rewrite Hnext. f_equal. lia.
Qed.

Lemma aligned_place x (g : G) species compatibilities :
  preserves (ids_aligned (G := G)) (place cfg x g species compatibilities).
Proof.
  intros pt Hok. unfold place, mbind, get, deref, mbind, get, lift, vec_get.
  simpl.
  destruct (_ !! _) as [n|] eqn:En; simpl; [|exact Hok].
  destruct (insertInto _ _ _ _ _ _ _) as [[n' sent]| | |] eqn:Ei; simpl;
    try exact Hok.
  destruct Hok as [Hnext Hids]. split; simpl; rewrite ?length_alter; [done|].
  apply insertInto_node_id in Ei.
  intros q n0 Hn0. destruct (decide (species = q)) as [->|Hne].
  - rewrite list_lookup_alter_eq, En in Hn0. injection Hn0 as <-.
    rewrite Ei. by apply Hids.
  - rewrite list_lookup_alter_ne in Hn0 by done. by apply Hids.
Qed.

Lemma reachable_aligned (pt : PhylogenicTree G) :
  reachable cfg indeterminate pt -> ids_aligned pt.
Proof.
  apply (reachable_kept_allocation cfg indeterminate (ids_aligned (G := G))).
  - apply aligned_update_node.
  - apply aligned_makeNode.
  - apply aligned_place.
  - by intros pt0 HI cb hyb stp sent.
  - split; [reflexivity|]. intros [|p] n Hn; [|done]. by injection Hn as <-.
Qed.

(** X11. In a tree built by events the registry is indexed by node id:
    the node at position [p] carries the id [p] modulo [2^32].  While the
    registry holds at most [2^32] nodes the ids are the positions, so that
    [_nodes[id]] is the node with that id, and the species the index gives
    for a genome is a node of the registry with that id. *)
Theorem reachable_ids_aligned (pt : PhylogenicTree G) :
  reachable cfg indeterminate pt ->
  ids_aligned pt /\
  ((N.of_nat (length (_nodes pt)) <= 2 ^ 32)%N ->
   (forall p n, _nodes pt !! p = Some n ->
      node_id n = N.of_nat p /\ _nodes pt !! N.to_nat (node_id n) = Some n) /\
   (forall gid sid, _idToSpecies pt !! gid = Some sid ->
      exists n, _nodes pt !! N.to_nat sid = Some n /\ node_id n = sid)).
Proof.
  intros Hreach. pose proof (reachable_aligned pt Hreach) as Hal.
  split; [exact Hal|]. intros Hlen.
  assert (forall p n, _nodes pt !! p = Some n -> node_id n = N.of_nat p)
    as Hid.
  { intros p n Hn. rewrite (proj2 Hal p n Hn).
    apply lookup_lt_Some in Hn. unfold wrap32. apply N.mod_small. lia. }
  split.
  - intros p n Hn. split; [by apply Hid|].
    by rewrite (Hid p n Hn), Nat2N.id.
  - intros gid sid Hsid.
    pose proof (reachable_index_in_registry cfg indeterminate pt gid sid
                  Hreach Hsid) as Hlt.
    destruct (lookup_lt_is_Some_2 _ _ Hlt) as [n Hn].
    exists n. split; [done|]. by rewrite (Hid _ n Hn), N2Nat.id.
Qed.

End Alignment.

(** ** Step advance and death in a tree built by events *)

Section MarkedSpecies.
Context {G : Type} `{Genome G}.
Variable cfg : PTreeConfig.
Variable indeterminate : Data.

Lemma set_lastAppearance_spec (s : N) (n : Node G) :
  same_but_lastAppearance n (set_lastAppearance s n) /\
  lastAppearance (data (set_lastAppearance s n)) = s.
Proof. by repeat split. Qed.

Lemma same_but_lastAppearance_refl (n : Node G) :
  same_but_lastAppearance n n.
Proof. by repeat split. Qed.

Lemma reachable_position_is_id (pt : PhylogenicTree G) :
  reachable cfg indeterminate pt ->
  (N.of_nat (length (_nodes pt)) <= 2 ^ 32)%N ->
  forall p n, _nodes pt !! p = Some n -> node_id n = N.of_nat p.
Proof.
  intros Hreach Hlen p n Hn.
  rewrite (proj2 (reachable_aligned cfg indeterminate pt Hreach) p n Hn).
  apply lookup_lt_Some in Hn. unfold wrap32. apply N.mod_small. lia.
Qed.

(** X25. In a tree built by events, of at most [2^32] nodes, a step
    advance whose alive genome ids are all in the index succeeds and sets
    the tree's step; the species whose id the index gives for one of the
    alive genomes have their [lastAppearance] set to the step, the other
    species keep theirs, and nothing else changes: not another field of a
    node, nor the index, the root, the next id, the observer or the hybrid
    counter. *)
Theorem step_marks_species (s : N) (alive : gset N) (pt : PhylogenicTree G) :
  reachable cfg indeterminate pt ->
  (N.of_nat (length (_nodes pt)) <= 2 ^ 32)%N ->
  (forall pid, pid ∈ alive -> is_Some (_idToSpecies pt !! pid)) ->
  exists pt',
    step s alive pt = (Ok tt, pt') /\
    _step pt' = s /\
    same_frame pt pt' /\
    forall p n, _nodes pt !! p = Some n ->
      exists n',
        _nodes pt' !! p = Some n' /\
        same_but_lastAppearance n n' /\
        ((exists pid, pid ∈ alive /\
                      _idToSpecies pt !! pid = Some (node_id n)) ->
         lastAppearance (data n') = s) /\
        (~ (exists pid, pid ∈ alive /\
                        _idToSpecies pt !! pid = Some (node_id n)) ->
         lastAppearance (data n') = lastAppearance (data n)).
Proof.
  intros Hreach Hlen Halive.
  destruct (step_marks_alive_species s alive pt
              (reachable_registry_ok cfg indeterminate pt Hreach) Halive)
    as (nodes' & E & Hlen' & Hnodes).
  eexists. split; [exact E|]. split; [reflexivity|].
  split; [by repeat split|].
  intros p n Hn. destruct (Hnodes p n Hn) as [Hyes Hno].
  rewrite (reachable_position_is_id pt Hreach Hlen p n Hn).
  destruct (decide (Exists
              (fun pid => _idToSpecies pt !! pid = Some (N.of_nat p))
              (elements alive))) as [Hex|Hnex].
  - assert (exists pid, pid ∈ alive /\
                        _idToSpecies pt !! pid = Some (N.of_nat p)) as Hex'.
    { apply Exists_exists in Hex as (pid & Hin & Hpid).
      exists pid. by rewrite <- elem_of_elements. }
    exists (set_lastAppearance s n). split; [by apply Hyes|].
    split; [apply set_lastAppearance_spec|]. split; [done|].
    intros Hnot. by destruct Hnot.
  - assert (~ exists pid, pid ∈ alive /\
                          _idToSpecies pt !! pid = Some (N.of_nat p))
      as Hnex'.
    { intros (pid & Hin & Hpid). apply Hnex, Exists_exists.
      exists pid. by rewrite elem_of_elements. }
    exists n. split; [by apply Hno|].
    split; [apply same_but_lastAppearance_refl|]. split; [|done].
    intros Hyes'. by destruct Hnex'.
Qed.

(** X26. In a tree built by events, of at most [2^32] nodes, the death of
    a genome the index knows sets the [lastAppearance] of the species the
    index gives for it to the step of the death and changes nothing else:
    every other species keeps its [lastAppearance], every node its other
    fields, and the tree its step, its index, which still maps the genome
    to that species, and its other fields.  The death of a genome the
    index does not know changes nothing. *)
Theorem delGenome_marks_species (s id : N) (pt : PhylogenicTree G) :
  reachable cfg indeterminate pt ->
  (N.of_nat (length (_nodes pt)) <= 2 ^ 32)%N ->
  (forall sid,
     _idToSpecies pt !! id = Some sid ->
     exists pt',
       delGenome s id pt = (Ok tt, pt') /\
       _step pt' = _step pt /\
       same_frame pt pt' /\
       _idToSpecies pt' !! id = Some sid /\
       forall p n, _nodes pt !! p = Some n ->
         exists n',
           _nodes pt' !! p = Some n' /\
           same_but_lastAppearance n n' /\
           lastAppearance (data n') =
             if decide (node_id n = sid) then s
             else lastAppearance (data n)) /\
  (_idToSpecies pt !! id = None -> delGenome s id pt = (Ok tt, pt)).
Proof.
  intros Hreach Hlen.
  destruct (delGenome_effect s id pt
              (reachable_registry_ok cfg indeterminate pt Hreach))
    as [Hknown Hunknown].
  split; [|exact Hunknown].
  intros sid Hsid. destruct (Hknown sid Hsid) as [E _].
  eexists. split; [exact E|]. split; [reflexivity|].
  split; [by repeat split; simpl; rewrite ?length_alter|].
  split; [exact Hsid|].
  intros p n Hn. simpl.
  rewrite (reachable_position_is_id pt Hreach Hlen p n Hn).
  destruct (decide (p = N.to_nat sid)) as [->|Hne].
  - exists (set_lastAppearance s n).
    rewrite list_lookup_alter_eq, Hn. split; [done|].
    split; [apply set_lastAppearance_spec|].
    by rewrite N2Nat.id, decide_True.
  - exists n. rewrite list_lookup_alter_ne by done. split; [done|].
    split; [apply same_but_lastAppearance_refl|].
    rewrite decide_False; [done|]. intros <-. by rewrite Nat2N.id in Hne.
Qed.

End MarkedSpecies.


Section Links.
Context {G : Type} `{Genome G}.
Variable cfg : PTreeConfig.
Variable indeterminate : Data.

Lemma parents_ok_same_links (pt pt' : PhylogenicTree G) :
  _root pt' = _root pt ->
  Forall2 same_links (_nodes pt) (_nodes pt') ->
  parents_ok pt -> parents_ok pt'.
Proof.
  intros Hroot Hsame [(r & Hr & Hnone) Hch]. split.
  - rewrite Hroot.
    destruct (Forall2_lookup_l _ _ _ _ _ Hsame Hr) as (r' & Hr' & _ & Hp).
    exists r'. split; [done|]. by rewrite Hp.
  - intros p n' Hn'.
    destruct (Forall2_lookup_r _ _ _ _ _ Hsame Hn') as (n & Hn & Hc & _).
    rewrite Hc. eapply Forall_impl; [exact (Hch p n Hn)|]. simpl.
    intros c (nc & Hnc & Hpar).
    destruct (Forall2_lookup_l _ _ _ _ _ Hsame Hnc) as (nc' & Hnc' & _ & Hp).
    exists nc'. split; [done|]. by rewrite Hp.
Qed.

Lemma same_links_refl (nodes : list (Node G)) : Forall2 same_links nodes nodes.
Proof. apply Forall_Forall2_diag, Forall_forall. by intros n _. Qed.

Lemma parents_seen p s :
  preserves (parents_ok (G := G)) (update_node p (set_lastAppearance s)).
Proof.
  intros pt Hok. eapply parents_ok_same_links; [| |exact Hok]; [done|].
  simpl. apply Forall2_alter_r; [apply same_links_refl|].
  by intros n n' _ _ [? ?].
Qed.

Lemma parents_place x (g : G) species compatibilities :
  preserves (parents_ok (G := G)) (place cfg x g species compatibilities).
Proof.
  intros pt Hok. unfold place, mbind, get, deref, mbind, get, lift, vec_get.
  simpl.
  destruct (_ !! _) as [n|] eqn:En; simpl; [|exact Hok].
  destruct (insertInto _ _ _ _ _ _ _) as [[n' sent]| | |] eqn:Ei; simpl;
    try exact Hok.
  eapply parents_ok_same_links; [| |exact Hok]; [done|]. simpl.
  apply Forall2_alter_r; [apply same_links_refl|].
  intros n0 n1 Hn0 _ _. rewrite En in Hn0. injection Hn0 as <-.
  split; [by eapply insertInto_children | by eapply insertInto_data].
Qed.

Lemma adopted_nodes x species (pt : PhylogenicTree G) :
  (species < length (_nodes pt))%nat ->
  _nodes (adopted indeterminate x species pt) =
    alter (push_child (length (_nodes pt))) species (_nodes pt) ++
    [mkNode (_nextNodeID pt)
       (mkData (_step pt) (lastAppearance indeterminate) 0 x x)
       (Some species) [] [] ∅].
Proof.
  intros Hs. unfold adopted. simpl.
  rewrite alter_last by done. by rewrite alter_app_l.
Qed.

Lemma parents_adopted x species (pt : PhylogenicTree G) :
  parents_ok pt -> (species < length (_nodes pt))%nat ->
  parents_ok (adopted indeterminate x species pt).
Proof.
  intros [(r & Hr & Hnone) Hch] Hs.
  assert (forall q n, _nodes pt !! q = Some n ->
            exists n', _nodes (adopted indeterminate x species pt) !! q
                         = Some n' /\ node_parent n' = node_parent n) as Hold.
  { intros q n Hn. rewrite adopted_nodes by done.
    rewrite lookup_app_l
      by (rewrite length_alter; by apply lookup_lt_Some in Hn).
    destruct (decide (species = q)) as [->|Hne].
    - rewrite list_lookup_alter_eq, Hn. by eexists.
    - rewrite list_lookup_alter_ne by done. by eexists. }
  split.
  - destruct (Hold _ r Hr) as (r' & Hr' & Hp).
    exists r'. split; [exact Hr' | by rewrite Hp].
  - intros q n Hn. rewrite adopted_nodes in Hn by done.
    apply lookup_app_Some in Hn as [Hn|[Hq Hn]].
    + destruct (decide (species = q)) as [->|Hne].
      * rewrite list_lookup_alter_eq in Hn.
        destruct (_nodes pt !! q) as [n0|] eqn:Hn0; [|done].
        injection Hn as <-. cbn [children push_child].
        apply Forall_app. split.
        -- eapply Forall_impl; [exact (Hch q n0 Hn0)|]. cbv beta.
           intros c (nc & Hnc & Hpar).
           destruct (Hold c nc Hnc) as (nc' & Hnc' & Hp).
           exists nc'. split; [done|]. by rewrite Hp.
        -- repeat constructor. eexists. split.
           ++ rewrite adopted_nodes by done.
              rewrite lookup_app_r by (by rewrite length_alter).
              by rewrite length_alter, Nat.sub_diag.
           ++ reflexivity.
      * rewrite list_lookup_alter_ne in Hn by done.
        eapply Forall_impl; [exact (Hch q n Hn)|]. simpl.
        intros c (nc & Hnc & Hpar).
        destruct (Hold c nc Hnc) as (nc' & Hnc' & Hp).
        exists nc'. split; [done|]. by rewrite Hp.
    + destruct (q - _)%nat as [|k]; [|done]. injection Hn as <-.
      constructor.
Qed.

Lemma parents_newSpecies x (g : G) species compatibilities
    (pt : PhylogenicTree G) :
  parents_ok pt -> (species < length (_nodes pt))%nat ->
  parents_ok
    (after (newSpecies cfg indeterminate x g species compatibilities) pt).
Proof.
  intros Hok Hs. unfold after.
  destruct (simpleNewSpecies cfg) eqn:Hsimple;
    [|unfold newSpecies; by rewrite Hsimple].
  rewrite newSpecies_unfold by done.
  apply (preserves_mbind (parents_ok (G := G))).
  - apply parents_place.
  - intros sid. apply preserves_mbind; [|intros _; apply preserves_mret].
    destruct (_callbacks pt); [by intros pt' HI | apply preserves_mret].
  - by apply parents_adopted.
Qed.

(** X12. In a tree built by events the back-references agree with the
    lists of children: the root has no parent, and every node listed among
    the children of a node has that node as its parent. *)
Theorem reachable_parents_ok (pt : PhylogenicTree G) :
  reachable cfg indeterminate pt -> parents_ok pt.
Proof.
  apply (stepwise_reachable cfg indeterminate (parents_ok (G := G))
           (fun _ => True)).
  - intros x g species compatibilities _. apply parents_place.
  - intros x g species compatibilities pt0 _. apply parents_newSpecies.
  - apply parents_seen.
  - by intros h pt0 HI.
  - by intros s pt0 HI.
  - done.
  - split; [by eexists|]. intros [|p] n Hn; [|done].
    injection Hn as <-. constructor.
  - by intros c pt0 HI.
Qed.

End Links.

Section Bounds.
Context {G : Type} `{Genome G}.
Variable cfg : PTreeConfig.
Variable indeterminate : Data.

Lemma bounds_alter p (f : Node G -> Node G) (pt : PhylogenicTree G) :
  (forall n, _nodes pt !! p = Some n -> bounds_ordered (f n)) ->
  every_node bounds_ordered pt ->
  every_node bounds_ordered (with_nodes (alter f p) pt).
Proof.
  intros Hf Hall. unfold every_node in *. simpl.
  apply Forall_lookup. intros q n Hn.
  destruct (decide (p = q)) as [->|Hne].
  - rewrite list_lookup_alter_eq in Hn.
    destruct (_nodes pt !! q) as [n0|] eqn:Hn0; [|done].
    injection Hn as <-. by apply Hf.
  - rewrite list_lookup_alter_ne in Hn by done.
    exact (proj1 (Forall_lookup _ _) Hall q n Hn).
Qed.

Lemma bounds_place x (g : G) species compatibilities :
  preserves (every_node (bounds_ordered (G := G)))
            (place cfg x g species compatibilities).
Proof.
  intros pt Hok. unfold place, mbind, get, deref, mbind, get, lift, vec_get.
  simpl.
  destruct (_ !! _) as [n|] eqn:En; simpl; [|exact Hok].
  destruct (insertInto _ _ _ _ _ _ _) as [[n' sent]| | |] eqn:Ei; simpl;
    try exact Hok.
  apply (bounds_alter species (fun _ => n') pt); [|exact Hok].
  intros _ _ _. apply insertInto_data in Ei as [-> _]. simpl. lia.
Qed.

Lemma bounds_newSpecies x (g : G) species compatibilities
    (pt : PhylogenicTree G) :
  every_node bounds_ordered pt -> (species < length (_nodes pt))%nat ->
  every_node bounds_ordered
    (after (newSpecies cfg indeterminate x g species compatibilities) pt).
Proof.
  intros Hok Hs. unfold after.
  destruct (simpleNewSpecies cfg) eqn:Hsimple;
    [|unfold newSpecies; by rewrite Hsimple].
  rewrite newSpecies_unfold by done.
  apply (preserves_mbind (every_node (bounds_ordered (G := G)))).
  - apply bounds_place.
  - intros sid. apply preserves_mbind; [|intros _; apply preserves_mret].
    destruct (_callbacks pt); [by intros pt' HI | apply preserves_mret].
  - unfold every_node. rewrite adopted_nodes by done.
    apply Forall_app. split; [|apply Forall_singleton; by intros []].
    apply (bounds_alter species _ pt); [|exact Hok].
    intros n Hn. exact (proj1 (Forall_lookup _ _) Hok species n Hn).
Qed.

Lemma reachable_every_bounds_ordered (pt : PhylogenicTree G) :
  reachable cfg indeterminate pt -> every_node bounds_ordered pt.
Proof.
  apply (stepwise_reachable cfg indeterminate
           (every_node (bounds_ordered (G := G))) (fun _ => True)).
  - intros x g species compatibilities _. apply bounds_place.
  - intros x g species compatibilities pt0 _. apply bounds_newSpecies.
  - intros q s pt0 HI.
    apply (bounds_alter q (set_lastAppearance s) pt0); [|exact HI].
    intros n0 Hn0. exact (proj1 (Forall_lookup _ _) HI q n0 Hn0).
  - by intros h pt0 HI.
  - by intros s pt0 HI.
  - done.
  - apply Forall_singleton. by intros [].
  - by intros c pt0 HI.
Qed.

(** X17. In a tree built by events, every species that holds a
    representative has its bounds in order, [xmin <= xmax], the root
    included, whose bounds are whatever the allocator left until the first
    insertion. *)
Theorem reachable_bounds_ordered (pt : PhylogenicTree G) (p : nat)
    (n : Node G) :
  reachable cfg indeterminate pt ->
  _nodes pt !! p = Some n ->
  enveloppe n <> [] ->
  (xmin (data n) <= xmax (data n))%Z.
Proof.
  intros Hreach Hn.
  exact (proj1 (Forall_lookup _ _)
           (reachable_every_bounds_ordered pt Hreach) p n Hn).
Qed.

End Bounds.

(** ** The text output follows the hierarchy *)

Lemma Forall2_impl_in {A B} (R R' : A -> B -> Prop) (l : list A) (k : list B) :
  Forall2 R l k ->
  (forall x y, x ∈ l -> R x y -> R' x y) ->
  Forall2 R' l k.
Proof.
  induction 1 as [|x y l k Hxy _ IH]; intros Himp; constructor.
  - apply Himp; [by left | done].
  - apply IH. intros x' y' Hin. apply Himp. by right.
Qed.

Lemma view_root_id {G} (nodes : list (Node G)) fuel p s :
  view fuel nodes p = Some s ->
  exists n, nodes !! p = Some n /\ species_id s = node_id n.
Proof.
  destruct fuel as [|fuel]; [done|]. simpl.
  destruct (nodes !! p) as [n|]; [|done]. simpl.
  destruct (mapM _ _); [|done]. simpl. intros [= <-]. by exists n.
Qed.

Lemma Species_logTo_length {G} (s : Species G) :
  length (Species_logTo s) = (2 * species_size s - 1)%nat.
Proof.
  induction s as [sid d env dist subs IH] using Species_nested_ind.
  rewrite species_size_unfold. cbn [Species_logTo length].
  assert (length (concat (map (fun c => edge sid (species_id c)
                                          :: Species_logTo c) subs))
          = (2 * sizes subs)%nat) as ->; [|lia].
  induction IH as [|c subs Hc _ IHsubs]; [done|].
  cbn [map concat]. rewrite length_app. cbn [length]. rewrite Hc, IHsubs.
  assert (1 <= species_size c)%nat by (destruct c; simpl; lia).
  unfold sizes. simpl. unfold sizes in IHsubs. lia.
Qed.

Lemma Species_print_length {G} `{Genome G} (s : Species G) : forall depth,
  length (Species_print depth s) = species_size s.
Proof.
  induction s as [sid d env dist subs IH] using Species_nested_ind.
  intros depth. rewrite species_size_unfold. cbn [Species_print length].
  f_equal. generalize (S depth).
  induction IH as [|c subs Hc _ IHsubs]; intros b; [done|].
  cbn [map concat]. rewrite length_app, Hc, IHsubs. reflexivity.
Qed.

Section TextOutput.
Context {G : Type} `{Genome G}.

Lemma Node_logTo_view (nodes : list (Node G)) fuel : forall p s,
  view fuel nodes p = Some s ->
  Node_logTo fuel nodes p = Some (Species_logTo s).
Proof.
  induction fuel as [|fuel IH]; intros p s Hv; [done|]. simpl in *.
  destruct (nodes !! p) as [n|]; [|done]. simpl in *.
  destruct (mapM (view fuel nodes) (children n)) as [subs|] eqn:Em; [|done].
  simpl in *. injection Hv as <-.
  assert (mapM (fun c =>
                  nc ← nodes !! c;
                  sub ← Node_logTo fuel nodes c;
                  Some (edge (node_id n) (node_id nc) :: sub)) (children n)
          = Some (map (fun c => edge (node_id n) (species_id c)
                                  :: Species_logTo c) subs)) as ->; [|done].
  apply mapM_Some. apply mapM_Some in Em. apply Forall2_fmap_r.
  eapply Forall2_impl; [exact Em|]. intros q c Hq. simpl.
  destruct (view_root_id _ _ _ _ Hq) as (nc & -> & ->). simpl.
  by rewrite (IH q c Hq).
Qed.

(** X14. On a tree whose pointers form a hierarchy, [logTo] ends and
    writes, between the opening and the closing line of the digraph, the
    declaration of the root and then, for every child in order, the edge
    from the node to the child followed by the text of the child; for [n]
    nodes that is [n] declarations and [n - 1] edges.  The text depends on
    the hierarchy of ids only. *)
Theorem logTo_hierarchy (pt : PhylogenicTree G) (s : Species G) :
  hierarchy pt = Some s ->
  logTo pt =
    Some (("digraph {" +:+ endl) +:+ join (Species_logTo s) +:+ "}" +:+ endl)
  /\ length (Species_logTo s) = (2 * species_size s - 1)%nat.
Proof.
  intros Hh. split; [|apply Species_logTo_length].
  unfold logTo. by rewrite (Node_logTo_view _ _ _ _ Hh).
Qed.

Lemma Node_print_view (nodes : list (Node G)) :
  (forall p n, nodes !! p = Some n ->
     Forall (fun c => (p < c < length nodes)%nat /\
                      exists nc, nodes !! c = Some nc /\
                                 node_parent nc = Some p) (children n)) ->
  forall fuel p s depth,
    view fuel nodes p = Some s ->
    (depth <= p)%nat ->
    (forall spacing fuel0, (depth < fuel0)%nat ->
       climb fuel0 nodes p spacing = Some (Nat.iter depth deeper spacing)) ->
    Node_print fuel nodes p = Some (Species_print depth s).
Proof.
  intros Hlinks.
  induction fuel as [|fuel IH]; intros p s depth Hv Hd Hclimb; [done|].
  simpl in *.
  destruct (nodes !! p) as [n|] eqn:Hn; [|done]. simpl in *.
  destruct (mapM (view fuel nodes) (children n)) as [subs|] eqn:Em; [|done].
  simpl in *. injection Hv as <-.
  rewrite Hclimb by (apply lookup_lt_Some in Hn; lia). simpl.
  assert (mapM (Node_print fuel nodes) (children n)
          = Some (map (Species_print (S depth)) subs)) as ->; [|done].
  apply mapM_Some. apply mapM_Some in Em. apply Forall2_fmap_r.
  eapply Forall2_impl_in; [exact Em|]. intros c sc Hin Hc. simpl.
  pose proof (proj1 (Forall_forall _ _) (Hlinks p n Hn) c Hin)
    as (Hpc & nc & Hnc & Hpar).
  apply IH; [done|lia|].
  intros spacing [|fuel0] Hfuel; [lia|]. simpl. rewrite Hnc. simpl.
  rewrite Hpar, Hclimb by lia. f_equal. symmetry.
  exact (Nat.iter_succ_r depth deeper spacing).
Qed.

(** X13. On a tree whose pointers form a hierarchy and whose
    back-references agree with it, [operator<<] ends and writes the hybrid
    counter and then one line for each node, parents before children and
    children in order: the line of a node at depth [d] below the root
    starts with the marker followed by [d] times two blanks, then the id
    and the ids of the representatives. *)
Theorem print_hierarchy (pt : PhylogenicTree G) :
  heap_ordered pt ->
  parents_ok pt ->
  exists s,
    hierarchy pt = Some s /\
    print pt =
      Some (show_uint (_hybrids pt) +:+ " Hybrids;" +:+ endl +:+
            join (Species_print 0 s)) /\
    length (Species_print 0 s) = species_size s.
Proof.
  intros [Hroot Hord] [(r & Hr & Hnone) Hch].
  destruct (view_total (_nodes pt) Hord (length (_nodes pt)) (_root pt))
    as [s Hh]; [done|lia|].
  exists s. split; [exact Hh|]. split; [|apply Species_print_length].
  unfold print. rewrite (Node_print_view (_nodes pt)) with (s := s) (depth := 0%nat);
    [done| |done|lia|].
  - intros p n Hn. apply Forall_forall. intros c Hin. split.
    + exact (proj1 (Forall_forall _ _) (Hord p n Hn) c Hin).
    + exact (proj1 (Forall_forall _ _) (Hch p n Hn) c Hin).
  - intros spacing [|fuel0] Hfuel; [lia|]. simpl. rewrite Hr. simpl.
    by rewrite Hnone.
Qed.

End TextOutput.

(** ** What deserialisation leaves alone, and where it puts the nodes *)

Section CodecFrame.
Context {G : Type} `{Genome G} `{GenomeCodec G}.
Variable indeterminate : Data.

(** A property of trees that does not look at the registry, at the next
    node id, at the step or at the root. *)
Variable P : PhylogenicTree G -> Prop.
Hypothesis P_nodes : forall f pt, P pt -> P (with_nodes f pt).
Hypothesis P_next : forall n pt, P pt -> P (with_nextNodeID n pt).

Lemma makeNode_keeps parent : preserves P (makeNode indeterminate parent).
Proof.
  unfold makeNode.
  repeat preserves_step; first [by apply P_next | by apply P_nodes].
Qed.

Lemma rebuild_fields_keeps n j : preserves P (rebuild_fields n j).
Proof.
  unfold rebuild_fields, read_distance, update_node.
  repeat preserves_step; by apply P_nodes.
Qed.

Lemma rebuildHierarchy_keeps :
  forall j parent, preserves P (rebuildHierarchy indeterminate parent j).
Proof.
  intros j. remember (S (json_size j)) as bound eqn:Hb.
  assert (json_size j < bound)%nat as Hlt by lia. clear Hb.
  revert j Hlt.
  induction bound as [|bound IH]; intros j Hlt parent; [lia|].
  assert (forall cs n,
    (forall c, c ∈ cs -> (json_size c < bound)%nat) ->
    preserves P
      (each_child (fun c => rebuildHierarchy indeterminate (Some n) c) cs))
    as Heach.
  { induction cs as [|c cs IHcs]; intros n Hcs.
    - apply preserves_mret.
    - apply preserves_mbind.
      + apply IH, Hcs. by left.
      + intros _. apply IHcs. intros c' Hc'. apply Hcs. by right. }
  assert (forall parent (tail : Node_ptr -> M G unit),
    (forall n, preserves P (tail n)) ->
    preserves P
      (let! n := makeNode indeterminate parent in
       do! match parent with
           | Some p => update_node p (push_child n)
           | None => mret tt
           end then
       do! rebuild_fields n j then
       do! tail n then mret n)) as Hshape.
  { intros par tail Htail.
    apply preserves_mbind; [apply makeNode_keeps | intros p].
    apply preserves_mbind;
      [destruct par; [unfold update_node|]; repeat preserves_step;
       by apply P_nodes
      | intros _].
    apply preserves_mbind; [apply rebuild_fields_keeps | intros _].
    apply preserves_mbind; [apply Htail | intros _; apply preserves_mret]. }
  destruct j as [| b | n | z | q | s | l]; simpl;
    try (apply (Hshape parent (fun _ => mfail Undefined)); intros;
         apply preserves_mfail).
  apply (Hshape parent (fun n =>
    match l with
    | _ :: _ :: _ :: _ :: jc :: _ =>
        match jc with
        | JNull => mret tt
        | JArray cs =>
            each_child (fun c => rebuildHierarchy indeterminate (Some n) c)
                       cs
        | _ => do! rebuildHierarchy indeterminate (Some n) jc then mret tt
        end
    | _ => mfail Undefined
    end)).
  intros n.
  destruct l as [|j0 [|j1 [|j2 [|j3 [|jc rest]]]]];
    try apply preserves_mfail.
  assert (json_size jc < bound)%nat as Hjc.
  { assert (jc ∈ j0 :: j1 :: j2 :: j3 :: jc :: rest) as E by set_solver.
    apply json_size_elem in E. lia. }
  destruct jc as [| b | k | z | q | s | cs];
    try (apply preserves_mbind; [by apply IH | intros _; apply preserves_mret]).
  - apply preserves_mret.
  - apply Heach. intros c Hc.
    pose proof (json_size_elem c cs Hc). lia.
Qed.

End CodecFrame.

Section CodecEffect.
Context {G : Type} `{Genome G} `{GenomeCodec G}.
Variable indeterminate : Data.

(** X16. Deserialisation, whatever the document and however far the
    decoding gets, leaves the index, the observer, what the observer has
    heard and the hybrid counter as they were: none of them is stored or
    restored.  The step is written before the hierarchy is read, so it is
    the document's even when the decoding of the hierarchy fails; the root
    is replaced only by a decoding that succeeds. *)
Theorem from_json_frame (j : json) (pt : PhylogenicTree G) :
  session_of pt (after (from_json indeterminate j) pt) /\
  (forall s, obind (json_at j 0) get_uint = Ok s ->
             _step (after (from_json indeterminate j) pt) = s) /\
  (fst (from_json indeterminate j pt) <> Ok tt ->
   _root (after (from_json indeterminate j) pt) = _root pt).
Proof.
  split; [|split].
  - assert (preserves (session_of pt) (from_json indeterminate j)) as Hp.
    { unfold from_json.
      apply preserves_mbind; [auto with preserves|intros s].
      apply preserves_mbind; [by apply preserves_modify|intros _].
      apply preserves_mbind; [auto with preserves|intros jroot].
      apply preserves_mbind; [|intros r; by apply preserves_modify].
      by apply rebuildHierarchy_keeps. }
    by apply Hp.
  - intros s Hs.
    assert (forall pt1 : PhylogenicTree G, _step pt1 = s ->
              _step (after (let! jroot := lift (json_at j 1) in
                            let! r := rebuildHierarchy indeterminate None
                                        jroot in
                            modify (with_root r)) pt1) = s) as Hrest.
    { apply (preserves_mbind (fun pt1 : PhylogenicTree G => _step pt1 = s));
        [auto with preserves|intros jroot].
      apply preserves_mbind; [|intros r; by apply preserves_modify].
      by apply rebuildHierarchy_keeps. }
    unfold after, from_json, mbind at 1, lift. rewrite Hs.
    unfold mbind at 1. simpl. by apply Hrest.
  - unfold after.
    destruct (from_json indeterminate j pt) as [o pt'] eqn:E. simpl.
    intros Ho. revert E. unfold from_json, mbind at 1, lift.
    destruct (obind (json_at j 0) get_uint) as [s| | |];
      try (by intros [= <- <-]).
    unfold mbind at 1. simpl. unfold mbind at 1, lift.
    destruct (json_at j 1) as [jroot| | |]; try (by intros [= <- <-]).
    unfold mbind at 1.
    pose proof (rebuildHierarchy_keeps indeterminate
      (fun pt1 : PhylogenicTree G => _root pt1 = _root pt)
      ltac:(done) ltac:(done) jroot None (with_step s pt) eq_refl) as Hroot.
    destruct (rebuildHierarchy _ _ _ _) as [[r| | |] pt1]; simpl in *;
      intros [= <- <-]; done.
Qed.

Hypothesis genome_round_trip :
  forall g : G, genome_from_json (genome_to_json g) = Ok g.

Lemma from_json_document (stp : N) (s : Species G) (pt0 : PhylogenicTree G) :
  is_uint stp -> Species_typed s ->
  from_json indeterminate (JArray [JUnsigned stp; Species_to_json s]) pt0 =
    (Ok tt, restored stp s pt0).
Proof.
  intros Hstep Htyped. unfold from_json.
  cbn [json_at vec_get lookup list_lookup obind].
  rewrite get_uint_typed by done.
  unfold mbind at 1. cbn [lift]. unfold mbind at 1. cbn [modify].
  unfold mbind at 1. cbn [lift]. unfold mbind at 1.
  by rewrite (rebuildHierarchy_spec indeterminate genome_round_trip).
Qed.

(** X15. Deserialising the document of a tree into a tree [pt0] appends:
    the nodes [pt0] had stay where they were, the nodes of the document
    follow them in the order of a walk from the root, parents first and
    children in order, and the restored root is the first of them;
    [_nextNodeID] is advanced by the number of nodes read, whatever their
    ids.  Everything else but the step is [pt0]'s. *)
Theorem from_json_appends (pt pt0 : PhylogenicTree G) :
  heap_ordered pt ->
  tree_typed pt ->
  exists s j,
    hierarchy pt = Some s /\
    to_json pt = Some j /\
    from_json indeterminate j pt0 = (Ok tt, restored (_step pt) s pt0).
Proof.
  intros [Hroot Hord] [Hstep Hnodes].
  destruct (view_total (_nodes pt) Hord (length (_nodes pt)) (_root pt))
    as [s Hh]; [done|lia|].
  assert (Species_typed s) as Htyped by (by eapply view_typed).
  exists s, (JArray [JUnsigned (_step pt); Species_to_json s]).
  split; [exact Hh|]. split.
  - apply (Node_to_json_view (G := G)) in Hh. unfold to_json. by rewrite Hh.
  - by apply from_json_document.
Qed.

(** X19. After a document whose root has id 0 has been read into a
    freshly constructed tree, position 0 of the registry still holds the
    empty root the constructor made and the restored root, with its id 0,
    sits at position 1: the registry is not indexed by node id, as
    [_nodes[id]] takes it to be. *)
Theorem from_json_registry_shifted (stp : N) (s : Species G) :
  is_uint stp -> Species_typed s -> species_id s = 0%N ->
  exists pt' blank_root restored_root,
    from_json indeterminate (JArray [JUnsigned stp; Species_to_json s])
              (PhylogenicTree_new indeterminate) = (Ok tt, pt') /\
    _root pt' = 1%nat /\
    _nodes pt' !! 0%nat = Some blank_root /\
    enveloppe blank_root = [] /\ node_id blank_root = 0%N /\
    _nodes pt' !! 1%nat = Some restored_root /\
    node_id restored_root = 0%N /\
    ~ ids_aligned pt'.
Proof.
  intros Hstep Htyped Hid.
  rewrite from_json_document by done.
  destruct s as [sid d env dist subs]. simpl in Hid. subst sid.
  eexists _, _, _. split; [reflexivity|].
  split; [reflexivity|]. split; [reflexivity|].
  split; [reflexivity|]. split; [reflexivity|].
  split; [unfold restored; by rewrite layout_unfold|].
  split; [reflexivity|].
  intros [_ Hal]. specialize (Hal 1%nat _ ltac:(unfold restored;
    by rewrite layout_unfold)). simpl in Hal. by vm_compute in Hal.
Qed.

End CodecEffect.

(** ** The first child that matches *)

Section FirstMatch.
Context {G : Type} `{Genome G}.
Variable cfg : PTreeConfig.
Variable indeterminate : Data.

Lemma trySubspecies_first_match x (g : G) species before before_nodes
    sub nsub rest (pt : PhylogenicTree G) :
  Forall2 (fun c nc => _nodes pt !! c = Some nc /\
                       fst (matchesSpecies cfg g nc []) = false)
          before before_nodes ->
  _nodes pt !! sub = Some nsub ->
  fst (matchesSpecies cfg g nsub []) = true ->
  forall compatibilities,
    trySubspecies cfg indeterminate x g species (before ++ sub :: rest)
                  compatibilities pt =
      place cfg x g sub
        (compatibilities ++ scores_against g (before_nodes ++ [nsub])) pt.
Proof.
  intros Hbefore Hsub Hyes.
  induction Hbefore as [|c nc before before_nodes [Hc Hno] _ IH];
    intros compatibilities; simpl.
  - unfold mbind at 1, deref, mbind, get, lift, vec_get. rewrite Hsub. simpl.
    pose proof (verdict_any_vector cfg g nsub compatibilities) as Hv.
    pose proof (matchesSpecies_scores cfg g nsub compatibilities) as Hs.
    destruct (matchesSpecies cfg g nsub compatibilities) as [ok c'].
    simpl in Hv, Hs. rewrite Hv, Hyes. subst c'.
    unfold scores_against. simpl. by rewrite app_nil_r.
  - unfold mbind at 1, deref, mbind, get, lift, vec_get. rewrite Hc. simpl.
    pose proof (verdict_any_vector cfg g nc compatibilities) as Hv.
    pose proof (matchesSpecies_scores cfg g nc compatibilities) as Hs.
    destruct (matchesSpecies cfg g nc compatibilities) as [ok c'].
    simpl in Hv, Hs. rewrite Hv, Hno. subst c'. rewrite IH.
    unfold scores_against. simpl. by rewrite app_assoc.
Qed.

(** X20. When the starting node rejects the genome, its children are
    tried in order and the genome is placed in the first one that accepts
    it; the children after it are not consulted.  The vector [insertInto]
    then receives holds the scores against the representatives of the
    starting node and of every child tried before, and only after them
    those against the representatives of the child itself. *)
Theorem addGenome_at_first_match (x : Z) (g : G) (species : nat)
    (n : Node G) (before : list nat) (before_nodes : list (Node G))
    (sub : nat) (nsub : Node G) (rest : list nat) (pt : PhylogenicTree G) :
  _nodes pt !! species = Some n ->
  fst (matchesSpecies cfg g n []) = false ->
  children n = before ++ sub :: rest ->
  Forall2 (fun c nc => _nodes pt !! c = Some nc /\
                       fst (matchesSpecies cfg g nc []) = false)
          before before_nodes ->
  _nodes pt !! sub = Some nsub ->
  fst (matchesSpecies cfg g nsub []) = true ->
  addGenome_at cfg indeterminate x g species pt =
    place cfg x g sub (scores_against g (n :: before_nodes ++ [nsub])) pt.
Proof.
  intros Hn Hno Hch Hbefore Hsub Hyes.
  unfold addGenome_at, mbind at 1, deref, mbind, get, lift, vec_get.
  rewrite Hn. simpl.
  pose proof (matchesSpecies_scores cfg g n []) as Hs.
  destruct (matchesSpecies cfg g n []) as [ok c']. simpl in Hno, Hs.
  subst ok c'. rewrite Hch.
  by rewrite (trySubspecies_first_match x g species before before_nodes
                sub nsub rest pt).
Qed.

End FirstMatch.

(** ** Admission into the starting node *)

Section StartNode.
Context {G : Type} `{Genome G}.
Variable cfg : PTreeConfig.
Variable indeterminate : Data.

Lemma insertInto_id s x (g : G) n compatibilities cb n' sent :
  insertInto cfg s x g n compatibilities cb = Ok (n', sent) ->
  node_id n' = node_id n.
Proof.
  unfold insertInto. intros E.
  destruct (update_enveloppe _ _ _ _ _) as [[[env' dist'] sent']| | |];
    by simplify_eq/=.
Qed.

Lemma alter_const {A} (a : A) (l : list A) (i : nat) :
  alter (fun _ => a) i l = <[i := a]> l.
Proof.
  revert i. induction l as [|b l IH]; intros [|i]; simpl; try done.
  f_equal. apply IH.
Qed.

(** X27. When the node an admission starts from accepts the genome,
    [insertInto] is given the scores of the genome against the
    representatives of that node, each narrowed to [float], and nothing
    else: the node it returns takes the place of the node in the registry,
    the index maps the genome to the id of the node, which is the id
    returned, and the observer hears what [insertInto] sent. *)
Theorem addGenome_at_start_inserts (x : Z) (g : G) (species : nat)
    (n n' : Node G) (sent : list Notification) (pt : PhylogenicTree G) :
  _nodes pt !! species = Some n ->
  fst (matchesSpecies cfg g n []) = true ->
  insertInto cfg (_step pt) x g n
    (map (fun r => narrow (compatibility g r)) (enveloppe n))
    (_callbacks pt) = Ok (n', sent) ->
  addGenome_at cfg indeterminate x g species pt =
    (Ok (node_id n),
     mkTree (_nextNodeID pt) (<[genome_id g := node_id n]> (_idToSpecies pt))
            (_root pt) (<[species := n']> (_nodes pt)) (_callbacks pt)
            (_hybrids pt) (_step pt) (notified pt ++ sent)).
Proof.
  intros Hn Hok Hins.
  rewrite (addGenome_at_start_matches cfg indeterminate x g species n pt)
    by done.
  unfold place, mbind at 1, get. unfold mbind at 1, deref, mbind, get, lift.
  unfold vec_get. rewrite Hn. cbn [fst snd].
  change (map (pushed_score g) (enveloppe n))
    with (map (fun r => narrow (compatibility g r)) (enveloppe n)).
  rewrite Hins. cbn [fst snd].
  rewrite (insertInto_id _ _ _ _ _ _ _ _ Hins).
  unfold update_node, notify, modify, mret. cbn [fst snd].
  f_equal. destruct pt. apply tree_ext; simpl; try done.
  apply alter_const.
Qed.

End StartNode.


(** ** The cache holds exactly the pairs of slots *)

Lemma for_each_invariant {A S} (inv : S -> Prop) (body : A -> S -> outcome S)
    (l : list A) :
  (forall a s s', a ∈ l -> inv s -> body a s = Ok s' -> inv s') ->
  forall s s', inv s -> for_each body l s = Ok s' -> inv s'.
Proof.
  induction l as [|a l IH]; intros Hbody s s' Hs E; simpl in E.
  - by injection E as <-.
  - destruct (body a s) as [s1| | |] eqn:Ea; simplify_eq/=.
    apply (IH ltac:(intros a' s0 s0' Hin; apply Hbody; by right) s1 s');
      [|done].
    apply (Hbody a s s1); [by left|done|done].
Qed.

Section CacheDomain.
Context {G : Type} `{Genome G}.
Variable cfg : PTreeConfig.
Variable indeterminate : Data.

Lemma keys_below_insert (k i m : nat) (c : Q) (dist : gmap (nat * nat) Q) :
  (i < k)%nat -> (m < k)%nat -> i <> m ->
  keys_below k dist -> keys_below k (<[ordered_pair i m := c]> dist).
Proof.
  intros Hi Hm Hne Hd. apply map_Forall_insert_2; [|done].
  unfold ordered_pair. simpl. lia.
Qed.

Lemma most_similar_index compatibilities (k : nat) c0 best :
  for_each (most_similar_step compatibilities) (seq 1 (k - 1)) (c0, 0%nat)
    = Ok best ->
  (best.2 = 0 \/ best.2 < k)%nat.
Proof.
  apply (for_each_invariant (fun s : Q * nat => (s.2 = 0 \/ s.2 < k)%nat));
    [|by left].
  intros i s s' Hi Hs. unfold most_similar_step, vec_get.
  destruct (compatibilities !! i); simpl; [|done].
  intros [= <-]. apply elem_of_seq in Hi.
  destruct (Qltb _ _); simpl; [right; lia | done].
Qed.

Lemma record_keys_below compatibilities (k : nat) dist dist' :
  for_each (record_new_slot compatibilities k) (seq 0 k) dist = Ok dist' ->
  keys_below k dist -> keys_below (k + 1) dist'.
Proof.
  intros E Hk. revert E.
  apply (for_each_invariant (keys_below (k + 1))).
  - intros i d d' Hi Hd. unfold record_new_slot, vec_get.
    destruct (compatibilities !! i); simpl; [|done]. intros [= <-].
    apply elem_of_seq in Hi. apply keys_below_insert; [lia|lia|lia|done].
  - eapply map_Forall_impl; [exact Hk|]. simpl. lia.
Qed.

Lemma vote_keys_below compatibilities (k m : nat) v dist st :
  (m = 0 \/ m < k)%nat ->
  for_each (vote_step compatibilities m) (seq 0 k) (v, dist) = Ok st ->
  keys_below k dist -> keys_below k st.2.
Proof.
  intros Hm E Hk. revert E.
  apply (for_each_invariant
           (fun st : nat * gmap (nat * nat) Q => keys_below k st.2));
    [|done].
  intros i s s' Hi Hs. unfold vote_step, vec_get.
  apply elem_of_seq in Hi.
  destruct (decide (i = m)); [by intros [= <-]|].
  destruct (compatibilities !! i); simpl; [|done].
  unfold dist_read. destruct (s.2 !! _) eqn:El.
  - by intros [= <-].
  - intros [= <-]. simpl. apply keys_below_insert; [lia|lia|done|done].
Qed.

Lemma overwrite_keys_below compatibilities (k m : nat) dist dist' :
  (m = 0 \/ m < k)%nat ->
  for_each (overwrite_step compatibilities m) (seq 0 k) dist = Ok dist' ->
  keys_below k dist -> keys_below k dist'.
Proof.
  intros Hm E Hk. revert E.
  apply (for_each_invariant (keys_below k)); [|done].
  intros i d d' Hi Hd. unfold overwrite_step, vec_get.
  apply elem_of_seq in Hi.
  destruct (decide (i = m)); [by intros [= <-]|].
  destruct (compatibilities !! i); simpl; [|done]. intros [= <-].
  apply keys_below_insert; [lia|lia|done|done].
Qed.

Lemma insertInto_keys_below s x (g : G) n compatibilities callbacks n' sent :
  insertInto cfg s x g n compatibilities callbacks = Ok (n', sent) ->
  keys_below (length (enveloppe n)) (distances n) ->
  keys_below (length (enveloppe n')) (distances n').
Proof.
  unfold insertInto, update_enveloppe. intros E Hk.
  destruct (_ <? _)%nat.
  - destruct (for_each _ _ _) as [dist'| | |] eqn:Ea; simplify_eq/=.
    rewrite length_app. simpl. by eapply record_keys_below.
  - destruct (negb _); [done|].
    destruct (vec_get compatibilities 0) as [c0| | |]; simplify_eq/=.
    destruct (for_each _ _ (c0, _)) as [best| | |] eqn:Eb; simplify_eq/=.
    apply most_similar_index in Eb.
    destruct (for_each _ _ (_, distances n)) as [[v d1]| | |] eqn:Ev;
      simplify_eq/=.
    apply vote_keys_below in Ev; [|done|done]. simpl in Ev.
    destruct (Qltb _ _); simplify_eq/=; [done|].
    destruct (vec_get (enveloppe n) _); simplify_eq/=.
    destruct (for_each _ _ d1) as [d2| | |] eqn:Eo; simplify_eq/=.
    rewrite length_insert. by eapply overwrite_keys_below.
Qed.

Lemma reachable_keys_below (pt : PhylogenicTree G) :
  reachable cfg indeterminate pt ->
  every_node (fun n => keys_below (length (enveloppe n)) (distances n)) pt.
Proof.
  apply (reachable_every_node cfg indeterminate
           (fun n => keys_below (length (enveloppe n)) (distances n))).
  - intros n _ ->. apply map_Forall_empty.
  - intros n n' He Hd. simpl. by rewrite He, Hd.
  - apply insertInto_keys_below.
Qed.

(** X22. In a tree built by events, the cache of a node holds a score
    for exactly the pairs of its slots: there is an entry under [(i, j)]
    if and only if [i < j] and both are indices of representatives. *)
Theorem reachable_cache_domain (pt : PhylogenicTree G) (p : nat)
    (n : Node G) (i j : nat) :
  reachable cfg indeterminate pt ->
  _nodes pt !! p = Some n ->
  is_Some (distances n !! (i, j)) <-> (i < j < length (enveloppe n))%nat.
Proof.
  intros Hreach Hn. split.
  - intros [c Hc].
    exact (proj1 (Forall_lookup _ _) (reachable_keys_below pt Hreach) p n Hn
             (i, j) c Hc).
  - apply (reachable_cache_complete cfg indeterminate pt Hreach p n Hn).
Qed.

End CacheDomain.

(** ** Nodes persist *)

Section Persistence.
Context {G : Type} `{Genome G}.
Variable cfg : PTreeConfig.
Variable indeterminate : Data.

Lemma later_node_refl (n : Node G) : later_node n n.
Proof. by repeat split. Qed.

Lemma later_tree_refl (pt : PhylogenicTree G) : later_tree pt pt.
Proof. intros p n Hn. exists n. split; [done | apply later_node_refl]. Qed.

Lemma later_tree_trans (pt1 pt2 pt3 : PhylogenicTree G) :
  later_tree pt1 pt2 -> later_tree pt2 pt3 -> later_tree pt1 pt3.
Proof.
  intros H12 H23 p n Hn.
  destruct (H12 p n Hn) as (n2 & Hn2 & Hi2 & Hp2 & Hf2 & Hc2).
  destruct (H23 p n2 Hn2) as (n3 & Hn3 & Hi3 & Hp3 & Hf3 & Hc3).
  exists n3. split; [done|]. repeat split; try congruence.
  by etrans.
Qed.

Lemma later_alter p (f : Node G -> Node G) (pt pt' : PhylogenicTree G) :
  _nodes pt' = alter f p (_nodes pt) ->
  (forall n, _nodes pt !! p = Some n -> later_node n (f n)) ->
  later_tree pt pt'.
Proof.
  intros Hnodes Hf q n Hn. rewrite Hnodes.
  destruct (decide (p = q)) as [->|Hne].
  - rewrite list_lookup_alter_eq, Hn. eexists. split; [done|]. by apply Hf.
  - rewrite list_lookup_alter_ne by done.
    exists n. split; [done | apply later_node_refl].
Qed.

Lemma later_place x (g : G) species compatibilities (pt : PhylogenicTree G) :
  later_tree pt (after (place cfg x g species compatibilities) pt).
Proof.
  unfold after, place, mbind, get, deref, mbind, get, lift, vec_get. simpl.
  destruct (_ !! _) as [n|] eqn:En; simpl; [|apply later_tree_refl].
  destruct (insertInto _ _ _ _ _ _ _) as [[n' sent]| | |] eqn:Ei; simpl;
    try apply later_tree_refl.
  apply (later_alter species (fun _ => n')); [done|].
  intros n0 Hn0. rewrite En in Hn0. injection Hn0 as <-.
  pose proof (insertInto_node_id _ _ _ _ _ _ _ _ _ Ei) as Hid.
  pose proof (insertInto_children _ _ _ _ _ _ _ _ _ Ei) as Hch.
  apply insertInto_data in Ei as [Hd Hp].
  split; [done|]. split; [done|]. split; [by rewrite Hd | by rewrite Hch].
Qed.

Lemma later_adopted x species (pt : PhylogenicTree G) :
  (species < length (_nodes pt))%nat ->
  later_tree pt (adopted indeterminate x species pt).
Proof.
  intros Hs q n Hn. rewrite adopted_nodes by done.
  rewrite lookup_app_l
    by (rewrite length_alter; by apply lookup_lt_Some in Hn).
  destruct (decide (species = q)) as [->|Hne].
  - rewrite list_lookup_alter_eq, Hn. eexists. split; [done|].
    repeat split; try done. simpl. by apply prefix_app_r.
  - rewrite list_lookup_alter_ne by done.
    exists n. split; [done | apply later_node_refl].
Qed.

Lemma later_newSpecies x (g : G) species compatibilities
    (pt : PhylogenicTree G) :
  (species < length (_nodes pt))%nat ->
  later_tree pt
    (after (newSpecies cfg indeterminate x g species compatibilities) pt).
Proof.
  intros Hs. unfold after.
  destruct (simpleNewSpecies cfg) eqn:Hsimple;
    [|unfold newSpecies; rewrite Hsimple; apply later_tree_refl].
  rewrite newSpecies_unfold by done.
  apply (preserves_mbind (later_tree pt)).
  - intros pt1 H1. eapply later_tree_trans; [exact H1 | apply later_place].
  - intros sid. apply preserves_mbind; [|intros _; apply preserves_mret].
    destruct (_callbacks pt); [by intros pt' HI | apply preserves_mret].
  - by apply later_adopted.
Qed.

(** X23. An event removes no node and rewrites no history: every node of
    the registry is at its position afterwards, with the id, the parent
    and the first appearance it had, and with the children it had followed
    by those the event has created. *)
Theorem run_keeps_nodes (e : Event G) (pt : PhylogenicTree G) (p : nat)
    (n : Node G) :
  _nodes pt !! p = Some n ->
  exists n',
    _nodes (after (run cfg indeterminate e) pt) !! p = Some n' /\
    node_id n' = node_id n /\ node_parent n' = node_parent n /\
    firstAppearance (data n') = firstAppearance (data n) /\
    children n `prefix_of` children n'.
Proof.
  revert p n. change (later_tree pt (after (run cfg indeterminate e) pt)).
  apply (stepwise_run cfg indeterminate (later_tree pt) (fun _ => True)).
  - intros x g species compatibilities _ pt1 H1.
    eapply later_tree_trans; [exact H1 | apply later_place].
  - intros x g species compatibilities pt1 _ H1 Hs.
    eapply later_tree_trans; [exact H1 | by apply later_newSpecies].
  - intros q s pt1 H1. eapply later_tree_trans; [exact H1|].
    apply (later_alter q (set_lastAppearance s)); [done|].
    intros n0 _. by repeat split.
  - by intros h pt1 H1.
  - by intros s pt1 H1.
  - done.
  - apply later_tree_refl.
Qed.

End Persistence.

(** * Worked instances *)

Lemma Plant_round_trip (g : Plant) :
  genome_from_json (genome_to_json g) = Ok g.
Proof. by destruct g as [i [m|] [f|] t]. Qed.

Lemma reachable_admit {G} `{Genome G} cfg indeterminate x (g : G) pt :
  reachable cfg indeterminate pt ->
  continues (fst (addGenome cfg indeterminate x g pt)) ->
  reachable cfg indeterminate (after (addGenome cfg indeterminate x g) pt).
Proof.
  intros Hreach Hcont.
  pose proof (reachable_event cfg indeterminate (Admit x g) pt Hreach) as Hev.
  unfold after. simpl in Hev. unfold mbind in Hev.
  destruct (addGenome cfg indeterminate x g pt) as [[sid| | |] pt'];
    by apply Hev.
Qed.

Lemma two_species_reachable : reachable cfg0 junk two_species.
Proof.
  unfold two_species.
  apply reachable_admit; [apply reachable_admit|..];
    [apply reachable_callbacks, reachable_new | by vm_compute..].
Qed.

Lemma family_reachable : reachable cfg0 junk family.
Proof.
  unfold family.
  apply reachable_admit; [apply two_species_reachable | by vm_compute].
Qed.

Lemma matchesSpecies_iff_vote_witness :
  (fst (matchesSpecies cfg_tenth founder crowd []) = true <->
   round binary64
     (similarityThreshold cfg_tenth * Q_of_nat (length (enveloppe crowd)))
     <= Q_of_nat
          (length (List.filter
             (fun r => Qle_bool (compatibilityThreshold cfg_tenth)
                         (Qmin (const_cdata founder (distance founder r))
                               (const_cdata r (distance founder r))))
             (enveloppe crowd)))) /\
  fst (matchesSpecies cfg_tenth founder (set_enveloppe [] crowd) []) = true.
Proof.
  apply (matchesSpecies_iff_vote cfg_tenth founder crowd []).
  reflexivity.
Defined.

Lemma first_admission_joins_root_witness :
  hasParent founder FATHER = false /\
  addGenome cfg0 junk 3 founder (PhylogenicTree_new junk) =
    (Ok 0%N,
     mkTree 1 {[genome_id founder := 0%N]} 0%nat
       [mkNode 0 (mkData 0 0 1 (Z.min (xmin junk) 3) (Z.max (xmax junk) 3))
               None [] [founder] ∅]
       false 0 0 []).
Proof.
  split; [reflexivity|].
  apply (first_admission_joins_root cfg0 junk 3 founder).
  - left. reflexivity.
  - simpl. lia.
Defined.

Lemma insertInto_at_capacity_witness :
  exists m cm old,
    is_best newcomer_scores 3 cm m /\
    enveloppe full_node !! m = Some old /\
    if Qle_bool
         (round (outperformanceFormat cfg0)
            (outperformanceThreshold cfg0 *
             of_uint (outperformanceFormat cfg0) (N.of_nat (3 - 1))))
         (of_uint (outperformanceFormat cfg0)
            (N.of_nat (replacement_votes newcomer_scores
                         (distances full_node) m 3)))
    then
      exists dist',
        insertInto cfg0 7 2 newcomer full_node newcomer_scores true =
          Ok (mkNode (node_id full_node) (bump 7 2 (data full_node))
                     (node_parent full_node) (children full_node)
                     (<[m := newcomer]> (enveloppe full_node)) dist',
              [onGenomeLeavesEnveloppe (node_id full_node) (genome_id old);
               onGenomeEntersEnveloppe (node_id full_node)
                                       (genome_id newcomer)])
        /\ (forall i c, (i < 3)%nat -> i <> m ->
              newcomer_scores !! i = Some c ->
              dist' !! ordered_pair i m = Some c)
        /\ (forall key,
              (forall i, (i < 3)%nat -> i <> m -> key <> ordered_pair i m) ->
              dist' !! key = distances full_node !! key)
    else
      insertInto cfg0 7 2 newcomer full_node newcomer_scores true =
        Ok (mkNode (node_id full_node) (bump 7 2 (data full_node))
                   (node_parent full_node) (children full_node)
                   (enveloppe full_node) (distances full_node),
            []).
Proof.
  apply (insertInto_at_capacity cfg0 7 2 newcomer full_node newcomer_scores
           true 3).
  - reflexivity.
  - reflexivity.
  - lia.
  - lia.
  - simpl. lia.
  - intros i j Hij.
    assert ((i = 0 /\ j = 1) \/ (i = 0 /\ j = 2) \/ (i = 1 /\ j = 2))%nat
      as [[-> ->]|[[-> ->]|[-> ->]]] by lia; vm_compute; by eexists.
Defined.

Lemma enveloppe_never_exceeds_capacity_witness :
  exists n, _nodes family !! 1%nat = Some n /\
            (length (enveloppe n) <= enveloppeSize cfg0)%nat.
Proof.
  eexists. split; [vm_compute; reflexivity|].
  apply (proj1 (enveloppe_never_exceeds_capacity cfg0 junk) family
           family_reachable 1%nat).
  vm_compute. reflexivity.
Defined.

Lemma family_heap_ordered : heap_ordered family.
Proof.
  split; [vm_compute; lia|]. intros p n Hn.
  destruct p as [|[|p]]; vm_compute in Hn; [| |done];
    injection Hn as <-; repeat constructor; vm_compute; lia.
Qed.

Lemma family_typed : tree_typed family.
Proof.
  split; [by vm_compute|].
  apply Forall_lookup. intros p n Hn.
  destruct p as [|[|p]]; vm_compute in Hn; [| |done]; injection Hn as <-.
  - split; [by vm_compute|]. split; [by vm_compute|].
    apply (bool_decide_unpack _). by vm_compute.
  - split; [by vm_compute|]. split; [by vm_compute|].
    apply (bool_decide_unpack _). by vm_compute.
Qed.

Lemma serialize_then_deserialize_witness :
  exists s j pt',
    hierarchy family = Some s /\
    to_json family = Some j /\
    from_json junk j (PhylogenicTree_new junk) = (Ok tt, pt') /\
    _step pt' = _step family /\
    hierarchy pt' = Some s.
Proof.
  apply (serialize_then_deserialize junk Plant_round_trip family
           (PhylogenicTree_new junk)).
  - apply family_heap_ordered.
  - apply family_typed.
Defined.

Lemma addGenome_unknown_parent_witness :
  _idToSpecies two_species !! parent orphan FATHER = None /\
  addGenome cfg0 junk 0 orphan two_species = (Throw OutOfRange, two_species).
Proof.
  split; [vm_compute; reflexivity|].
  apply (addGenome_unknown_parent cfg0 junk 0 orphan two_species).
  - reflexivity.
  - reflexivity.
  - right. vm_compute. reflexivity.
Defined.

(** ** Instances of the further properties *)

Lemma insertInto_below_capacity_witness :
  exists dist',
    insertInto cfg0 7 2 sibling lone_node [1] true =
      Ok (mkNode (node_id lone_node) (bump 7 2 (data lone_node))
                 (node_parent lone_node) (children lone_node)
                 (enveloppe lone_node ++ [sibling]) dist',
          [onGenomeEntersEnveloppe (node_id lone_node) (genome_id sibling)])
    /\ (forall i, (i < 1)%nat -> dist' !! (i, 1%nat) = [1] !! i)
    /\ (forall key, key.2 <> 1%nat ->
          dist' !! key = distances lone_node !! key).
Proof.
  apply (insertInto_below_capacity cfg0 7 2 sibling lone_node [1] true 1).
  - reflexivity.
  - simpl. lia.
  - simpl. lia.
Defined.

Lemma insertInto_capacity_one_witness :
  insertInto cfg_one 7 2 sibling lone_node [1] true =
    Ok (mkNode (node_id lone_node) (bump 7 2 (data lone_node))
               (node_parent lone_node) (children lone_node) [sibling]
               (distances lone_node),
        [onGenomeLeavesEnveloppe (node_id lone_node) (genome_id mutant);
         onGenomeEntersEnveloppe (node_id lone_node) (genome_id sibling)]).
Proof.
  apply (insertInto_capacity_one cfg_one 7 2 sibling mutant lone_node [1]
           true).
  - reflexivity.
  - reflexivity.
  - simpl. lia.
Defined.

Lemma capacity_zero_undefined_witness :
  addGenome cfg_zero junk 3 founder (PhylogenicTree_new junk) =
    (Undefined, PhylogenicTree_new junk).
Proof.
  apply (capacity_zero_undefined cfg_zero junk 3 founder).
  - left. reflexivity.
  - reflexivity.
Defined.

Lemma addGenome_at_founds_species_witness :
  exists n,
    _nodes one_species !! 0%nat = Some n /\
    addGenome_at cfg0 junk 4 mutant 0 one_species =
      (Ok (_nextNodeID one_species),
       mkTree (wrap32 (_nextNodeID one_species + 1))
         (<[genome_id mutant := _nextNodeID one_species]>
            (_idToSpecies one_species))
         (_root one_species)
         (alter (push_child (length (_nodes one_species))) 0%nat
                (_nodes one_species) ++
          [mkNode (_nextNodeID one_species)
                  (mkData (_step one_species) (_step one_species) 1 4 4)
                  (Some 0%nat) [] [mutant] ∅])
         (_callbacks one_species) (_hybrids one_species) (_step one_species)
         (notified one_species ++
          if _callbacks one_species
          then [onGenomeEntersEnveloppe (_nextNodeID one_species)
                                        (genome_id mutant);
                onNewSpecies (_nextNodeID one_species)]
          else [])).
Proof.
  eexists. split; [vm_compute; reflexivity|].
  eapply (addGenome_at_founds_species cfg0 junk 4 mutant 0 _ one_species).
  - reflexivity.
  - simpl. lia.
  - vm_compute. reflexivity.
  - vm_compute. reflexivity.
  - constructor.
Defined.

Lemma addGenome_counts_hybrids_witness :
  hasParent hybrid MOTHER = true /\
  if decide (1%N = 0%N)
  then _hybrids (after (addGenome cfg0 junk 4 hybrid) two_species)
         = _hybrids two_species
  else if ignoreHybrids cfg0
       then _hybrids (after (addGenome cfg0 junk 4 hybrid) two_species)
              = wrap32 (_hybrids two_species + 1)
       else addGenome cfg0 junk 4 hybrid two_species = (Abort, two_species).
Proof.
  split; [reflexivity|].
  apply (addGenome_counts_hybrids cfg0 junk 4 hybrid 1 0 two_species).
  - reflexivity.
  - reflexivity.
  - vm_compute. reflexivity.
  - vm_compute. reflexivity.
Defined.

Lemma addGenome_records_species_witness :
  speciesID (genome_id sibling) family = 1%N /\ recorded 4 sibling 1 family.
Proof.
  apply (addGenome_records_species cfg0 junk 4 sibling 1 two_species family).
  vm_compute. reflexivity.
Defined.

Lemma step_unknown_plant_witness :
  step 5 ({[77%N]} : gset N) two_species = (Throw OutOfRange, two_species).
Proof.
  apply (step_unknown_plant 5 {[77%N]} 77 two_species).
  - by apply elem_of_singleton.
  - vm_compute. reflexivity.
Defined.

Lemma reachable_ids_aligned_witness :
  ids_aligned family /\
  ((N.of_nat (length (_nodes family)) <= 2 ^ 32)%N ->
   (forall p n, _nodes family !! p = Some n ->
      node_id n = N.of_nat p /\
      _nodes family !! N.to_nat (node_id n) = Some n) /\
   (forall gid sid, _idToSpecies family !! gid = Some sid ->
      exists n, _nodes family !! N.to_nat sid = Some n /\ node_id n = sid)).
Proof.
  apply (reachable_ids_aligned cfg0 junk family family_reachable).
Defined.

Lemma reachable_parents_ok_witness : parents_ok family.
Proof.
  apply (reachable_parents_ok cfg0 junk family family_reachable).
Defined.

Lemma family_parents_ok : parents_ok family.
Proof.
  split.
  - eexists. split; vm_compute; reflexivity.
  - intros p n Hn.
    destruct p as [|[|p]]; vm_compute in Hn; [| |done];
      injection Hn as <-; repeat constructor.
    eexists. split; vm_compute; reflexivity.
Qed.

Lemma print_hierarchy_witness :
  exists s,
    hierarchy family = Some s /\
    print family =
      Some (show_uint (_hybrids family) +:+ " Hybrids;" +:+ endl +:+
            join (Species_print 0 s)) /\
    length (Species_print 0 s) = species_size s.
Proof.
  apply (print_hierarchy family family_heap_ordered family_parents_ok).
Defined.

Lemma logTo_hierarchy_witness :
  exists s,
    hierarchy family = Some s /\
    logTo family =
      Some (("digraph {" +:+ endl) +:+ join (Species_logTo s) +:+
            "}" +:+ endl) /\
    length (Species_logTo s) = (2 * species_size s - 1)%nat.
Proof.
  eexists. split; [vm_compute; reflexivity|].
  apply (logTo_hierarchy family). vm_compute. reflexivity.
Defined.

Lemma from_json_appends_witness :
  exists s j,
    hierarchy family = Some s /\
    to_json family = Some j /\
    from_json junk j (PhylogenicTree_new junk) =
      (Ok tt, restored (_step family) s (PhylogenicTree_new junk)).
Proof.
  apply (from_json_appends junk Plant_round_trip family
           (PhylogenicTree_new junk) family_heap_ordered family_typed).
Defined.

Lemma reachable_bounds_ordered_witness :
  exists n,
    _nodes family !! 1%nat = Some n /\ (xmin (data n) <= xmax (data n))%Z.
Proof.
  eexists. split; [vm_compute; reflexivity|].
  apply (reachable_bounds_ordered cfg0 junk family 1 _ family_reachable).
  - vm_compute. reflexivity.
  - discriminate.
Defined.

Lemma addGenome_without_simpleNewSpecies_witness :
  length (_nodes (after (addGenome cfg_strict junk 4 mutant) one_species))
    = length (_nodes one_species) /\
  _nextNodeID (after (addGenome cfg_strict junk 4 mutant) one_species)
    = _nextNodeID one_species.
Proof.
  apply (addGenome_without_simpleNewSpecies cfg_strict junk 4 mutant
           one_species).
  reflexivity.
Defined.

Lemma lone_species_typed : Species_typed lone_species.
Proof.
  apply Species_typed_unfold. split; [by vm_compute|].
  split; [by vm_compute|]. split; [apply map_Forall_empty | constructor].
Qed.

Lemma from_json_registry_shifted_witness :
  exists pt' blank_root restored_root,
    from_json junk (JArray [JUnsigned 5; Species_to_json lone_species])
              (PhylogenicTree_new junk) = (Ok tt, pt') /\
    _root pt' = 1%nat /\
    _nodes pt' !! 0%nat = Some blank_root /\
    enveloppe blank_root = [] /\ node_id blank_root = 0%N /\
    _nodes pt' !! 1%nat = Some restored_root /\
    node_id restored_root = 0%N /\
    ~ ids_aligned pt'.
Proof.
  apply (from_json_registry_shifted junk Plant_round_trip 5 lone_species).
  - by vm_compute.
  - apply lone_species_typed.
  - reflexivity.
Defined.

Lemma addGenome_at_first_match_witness :
  exists n nsub,
    _nodes two_species !! 0%nat = Some n /\
    _nodes two_species !! 1%nat = Some nsub /\
    addGenome_at cfg0 junk 4 sibling 0 two_species =
      place cfg0 4 sibling 1 (scores_against sibling (n :: [] ++ [nsub]))
            two_species.
Proof.
  eexists _, _. split; [vm_compute; reflexivity|].
  split; [vm_compute; reflexivity|].
  eapply (addGenome_at_first_match cfg0 junk 4 sibling 0 _ [] [] 1 _ []
            two_species).
  - vm_compute. reflexivity.
  - vm_compute. reflexivity.
  - vm_compute. reflexivity.
  - constructor.
  - vm_compute. reflexivity.
  - vm_compute. reflexivity.
Defined.

Lemma reachable_cache_domain_witness :
  exists n,
    _nodes family !! 1%nat = Some n /\
    (is_Some (distances n !! (0, 1)%nat) <->
     (0 < 1 < length (enveloppe n))%nat).
Proof.
  eexists. split; [vm_compute; reflexivity|].
  apply (reachable_cache_domain cfg0 junk family 1 _ 0 1 family_reachable).
  vm_compute. reflexivity.
Defined.

Lemma run_keeps_nodes_witness :
  exists n,
    _nodes two_species !! 0%nat = Some n /\
    exists n',
      _nodes (after (run cfg0 junk (Admit 4 sibling)) two_species) !! 0%nat
        = Some n' /\
      node_id n' = node_id n /\ node_parent n' = node_parent n /\
      firstAppearance (data n') = firstAppearance (data n) /\
      children n `prefix_of` children n'.
Proof.
  eexists. split; [vm_compute; reflexivity|].
  apply (run_keeps_nodes cfg0 junk (Admit 4 sibling) two_species 0).
  vm_compute. reflexivity.
Defined.

Lemma step_marks_species_witness :
  exists pt',
    step 5 ({[2%N]} : gset N) two_species = (Ok tt, pt') /\
    _step pt' = 5%N /\
    same_frame two_species pt' /\
    forall p n, _nodes two_species !! p = Some n ->
      exists n',
        _nodes pt' !! p = Some n' /\
        same_but_lastAppearance n n' /\
        ((exists pid, pid ∈ ({[2%N]} : gset N) /\
                      _idToSpecies two_species !! pid = Some (node_id n)) ->
         lastAppearance (data n') = 5%N) /\
        (~ (exists pid, pid ∈ ({[2%N]} : gset N) /\
                        _idToSpecies two_species !! pid = Some (node_id n)) ->
         lastAppearance (data n') = lastAppearance (data n)).
Proof.
  apply (step_marks_species cfg0 junk 5 {[2%N]} two_species
           two_species_reachable).
  - by vm_compute.
  - intros pid Hpid. apply elem_of_singleton in Hpid as ->.
    exists 1%N. vm_compute. reflexivity.
Defined.

Lemma delGenome_marks_species_witness :
  (exists pt',
     delGenome 9 2 two_species = (Ok tt, pt') /\
     _step pt' = _step two_species /\
     same_frame two_species pt' /\
     _idToSpecies pt' !! 2%N = Some 1%N /\
     forall p n, _nodes two_species !! p = Some n ->
       exists n',
         _nodes pt' !! p = Some n' /\
         same_but_lastAppearance n n' /\
         lastAppearance (data n') =
           if decide (node_id n = 1%N) then 9%N
           else lastAppearance (data n)) /\
  delGenome 9 77 two_species = (Ok tt, two_species).
Proof.
  split.
  - apply (proj1 (delGenome_marks_species cfg0 junk 9 2 two_species
                    two_species_reachable ltac:(by vm_compute)) 1%N).
    vm_compute. reflexivity.
  - apply (proj2 (delGenome_marks_species cfg0 junk 9 77 two_species
                    two_species_reachable ltac:(by vm_compute))).
    vm_compute. reflexivity.
Defined.

Lemma addGenome_at_start_inserts_witness :
  exists n n' sent,
    _nodes two_species !! 0%nat = Some n /\
    insertInto cfg0 (_step two_species) 6 late n
      (map (fun r => narrow (compatibility late r)) (enveloppe n))
      (_callbacks two_species) = Ok (n', sent) /\
    addGenome_at cfg0 junk 6 late 0 two_species =
      (Ok (node_id n),
       mkTree (_nextNodeID two_species)
              (<[genome_id late := node_id n]> (_idToSpecies two_species))
              (_root two_species) (<[0%nat := n']> (_nodes two_species))
              (_callbacks two_species) (_hybrids two_species)
              (_step two_species) (notified two_species ++ sent)).
Proof.
  eexists _, _, _. split; [vm_compute; reflexivity|].
  split; [vm_compute; reflexivity|].
  apply (addGenome_at_start_inserts cfg0 junk 6 late 0).
  - vm_compute. reflexivity.
  - vm_compute. reflexivity.
  - vm_compute. reflexivity.
Defined.
